(** * kamiha: the card-catalog scraper/normalizer and the deck compositor

    A shallow embedding of [update_cards.py] and [deckmaker.py].

    - Python [str] is a list of code points; the development covers the
      code points 0..255 (type [ascii]), on which [\s], [str.strip],
      [str.splitlines] and [int()] are modelled exactly.
    - Python values produced by [ast.literal_eval] / [json.load] are the
      trees of [pyval]; a [dict] is an association list in insertion order
      with string keys.
    - Exceptions are the [Raise] results of the [result] monad. *)

From Stdlib Require Import ZArith Ascii String.
From stdpp Require Import base tactics option list gmap strings.

Set Warnings "-register-all".

Open Scope Z_scope.
Open Scope list_scope.

(** ** Text *)

Abbreviation text := (list ascii).

(** [L "abc"] is the Python string literal ["abc"]. *)
Definition L (s : string) : text := list_ascii_of_string s.
Global Arguments L : simpl never.

(** ** Exceptions *)

Inductive exn :=
| KeyError
| TypeError
| ValueError
| IndexError
| SyntaxError
| AttributeError
| RuntimeError (msg : text)
| SystemExit (msg : text)
| NetworkError (msg : text).

Inductive result (A : Type) :=
| Ok (a : A)
| Raise (e : exn).
Arguments Ok {A} a.
Arguments Raise {A} e.

Global Instance result_bind : MBind result := λ A B f m,
  match m with
  | Ok a => f a
  | Raise e => Raise e
  end.

Global Instance result_ret : MRet result := λ A a, Ok a.

Definition is_ok {A} (m : result A) : bool :=
  match m with Ok _ => true | Raise _ => false end.

(** ** Python values *)

Inductive pyval :=
| PNone
| PBool (b : bool)
| PInt (z : Z)
| PStr (s : text)
| PList (l : list pyval)
| PDict (d : list (text * pyval)).

(** A dict with string keys, in insertion order. *)
Abbreviation record := (list (text * pyval)).

(** [d.get(k)] / [k in d] *)
Fixpoint dict_get (d : record) (k : text) : option pyval :=
  match d with
  | [] => None
  | (k', v) :: d' => if decide (k' = k) then Some v else dict_get d' k
  end.

(** [d[k] = v]: an existing key keeps its position, a new key is appended. *)
Fixpoint dict_set (d : record) (k : text) (v : pyval) : record :=
  match d with
  | [] => [(k, v)]
  | (k', v') :: d' =>
      if decide (k' = k) then (k', v) :: d' else (k', v') :: dict_set d' k v
  end.

(** [d.get(k, default)] *)
Definition dict_get_default (d : record) (k : text) (dflt : pyval) : pyval :=
  default dflt (dict_get d k).

(** A Python dict never holds one key twice. *)
Definition wf_record (d : record) : Prop := NoDup (d.*1).

(** [bool(v)] *)
Definition truthy (v : pyval) : bool :=
  match v with
  | PNone => false
  | PBool b => b
  | PInt z => negb (z =? 0)
  | PStr s => match s with [] => false | _ => true end
  | PList l => match l with [] => false | _ => true end
  | PDict d => match d with [] => false | _ => true end
  end.

(** [a or b] *)
Definition py_or (a b : pyval) : pyval := if truthy a then a else b.

(** [copy.deepcopy]: rebuilds the whole tree. *)
Fixpoint deepcopy (v : pyval) : pyval :=
  match v with
  | PNone => PNone
  | PBool b => PBool b
  | PInt z => PInt z
  | PStr s => PStr s
  | PList l => PList (map deepcopy l)
  | PDict d =>
      PDict ((fix items (d : list (text * pyval)) :=
                match d with
                | [] => []
                | (k, x) :: d' => (k, deepcopy x) :: items d'
                end) d)
  end.

(** Hashable values as dict keys: [True == 1] and [False == 0] are the
    same key; lists and dicts are unhashable. *)
Inductive hkey :=
| KNone
| KInt (z : Z)
| KStr (s : text).

Global Instance hkey_eq_dec : EqDecision hkey.
Proof. solve_decision. Defined.

Global Instance hkey_countable : Countable hkey.
Proof.
  refine (inj_countable'
    (λ k, match k with
          | KNone => inl ()
          | KInt z => inr (inl z)
          | KStr s => inr (inr s)
          end)
    (λ x, match x with
          | inl _ => KNone
          | inr (inl z) => KInt z
          | inr (inr s) => KStr s
          end) _).
  by intros [].
Defined.

Definition to_key (v : pyval) : option hkey :=
  match v with
  | PNone => Some KNone
  | PBool b => Some (KInt (if b then 1 else 0))
  | PInt z => Some (KInt z)
  | PStr s => Some (KStr s)
  | PList _ | PDict _ => None
  end.

(** ** update_cards.py: [_resolve_references] *)

(** [by_id = {card["id"]: card for card in cards}]; the dict holds
    references to the card objects, here their positions in the list. *)
Fixpoint index_by_id (cards : list record) (i : nat) (by_id : gmap hkey nat)
  : result (gmap hkey nat) :=
  match cards with
  | [] => Ok by_id
  | card :: rest =>
      match dict_get card (L "id") with
      | None => Raise KeyError
      | Some v =>
          match to_key v with
          | None => Raise TypeError
          | Some k => index_by_id rest (S i) (<[k := i]> by_id)
          end
      end
  end.

(** [card[key] in (None, '', [], {})] *)
Definition is_blank (v : pyval) : bool :=
  match v with
  | PNone | PStr [] | PList [] | PDict [] => true
  | _ => false
  end.

(** One turn of the inner loop [for key, value in base.items()]. *)
Definition inherit_field (card : record) (kv : text * pyval) : record :=
  let '(key, value) := kv in
  if decide (key = L "id") then card
  else match dict_get card key with
       | None => dict_set card key (deepcopy value)
       | Some own =>
           if is_blank own then dict_set card key (deepcopy value) else card
       end.

Definition inherit (base card : record) : record :=
  fold_left inherit_field base card.

(** One turn of the outer loop, on the card object at position [i]. *)
Definition resolve_one (by_id : gmap hkey nat) (store : list record) (i : nat)
  : result (list record) :=
  match store !! i with
  | None => Raise IndexError
  | Some card =>
      match dict_get_default card (L "refer_id") PNone with
      | PNone => Ok store
      | reference =>
          match to_key reference with
          | None => Raise TypeError
          | Some k =>
              match by_id !! k ≫= (store !!.) with
              | None | Some [] =>
                  Raise (RuntimeError (L "refer_id not found"))
              | Some base => Ok (<[i := inherit base card]> store)
              end
          end
      end
  end.

Fixpoint resolve_from (by_id : gmap hkey nat) (store : list record)
    (i todo : nat) : result (list record) :=
  match todo with
  | O => Ok store
  | S todo' =>
      store' ← resolve_one by_id store i;
      resolve_from by_id store' (S i) todo'
  end.

Definition _resolve_references (cards : list record) : result (list record) :=
  by_id ← index_by_id cards 0 ∅;
  resolve_from by_id cards 0 (length cards).

(** The id of a raw record as a dict key ([card["id"]]). *)
Definition id_key (card : record) : option hkey :=
  dict_get card (L "id") ≫= to_key.

(** [base["id"] == r] for a hashable [r]. *)
Definition has_id (base : record) (r : pyval) : Prop :=
  ∃ k, to_key r = Some k ∧ id_key base = Some k.

(** The record carries a [refer_id] ([card.get("refer_id")] is not [None]). *)
Definition refers_to (card : record) (r : pyval) : Prop :=
  dict_get card (L "refer_id") = Some r ∧ r ≠ PNone.

(** The referring record's own value is absent, [None], the empty string,
    the empty list or the empty dict. *)
Definition absent_or_blank (own : option pyval) : Prop :=
  own = None ∨ own = Some PNone ∨ own = Some (PStr []) ∨
  own = Some (PList []) ∨ own = Some (PDict []).

(** ** Python's [re] on the patterns of the source

    A backtracking matcher: [rmatch r prev s] lists, in the order Python's
    engine tries them, the ways [r] matches a prefix of [s], each as
    (matched text, remaining text, captured groups in the order of their
    opening parentheses).  [prev] is the character before the match position
    (for [^]).  Quantifiers apply to character classes, which is all the
    patterns of the source need. *)

Inductive regex :=
| RLit (s : text)             (* literal characters *)
| RSet (p : ascii → bool)     (* one character of a class *)
| RStar (p : ascii → bool)    (* class*   (greedy) *)
| RPlus (p : ascii → bool)    (* class+   (greedy) *)
| RLazy (p : ascii → bool)    (* class*?  (lazy) *)
| RCat (r1 r2 : regex)
| RGroup (r : regex)          (* ( ... ) *)
| RBol                        (* ^ under re.MULTILINE *)
| REol.                       (* $ under re.MULTILINE *)

Definition newline : ascii := "010"%char.
Definition dquote : ascii := "034"%char.

(** The longest prefix of [s] within the class, and what follows. *)
Fixpoint span (p : ascii → bool) (s : text) : text * text :=
  match s with
  | c :: s' => if p c then let '(run, rest) := span p s' in (c :: run, rest)
               else ([], s)
  | [] => ([], [])
  end.

(** All splits of [run ++ rest] inside [run], shortest match first. *)
Fixpoint splits (run rest : text) : list (text * text) :=
  match run with
  | [] => [([], rest)]
  | c :: run' =>
      ([], run ++ rest) :: map (λ '(m, r), (c :: m, r)) (splits run' rest)
  end.

Fixpoint strip_prefix_of (l s : text) : option text :=
  match l, s with
  | [], _ => Some s
  | a :: l', b :: s' => if decide (a = b) then strip_prefix_of l' s' else None
  | _ :: _, [] => None
  end.

Definition last_or (prev : option ascii) (m : text) : option ascii :=
  match last m with Some c => Some c | None => prev end.

Abbreviation rmatches := (list (text * text * list text)).

Fixpoint rmatch (r : regex) (prev : option ascii) (s : text) : rmatches :=
  match r with
  | RLit l =>
      match strip_prefix_of l s with
      | Some rest => [(l, rest, [])]
      | None => []
      end
  | RSet p =>
      match s with
      | c :: rest => if p c then [([c], rest, [])] else []
      | [] => []
      end
  | RStar p =>
      let '(run, rest) := span p s in
      map (λ '(m, r), (m, r, [])) (reverse (splits run rest))
  | RPlus p =>
      let '(run, rest) := span p s in
      map (λ '(m, r), (m, r, [])) (reverse (tail (splits run rest)))
  | RLazy p =>
      let '(run, rest) := span p s in
      map (λ '(m, r), (m, r, [])) (splits run rest)
  | RCat r1 r2 =>
      '(m1, s1, g1) ← rmatch r1 prev s;
      '(m2, s2, g2) ← rmatch r2 (last_or prev m1) s1;
      [(m1 ++ m2, s2, g1 ++ g2)]
  | RGroup r1 =>
      '(m, rest, g) ← rmatch r1 prev s;
      [(m, rest, m :: g)]
  | RBol =>
      match prev with
      | None => [([], s, [])]
      | Some c => if decide (c = newline) then [([], s, [])] else []
      end
  | REol =>
      match s with
      | [] => [([], s, [])]
      | c :: _ => if decide (c = newline) then [([], s, [])] else []
      end
  end.

(** [pattern.match] at one position: the first way the engine finds. *)
Definition match_at (r : regex) (prev : option ascii) (s : text)
  : option (text * text * list text) :=
  head (rmatch r prev s).

(** [pattern.search]: the leftmost position with a match; returns the text
    before the match, the match, the text after it and the groups. *)
Fixpoint search_from (r : regex) (prev : option ascii) (before s : text)
  : option (text * text * text * list text) :=
  match match_at r prev s with
  | Some (m, rest, g) => Some (before, m, rest, g)
  | None =>
      match s with
      | [] => None
      | c :: s' => search_from r (Some c) (before ++ [c]) s'
      end
  end.

Definition re_search (r : regex) (s : text) := search_from r None [] s.

(** [pattern.sub(repl, s)] with a function [repl] of the match and its
    groups: leftmost non-overlapping matches; an empty match is replaced
    and the scan moves one character on. *)
Fixpoint sub_go (fuel : nat) (r : regex) (repl : text → list text → text)
    (prev : option ascii) (s : text) : text :=
  match fuel with
  | O => s
  | S fuel' =>
      let copy :=
        match s with
        | [] => []
        | c :: s' => c :: sub_go fuel' r repl (Some c) s'
        end in
      match match_at r prev s with
      | Some ([], _, g) => repl [] g ++ copy
      | Some (m, rest, g) => repl m g ++ sub_go fuel' r repl (last_or prev m) rest
      | None => copy
      end
  end.

Definition re_sub (r : regex) (repl : text → list text → text) (s : text) : text :=
  sub_go (S (length s)) r repl None s.

(** [re.split(pattern, s)] for a pattern that matches no empty string (an
    empty match is passed over): the pieces between the matches, with the
    groups of each match after the piece before it. *)
Fixpoint split_go (fuel : nat) (r : regex) (prev : option ascii)
    (piece s : text) : list text :=
  match fuel with
  | O => [piece ++ s]
  | S fuel' =>
      match s with
      | [] => [piece]
      | c :: s' =>
          match match_at r prev s with
          | Some (m :: ms, rest, g) =>
              piece :: g ++ split_go fuel' r (last_or prev (m :: ms)) [] rest
          | _ => split_go fuel' r (Some c) (piece ++ [c]) s'
          end
      end
  end.

Definition re_split (r : regex) (s : text) : list text :=
  split_go (S (length s)) r None [] s.

(** *** Character classes *)

Definition code (c : ascii) : N := N_of_ascii c.

Definition in_range (lo hi : ascii) (c : ascii) : bool :=
  ((code lo <=? code c) && (code c <=? code hi))%N.

Definition one_of (s : string) (c : ascii) : bool :=
  bool_decide (c ∈ L s).

(** [\s] on a [str] pattern, and [str.isspace]: 0x09-0x0D, 0x1C-0x20, 0x85
    and 0xA0 are the white space code points below 256. *)
Definition is_space (c : ascii) : bool :=
  ((9 <=? code c) && (code c <=? 13) || (28 <=? code c) && (code c <=? 32)
   || (code c =? 133) || (code c =? 160))%N.

(** [[ \t]] *)
Definition blank (c : ascii) : bool :=
  bool_decide (c = " "%char) || bool_decide (c = "009"%char).

Definition is_digit : ascii → bool := in_range "0" "9".
Definition is_alpha (c : ascii) : bool := in_range "A" "Z" c || in_range "a" "z" c.
(** [[A-Za-z_]] *)
Definition ident_start (c : ascii) : bool := is_alpha c || one_of "_" c.
(** [[A-Za-z0-9_]] *)
Definition ident_char (c : ascii) : bool := is_alpha c || is_digit c || one_of "_" c.
(** [.] without re.DOTALL *)
Definition not_newline (c : ascii) : bool := negb (bool_decide (c = newline)).
(** [.] under re.DOTALL *)
Definition any_char (c : ascii) : bool := true.

Fixpoint rseq (rs : list regex) : regex :=
  match rs with
  | [] => RLit []
  | [r] => r
  | r :: rs' => RCat r (rseq rs')
  end.

(** *** The patterns of update_cards.py *)

(** re.compile(r"(?m)^[ \t]*//.*$") *)
Definition CommentPattern : regex :=
  rseq [RBol; RStar blank; RLit (L "//"); RStar not_newline; REol].

(** re.compile(r"([\{,\[]\s*)([A-Za-z_][A-Za-z0-9_]*)\s*:") *)
Definition KEY_PATTERN : regex :=
  rseq [RGroup (RCat (RSet (one_of "{,[")) (RStar is_space));
        RGroup (RCat (RSet ident_start) (RStar ident_char));
        RStar is_space; RLit (L ":")].

(** re.compile(r"abilityLabel\.([A-Za-z_]+)") *)
Definition AbilityRefPattern : regex :=
  RCat (RLit (L "abilityLabel.")) (RGroup (RPlus ident_start)).

(** re.compile(r"packLinkage\.([A-Za-z0-9_]+)") *)
Definition PackLinkagePattern : regex :=
  RCat (RLit (L "packLinkage.")) (RGroup (RPlus ident_char)).

(** r"const\s+pack\s*=\s*\[(.*?)\];" with re.DOTALL *)
Definition PackListPattern : regex :=
  rseq [RLit (L "const"); RPlus is_space; RLit (L "pack"); RStar is_space;
        RLit (L "="); RStar is_space; RLit (L "["); RGroup (RLazy any_char);
        RLit (L "];")].

(** r"export\s+const\s+abilityLabel\s*=\s*\{(.*?)\};" with re.DOTALL *)
Definition AbilityLabelPattern : regex :=
  rseq [RLit (L "export"); RPlus is_space; RLit (L "const"); RPlus is_space;
        RLit (L "abilityLabel"); RStar is_space; RLit (L "="); RStar is_space;
        RLit (L "{"); RGroup (RLazy any_char); RLit (L "};")].

(** r"const\s+packLinkage\s*=\s*\{(.*?)\}" with re.DOTALL *)
Definition PackLinkageBlockPattern : regex :=
  rseq [RLit (L "const"); RPlus is_space; RLit (L "packLinkage"); RStar is_space;
        RLit (L "="); RStar is_space; RLit (L "{"); RGroup (RLazy any_char);
        RLit (L "}")].

(** r"export\s+const\s+cardData\s*=\s*getCardDataList\s*\((\[.*\])\);"
    with re.DOTALL *)
Definition CardDataPattern : regex :=
  rseq [RLit (L "export"); RPlus is_space; RLit (L "const"); RPlus is_space;
        RLit (L "cardData"); RStar is_space; RLit (L "="); RStar is_space;
        RLit (L "getCardDataList"); RStar is_space; RLit (L "(");
        RGroup (rseq [RLit (L "["); RStar any_char; RLit (L "]")]);
        RLit (L ");")].

(** r"[\s,]+" *)
Definition tag_sep (c : ascii) : bool := is_space c || one_of "," c.
Definition TagSeparator : regex := RPlus tag_sep.

(** ** update_cards.py: the lexical normalizer *)

Definition _strip_line_comments (t : text) : text :=
  re_sub CommentPattern (λ _ _, []) t.

(** [f"{prefix}'{key}':"] *)
Definition quote_key (m : text) (groups : list text) : text :=
  match groups with
  | [prefix; key] => prefix ++ L "'" ++ key ++ L "':"
  | _ => m
  end.

Definition _quote_object_keys (t : text) : text :=
  re_sub KEY_PATTERN quote_key t.

(** ** [str.replace] *)

(** [s.replace(old, new)] for a non-empty [old]: the occurrences of [old]
    found scanning left to right, without overlap. *)
Fixpoint replace_go (fuel : nat) (old new s : text) : text :=
  match fuel with
  | O => s
  | S fuel' =>
      match strip_prefix_of old s with
      | Some rest => new ++ replace_go fuel' old new rest
      | None =>
          match s with
          | [] => []
          | c :: s' => c :: replace_go fuel' old new s'
          end
      end
  end.

Definition replace (old new s : text) : text :=
  match old with
  | [] => new ++ concat (map (λ c, c :: new) s)
  | _ => replace_go (S (length s)) old new s
  end.

(** ** [ast.literal_eval] on the JSON-like fragment

    The library function is modelled on the fragment the catalog uses:
    [None], [True], [False], decimal integers with an optional sign, string
    literals in single or double quotes with the escapes backslash, quote,
    [n], [r] and [t], lists and dicts with string keys (a trailing comma
    allowed).  Everything else (floats, tuples, sets, comments, other
    escapes, other key types) is rejected by the model. *)

Inductive token :=
| TLBrack | TRBrack | TLBrace | TRBrace | TComma | TColon | TMinus
| TStr (s : text)
| TInt (z : Z)
| TName (s : text).

(** The body of a string literal opened by the quote [q]: its value and the
    text after the closing quote. *)
Fixpoint lex_string (q : ascii) (s : text) : option (text * text) :=
  match s with
  | [] => None
  | c :: s' =>
      if decide (c = q) then Some ([], s')
      else if decide (c = newline) then None
      else if decide (c = "\"%char) then
        match s' with
        | e :: s'' =>
            match (if decide (e = "n"%char) then Some newline
                   else if decide (e = "r"%char) then Some "013"%char
                   else if decide (e = "t"%char) then Some "009"%char
                   else if decide (e = "\"%char) then Some e
                   else if decide (e = "'"%char) then Some e
                   else if decide (e = dquote) then Some e
                   else None) with
            | Some x =>
                match lex_string q s'' with
                | Some (body, rest) => Some (x :: body, rest)
                | None => None
                end
            | None => None
            end
        | [] => None
        end
      else
        match lex_string q s' with
        | Some (body, rest) => Some (c :: body, rest)
        | None => None
        end
  end.

Definition digit_value (c : ascii) : Z := Z.of_N (code c) - 48.

(** The number written by a run of decimal digits. *)
Definition digits_value (ds : text) : Z :=
  fold_left (λ acc c, 10 * acc + digit_value c) ds 0.

Fixpoint lex_go (fuel : nat) (s : text) : option (list token) :=
  match fuel with
  | O => None
  | S fuel' =>
      match s with
      | [] => Some []
      | c :: s' =>
          let punct (t : token) := cons t <$> lex_go fuel' s' in
          if is_space c then lex_go fuel' s'
          else if decide (c = "["%char) then punct TLBrack
          else if decide (c = "]"%char) then punct TRBrack
          else if decide (c = "{"%char) then punct TLBrace
          else if decide (c = "}"%char) then punct TRBrace
          else if decide (c = ","%char) then punct TComma
          else if decide (c = ":"%char) then punct TColon
          else if decide (c = "-"%char) then punct TMinus
          else if bool_decide (c = "'"%char) || bool_decide (c = dquote) then
            match lex_string c s' with
            | Some (body, rest) => cons (TStr body) <$> lex_go fuel' rest
            | None => None
            end
          else if is_digit c then
            let '(ds, rest) := span ident_char s in
            if forallb is_digit ds
               && (bool_decide (c ≠ "0"%char) || bool_decide (ds = [c]))
            then cons (TInt (digits_value ds)) <$> lex_go fuel' rest
            else None
          else if ident_start c then
            let '(name, rest) := span ident_char s in
            cons (TName name) <$> lex_go fuel' rest
          else None
      end
  end.

Definition lex (s : text) : option (list token) := lex_go (S (length s)) s.

Definition keyword (name : text) : result pyval :=
  if decide (name = L "None") then Ok PNone
  else if decide (name = L "True") then Ok (PBool true)
  else if decide (name = L "False") then Ok (PBool false)
  else Raise ValueError.

Fixpoint parse_value (fuel : nat) (ts : list token) : result (pyval * list token) :=
  match fuel with
  | O => Raise SyntaxError
  | S fuel' =>
      match ts with
      | TStr s :: rest => Ok (PStr s, rest)
      | TInt z :: rest => Ok (PInt z, rest)
      | TMinus :: TInt z :: rest => Ok (PInt (- z), rest)
      | TName n :: rest => v ← keyword n; Ok (v, rest)
      | TLBrack :: rest =>
          '(l, rest') ← parse_list fuel' rest; Ok (PList l, rest')
      | TLBrace :: rest =>
          '(d, rest') ← parse_dict fuel' [] rest; Ok (PDict d, rest')
      | _ => Raise SyntaxError
      end
  end
with parse_list (fuel : nat) (ts : list token) : result (list pyval * list token) :=
  match fuel with
  | O => Raise SyntaxError
  | S fuel' =>
      match ts with
      | TRBrack :: rest => Ok ([], rest)
      | _ =>
          '(v, rest) ← parse_value fuel' ts;
          match rest with
          | TComma :: rest' =>
              '(l, rest'') ← parse_list fuel' rest'; Ok (v :: l, rest'')
          | TRBrack :: rest' => Ok ([v], rest')
          | _ => Raise SyntaxError
          end
      end
  end
with parse_dict (fuel : nat) (d : list (text * pyval)) (ts : list token)
  : result (list (text * pyval) * list token) :=
  match fuel with
  | O => Raise SyntaxError
  | S fuel' =>
      match ts with
      | TRBrace :: rest => Ok (d, rest)
      | TStr k :: TColon :: rest =>
          '(v, rest') ← parse_value fuel' rest;
          match rest' with
          | TComma :: rest'' => parse_dict fuel' (dict_set d k v) rest''
          | TRBrace :: rest'' => Ok (dict_set d k v, rest'')
          | _ => Raise SyntaxError
          end
      | _ => Raise SyntaxError
      end
  end.

Definition ast_literal_eval (s : text) : result pyval :=
  match lex s with
  | None => Raise SyntaxError
  | Some ts =>
      '(v, rest) ← parse_value (S (length ts)) ts;
      match rest with
      | [] => Ok v
      | _ => Raise SyntaxError
      end
  end.

(** ** update_cards.py: [_literal_eval] *)

Definition _literal_eval (t : text) : result pyval :=
  let t := replace (L "null") (L "None")
             (replace (L "false") (L "False")
                (replace (L "true") (L "True") t)) in
  ast_literal_eval t.

(** ** update_cards.py: the catalog extractor *)

(** [list(v)] *)
Definition py_list (v : pyval) : result (list pyval) :=
  match v with
  | PList l => Ok l
  | PStr s => Ok (map (λ c, PStr [c]) s)
  | PDict d => Ok (map (λ kv, PStr kv.1) d)
  | _ => Raise TypeError
  end.

(** [dict(v)]: a dict, or a sequence of key/value pairs. *)
Fixpoint dict_of_pairs (d : record) (l : list pyval) : result record :=
  match l with
  | [] => Ok d
  | PList [PStr k; v] :: l' => dict_of_pairs (dict_set d k v) l'
  | PList [_; _] :: _ => Raise TypeError
  | PList _ :: _ => Raise ValueError
  | _ => Raise TypeError
  end.

Definition py_dict (v : pyval) : result record :=
  match v with
  | PDict d => Ok d
  | PList l => dict_of_pairs [] l
  | _ => Raise TypeError
  end.

Definition group1 (found : text * text * text * list text) : text :=
  default [] (head found.2).

Definition _parse_pack_list (js_text : text) : result (list pyval) :=
  match re_search PackListPattern js_text with
  | None => Raise (RuntimeError (L "Unable to locate pack list in source script."))
  | Some found =>
      let block := L "[" ++ group1 found ++ L "]" in
      v ← _literal_eval (_strip_line_comments block);
      py_list v
  end.

Definition _parse_ability_labels (js_text : text) : result record :=
  match re_search AbilityLabelPattern js_text with
  | None =>
      Raise (RuntimeError (L "Unable to locate ability labels in source script."))
  | Some found =>
      let block := L "{" ++ group1 found ++ L "}" in
      let cleaned := _strip_line_comments block in
      let quoted := _quote_object_keys cleaned in
      v ← _literal_eval quoted;
      py_dict v
  end.

Definition _parse_pack_linkage (js_text : text) : result record :=
  match re_search PackLinkageBlockPattern js_text with
  | None => Ok []
  | Some found =>
      let block := L "{" ++ group1 found ++ L "}" in
      let cleaned := _strip_line_comments block in
      let quoted := _quote_object_keys cleaned in
      v ← _literal_eval quoted;
      py_dict v
  end.

(** ** update_cards.py: the card normalizer *)

Definition _normalize_tags (raw : pyval) : result (list text) :=
  if negb (truthy raw) then Ok []
  else match raw with
       | PStr s => Ok (filter (λ part, part ≠ []) (re_split TagSeparator s))
       | _ => Raise TypeError
       end.

(** *** Number formatting *)

Definition digit_char (d : Z) : ascii := ascii_of_N (Z.to_N (48 + d)).

(** The decimal digits of [n >= 0], most significant first ([str(n)]). *)
Fixpoint dec_digits (fuel : nat) (n : Z) (acc : text) : text :=
  let acc' := digit_char (n mod 10) :: acc in
  match fuel with
  | O => acc'
  | S fuel' => if n <? 10 then acc' else dec_digits fuel' (n / 10) acc'
  end.

Definition str_nat (n : Z) : text := dec_digits (Z.to_nat (Z.log2 n)) n [].

(** [format(n, "0{width}d")]: sign-aware zero padding to a minimum width. *)
Definition zfill (width : nat) (ds : text) : text :=
  replicate (width - length ds) "0"%char ++ ds.

Definition format_0d (width : nat) (n : Z) : text :=
  if n <? 0 then "-"%char :: zfill (width - 1) (str_nat (- n))
  else zfill width (str_nat n).

(** [str(n)] for an int *)
Definition str_int (z : Z) : text :=
  if z <? 0 then "-"%char :: str_nat (- z) else str_nat z.

Definition hex_digit (n : N) : ascii :=
  ascii_of_N (if (n <? 10)%N then 48 + n else 87 + n)%N.

(** [str.isprintable] of one code point below 256 *)
Definition printable (c : ascii) : bool :=
  ((32 <=? code c) && (code c <? 127)
   || (161 <=? code c) && negb (code c =? 173))%N.

Definition repr_char (q c : ascii) : text :=
  if bool_decide (c = q) || bool_decide (c = "\"%char) then ["\"%char; c]
  else if bool_decide (c = "009"%char) then L "\t"
  else if bool_decide (c = newline) then L "\n"
  else if bool_decide (c = "013"%char) then L "\r"
  else if printable c then [c]
  else L "\x" ++ [hex_digit (code c / 16); hex_digit (code c mod 16)].

(** [repr(s)] for a str: double quotes only when [s] has a single quote
    and no double quote. *)
Definition repr_str (s : text) : text :=
  let q := if bool_decide ("'"%char ∈ s) && negb (bool_decide (dquote ∈ s))
           then dquote else "'"%char in
  q :: concat (map (repr_char q) s) ++ [q].

(** [sep.join(parts)] *)
Fixpoint join {A} (sep : list A) (parts : list (list A)) : list A :=
  match parts with
  | [] => []
  | [x] => x
  | x :: rest => x ++ sep ++ join sep rest
  end.

Fixpoint py_repr (v : pyval) : text :=
  match v with
  | PNone => L "None"
  | PBool true => L "True"
  | PBool false => L "False"
  | PInt z => str_int z
  | PStr s => repr_str s
  | PList l => L "[" ++ join (L ", ") (map py_repr l) ++ L "]"
  | PDict d =>
      L "{" ++
      join (L ", ")
        ((fix items (d : list (text * pyval)) :=
            match d with
            | [] => []
            | (k, x) :: d' => (repr_str k ++ L ": " ++ py_repr x) :: items d'
            end) d) ++
      L "}"
  end.

(** [str(v)], as an f-string formats a value *)
Definition py_str (v : pyval) : text :=
  match v with
  | PStr s => s
  | _ => py_repr v
  end.

(** [v + 1] formatted with [d]: ints and bools only. *)
Definition py_succ (v : pyval) : result Z :=
  match v with
  | PInt z => Ok (z + 1)
  | PBool b => Ok ((if b then 1 else 0) + 1)
  | _ => Raise TypeError
  end.

(** [f"sample{(id or 0) + 1:04d}.png"] *)
Definition image_name (id : pyval) : result text :=
  index ← py_succ (py_or id (PInt 0));
  Ok (L "sample" ++ format_0d 4 index ++ L ".png").

(** The normalized card ([normalized] in the source): a dict with a fixed
    set of keys, here a record; [refer_id] is the one optional key. *)
Record Card := {
  c_id : pyval;
  c_type : pyval;
  c_name : pyval;
  c_cost : pyval;
  c_power : pyval;
  c_rate : pyval;
  c_packs : pyval;
  c_text : text;
  c_qa : pyval;
  c_illustrator : pyval;
  c_source : pyval;
  c_source_name : pyval;
  c_kirakira : bool;
  c_image : text;
  c_tags : list text;
  c_refer_id : option pyval;
  c_abilities : list (pyval * pyval)   (* code, label *)
}.

(** [(card.get("text") or "").replace("\r\n", "\n").replace("\r", "\n")] *)
Definition normalize_text (raw : pyval) : result text :=
  match py_or raw (PStr []) with
  | PStr s =>
      Ok (replace ["013"%char] [newline]
            (replace ["013"%char; newline] [newline] s))
  | _ => Raise AttributeError
  end.

(** [ability_labels.get(code, code)] *)
Definition label_of (ability_labels : record) (code : pyval) : result pyval :=
  match code with
  | PStr s => Ok (dict_get_default ability_labels s code)
  | PList _ | PDict _ => Raise TypeError
  | _ => Ok code
  end.

Fixpoint label_all (ability_labels : record) (codes : list pyval)
  : result (list (pyval * pyval)) :=
  match codes with
  | [] => Ok []
  | code :: codes' =>
      label ← label_of ability_labels code;
      rest ← label_all ability_labels codes';
      Ok ((code, label) :: rest)
  end.

Definition _normalize_card (card : record) (ability_labels : record)
  : result Card :=
  let get k := dict_get_default card (L k) PNone in
  text ← normalize_text (get "text");
  image ← image_name (get "id");
  tags ← _normalize_tags (get "tag");
  ability_codes ←
    (let a := py_or (dict_get_default card (L "ability") (PList [])) (PList []) in
     py_list a);
  abilities ← label_all ability_labels ability_codes;
  Ok {| c_id := get "id";
        c_type := get "type";
        c_name := get "nm";
        c_cost := get "cost";
        c_power := get "power";
        c_rate := get "rate";
        c_packs := dict_get_default card (L "pack") (PList []);
        c_text := text;
        c_qa := deepcopy (dict_get_default card (L "qa") (PList []));
        c_illustrator := get "illust";
        c_source := get "src";
        c_source_name := get "srcName";
        c_kirakira := truthy (get "kirakira");
        c_image := image;
        c_tags := tags;
        c_refer_id := dict_get card (L "refer_id");
        c_abilities := abilities |}.

(** [raw_cards: List[Dict]]: every element is used as a dict (the source
    fails on an element that is none when it builds [by_id]). *)
Fixpoint as_records (l : list pyval) : result (list record) :=
  match l with
  | [] => Ok []
  | PDict d :: l' => rest ← as_records l'; Ok (d :: rest)
  | _ => Raise TypeError
  end.

Fixpoint normalize_all (cards : list record) (ability_labels : record)
  : result (list Card) :=
  match cards with
  | [] => Ok []
  | card :: cards' =>
      c ← _normalize_card card ability_labels;
      rest ← normalize_all cards' ability_labels;
      Ok (c :: rest)
  end.

(** The replacement of [AbilityRefPattern]: [f"'{m.group(1)}'"] *)
Definition quote_group (m : text) (groups : list text) : text :=
  L "'" ++ default [] (head groups) ++ L "'".

(** The replacement of [PackLinkagePattern]:
    [f"'{pack_linkage.get(m.group(1), m.group(1))}'"] *)
Definition linkage_repl (pack_linkage : record) (m : text) (groups : list text)
  : text :=
  let ident := default [] (head groups) in
  L "'" ++ py_str (dict_get_default pack_linkage ident (PStr ident)) ++ L "'".

(** The text transforms of [_parse_card_list] between the extraction of the
    block and key quoting. *)
Definition substitute_pack_linkage (pack_linkage : record) (cleaned : text) : text :=
  match pack_linkage with
  | [] => cleaned
  | _ => re_sub PackLinkagePattern (linkage_repl pack_linkage) cleaned
  end.

Definition _parse_card_list (js_text : text) (ability_labels pack_linkage : record)
  : result (list Card) :=
  match re_search CardDataPattern js_text with
  | None => Raise (RuntimeError (L "Unable to locate card data in source script."))
  | Some found =>
      let block := group1 found in
      let cleaned := _strip_line_comments block in
      let cleaned := re_sub AbilityRefPattern quote_group cleaned in
      let cleaned := substitute_pack_linkage pack_linkage cleaned in
      let quoted := _quote_object_keys cleaned in
      v ← _literal_eval quoted;
      items ← py_list v;
      raw_cards ← as_records items;
      raw_cards ← _resolve_references raw_cards;
      normalize_all raw_cards ability_labels
  end.

(** ** The outside world: network and file system

    The network is an oracle: the answer to a request depends on the URL and
    on how many requests were made before it.  The file system maps paths
    to contents; calls on the data directory itself do not fail.  Every
    request and every write is recorded in a trace, oldest first. *)

Inductive response :=
| Body (bytes : text)                       (* response.read() *)
| HTTPError (status : Z) (message : text)   (* urllib.error.HTTPError *)
| Failure (message : text).                 (* any other exception *)

Record metadata := {
  card_count : nat;
  downloaded_images : nat;
  fetched_at : text;
  md_source : text
}.

Record payload := {
  pl_metadata : metadata;
  pl_packs : list pyval;
  pl_ability_labels : record;
  pl_cards : list Card
}.

Inductive content :=
| Bytes (b : text)
| Json (p : payload).   (* json.dumps(payload, ...) *)

Inductive event :=
| EMkdir (path : text)
| EGet (url : text) (answer : response)
| EWrite (path : text) (c : content).

Record world := {
  net : nat → text → response;
  clock : text;                      (* datetime.now(...).isoformat(...) *)
  files : gmap text content;
  trace : list event
}.

Definition is_get (e : event) : bool :=
  match e with EGet _ _ => true | _ => false end.

(** A computation that may raise and acts on the world. *)
Definition io (A : Type) : Type := world → result A * world.

Global Instance io_bind : MBind io := λ A B f m w,
  match m w with
  | (Ok a, w') => f a w'
  | (Raise e, w') => (Raise e, w')
  end.

Global Instance io_ret : MRet io := λ A a w, (Ok a, w).

Definition lift {A} (r : result A) : io A := λ w, (r, w).

Definition log (e : event) (w : world) : world :=
  {| net := net w; clock := clock w; files := files w; trace := trace w ++ [e] |}.

(** One GET request; its answer, as a value. *)
Definition request (url : text) : io response := λ w,
  let answer := net w (length (filter is_get (trace w))) url in
  (Ok answer, log (EGet url answer) w).

(** [_http_get]: the body, or the exception raised. *)
Definition _http_get (url : text) : io text :=
  answer ← request url;
  match answer with
  | Body b => mret b
  | HTTPError status message => lift (Raise (NetworkError message))
  | Failure message => lift (Raise (NetworkError message))
  end.

Definition mkdir (path : text) : io unit := λ w, (Ok (), log (EMkdir path) w).

Definition exists_ (path : text) : io bool := λ w,
  (Ok (bool_decide (is_Some (files w !! path))), w).

Definition write (path : text) (c : content) : io unit := λ w,
  (Ok (),
   {| net := net w; clock := clock w;
      files := <[path := c]> (files w);
      trace := trace w ++ [EWrite path c] |}).

Definition now : io text := λ w, (Ok (clock w), w).

(** *** Constants of update_cards.py *)

Definition BASE_URL : text := L "https://sitappa.com/hakurei_ss/".
Definition MASTER_JS_PATH : text := L "kamiCardMasterData.js".
(** [IMAGE_TEMPLATE.format(index=index)] *)
Definition IMAGE_TEMPLATE (index : Z) : text :=
  L "cardListImageMin/sample" ++ format_0d 4 index ++ L ".png".
Definition PLACEHOLDER_IMAGE : text := L "cardListImageMin/ph.png".
Definition DATA_DIR : text := L "data".
Definition IMAGES_DIR : text := DATA_DIR ++ L "/images".
Definition CARDS_JSON : text := DATA_DIR ++ L "/cards.json".

(** ** update_cards.py: [_download_images] *)

(** The local variables of the loop. *)
Record dl_state := {
  downloaded : nat;
  errors : list text;
  placeholder_bytes : option text
}.

Definition add_error (st : dl_state) (msg : text) : dl_state :=
  {| downloaded := downloaded st; errors := errors st ++ [msg];
     placeholder_bytes := placeholder_bytes st |}.

Definition response_str (r : response) : text :=
  match r with
  | Body _ => []
  | HTTPError _ message => message
  | Failure message => message
  end.

(** [target.write_bytes(data); downloaded += 1] *)
Definition store_image (st : dl_state) (target data : text) : io dl_state :=
  write target (Bytes data);;
  mret {| downloaded := S (downloaded st); errors := errors st;
          placeholder_bytes := placeholder_bytes st |}.

(** One turn of the loop [for card in cards]. *)
Definition download_one (force : bool) (st : dl_state) (card : Card) : io dl_state :=
  index ← lift (py_succ (py_or (c_id card) (PInt 0)));
  let filename := c_image card in
  let target := IMAGES_DIR ++ L "/" ++ filename in
  present ← exists_ target;
  if present && negb force then mret st
  else
    let url := BASE_URL ++ IMAGE_TEMPLATE index in
    answer ← request url;
    match answer with
    | Body data => store_image st target data
    | HTTPError status message =>
        if decide (status = 404) then
          match placeholder_bytes st with
          | Some data => store_image st target data
          | None =>
              answer' ← request (BASE_URL ++ PLACEHOLDER_IMAGE);
              match answer' with
              | Body data =>
                  store_image
                    {| downloaded := downloaded st; errors := errors st;
                       placeholder_bytes := Some data |} target data
              | placeholder_error =>
                  mret (add_error st
                          (L "placeholder download failed: " ++
                           response_str placeholder_error))
              end
          end
        else mret (add_error st (filename ++ L ": HTTP " ++ str_int status))
    | Failure message => mret (add_error st (filename ++ L ": " ++ message))
    end.

Fixpoint download_loop (force : bool) (st : dl_state) (cards : list Card)
  : io dl_state :=
  match cards with
  | [] => mret st
  | card :: cards' =>
      st' ← download_one force st card;
      download_loop force st' cards'
  end.

Definition _download_images (cards : list Card) (force : bool)
  : io (nat * list text) :=
  mkdir IMAGES_DIR;;
  st ← download_loop force
         {| downloaded := 0; errors := []; placeholder_bytes := None |} cards;
  mret (downloaded st, errors st).

(** ** update_cards.py: [update_data] *)

Definition _build_metadata (count downloaded : nat) : io metadata :=
  stamp ← now;
  mret {| card_count := count; downloaded_images := downloaded;
          fetched_at := stamp; md_source := BASE_URL ++ MASTER_JS_PATH |}.

Definition _build_payload (cards : list Card) (packs : list pyval)
    (ability_labels : record) (md : metadata) : payload :=
  {| pl_metadata := md; pl_packs := packs;
     pl_ability_labels := ability_labels; pl_cards := cards |}.

(** [bytes.decode("utf-8")] on the byte sequences that decode to code points
    below 256; any other sequence is outside the model and rejected. *)
Fixpoint decode_utf8 (b : text) : result text :=
  match b with
  | [] => Ok []
  | c :: b' =>
      if (code c <? 128)%N then rest ← decode_utf8 b'; Ok (c :: rest)
      else if ((code c =? 194) || (code c =? 195))%N then
        match b' with
        | d :: b'' =>
            if ((128 <=? code d) && (code d <? 192))%N then
              rest ← decode_utf8 b'';
              Ok (ascii_of_N ((code c - 192) * 64 + (code d - 128)) :: rest)
            else Raise ValueError
        | [] => Raise ValueError
        end
      else Raise ValueError
  end.

(** The dict [update_data] returns. *)
Record summary := {
  cards_path : text;
  image_dir : text;
  sm_downloaded_images : nat;
  sm_errors : list text
}.

Definition update_data (skip_images force_images : bool) : io summary :=
  mkdir DATA_DIR;;
  raw ← _http_get (BASE_URL ++ MASTER_JS_PATH);
  raw_js ← lift (decode_utf8 raw);
  packs ← lift (_parse_pack_list raw_js);
  ability_labels ← lift (_parse_ability_labels raw_js);
  pack_linkage ← lift (_parse_pack_linkage raw_js);
  cards ← lift (_parse_card_list raw_js ability_labels pack_linkage);
  '(downloaded, errors) ←
    (if negb skip_images then _download_images cards force_images
     else mret (0%nat, []));
  md ← _build_metadata (length cards) downloaded;
  let payload := _build_payload cards packs ability_labels md in
  write CARDS_JSON (Json payload);;
  mret {| cards_path := CARDS_JSON; image_dir := IMAGES_DIR;
          sm_downloaded_images := downloaded; sm_errors := errors |}.

(** ** deckmaker.py *)

Definition EXPECTED_CARD_COUNT : nat := 9.
Definition TYPE_CHARACTER : Z := 0.

(** [abort(message)]: prints the message and raises [SystemExit(1)]. *)
Definition abort {A} (message : text) : result A := Raise (SystemExit message).

(** *** [str.splitlines], [str.strip], [int] *)

(** The line boundaries below code point 256: [\n], [\r], [\v], [\f],
    [\x1c], [\x1d], [\x1e] and [\x85]; [\r\n] counts as one. *)
Definition line_break (c : ascii) : bool :=
  ((10 <=? code c) && (code c <=? 13) || (28 <=? code c) && (code c <=? 30)
   || (code c =? 133))%N.

Fixpoint splitlines_go (line s : text) : list text :=
  match s with
  | [] => match line with [] => [] | _ => [line] end
  | c :: s' =>
      if line_break c then
        line ::
        match s' with
        | d :: s'' =>
            if bool_decide (c = "013"%char) && bool_decide (d = newline)
            then splitlines_go [] s''
            else splitlines_go [] s'
        | [] => []
        end
      else splitlines_go (line ++ [c]) s'
  end.

Definition splitlines (s : text) : list text := splitlines_go [] s.

Fixpoint lstrip (s : text) : text :=
  match s with
  | c :: s' => if is_space c then lstrip s' else s
  | [] => []
  end.

Definition strip (s : text) : text := reverse (lstrip (reverse (lstrip s))).

(** [s.split(sep)] for a one-character separator *)
Fixpoint split_on (sep : ascii) (piece s : text) : list text :=
  match s with
  | [] => [piece]
  | c :: s' =>
      if decide (c = sep) then piece :: split_on sep [] s'
      else split_on sep (piece ++ [c]) s'
  end.

(** [int(s)] for a str: optional white space around, an optional sign, then
    decimal digits in groups separated by single underscores. *)
Definition py_int (s : text) : result Z :=
  let s := strip s in
  let '(negative, body) :=
    match s with
    | c :: rest =>
        if decide (c = "-"%char) then (true, rest)
        else if decide (c = "+"%char) then (false, rest)
        else (false, s)
    | [] => (false, s)
    end in
  let groups := split_on "_" [] body in
  if forallb (λ g, negb (bool_decide (g = [])) && forallb is_digit g) groups
  then let n := digits_value (concat groups) in Ok (if negative then - n else n)
  else Raise ValueError.

(** *** [read_deck_ids]; the argument is the text of the deck file, if the
    file exists. *)

Fixpoint parse_ids (lines : list text) : result (list Z) :=
  match lines with
  | [] => Ok []
  | line :: lines' =>
      n ← py_int line;
      rest ← parse_ids lines';
      Ok (n :: rest)
  end.

Definition read_deck_ids (deck_file : option text) : result (list Z) :=
  match deck_file with
  | None => abort (L "Deck list not found: deck.txt")
  | Some content =>
      let raw_lines := map strip (splitlines content) in
      let deck_ids := filter (λ line, line ≠ []) raw_lines in
      if decide (length deck_ids ≠ EXPECTED_CARD_COUNT) then
        abort (L "deck.txt must contain exactly 9 card ids")
      else
        match parse_ids deck_ids with
        | Ok ids => Ok ids
        | Raise ValueError => abort (L "deck.txt contains a non-numeric id")
        | Raise e => Raise e
        end
  end.

(** *** [load_cards]; the argument is the parsed JSON document, if the
    catalog file exists. *)

Fixpoint is_infix (needle s : text) : bool :=
  match strip_prefix_of needle s with
  | Some _ => true
  | None => match s with [] => false | _ :: s' => is_infix needle s' end
  end.

(** [int(v)] *)
Definition int_of (v : pyval) : result Z :=
  match v with
  | PInt z => Ok z
  | PBool b => Ok (if b then 1 else 0)
  | PStr s => py_int s
  | _ => Raise TypeError
  end.

(** [{int(card["id"]): card for card in cards if "id" in card}] *)
Fixpoint card_map_of (cards : list pyval) (m : gmap Z record)
  : result (gmap Z record) :=
  match cards with
  | [] => Ok m
  | PDict card :: cards' =>
      match dict_get card (L "id") with
      | Some v => k ← int_of v; card_map_of cards' (<[k := card]> m)
      | None => card_map_of cards' m
      end
  | PList l :: cards' =>
      if existsb (λ x, match x with
                       | PStr s => bool_decide (s = L "id")
                       | _ => false
                       end) l
      then Raise TypeError else card_map_of cards' m
  | PStr s :: cards' =>
      if is_infix (L "id") s then Raise TypeError else card_map_of cards' m
  | _ => Raise TypeError
  end.

Definition load_cards (catalog : option pyval) : result (gmap Z record) :=
  match catalog with
  | None => abort (L "cards.json not found. Run update_cards.py first.")
  | Some (PDict data) =>
      cards ← py_list (dict_get_default data (L "cards") (PList []));
      card_map_of cards ∅
  | Some _ => Raise AttributeError
  end.

(** *** [validate_ids] *)

(** [v != TYPE_CHARACTER] *)
Definition differs_from_int (v : pyval) (n : Z) : bool :=
  match v with
  | PInt z => negb (z =? n)
  | PBool b => negb ((if b then 1 else 0) =? n)
  | _ => true
  end.

Fixpoint validate_ids (deck_ids : list Z) (card_map : gmap Z record)
  : result (list record) :=
  match deck_ids with
  | [] => Ok []
  | card_id :: deck_ids' =>
      match card_map !! card_id with
      | None => abort (L "Card id was not found in cards.json.")
      | Some card =>
          if differs_from_int (dict_get_default card (L "type") PNone)
               TYPE_CHARACTER
          then abort (L "Card id is not a character card and cannot be used in the deck.")
          else
            cards ← validate_ids deck_ids' card_map;
            Ok (card :: cards)
      end
  end.

(** The input validation of [main]. *)
Definition main_validation (deck_file : option text) (catalog : option pyval)
  : result (list record) :=
  deck_ids ← read_deck_ids deck_file;
  card_map ← load_cards catalog;
  validate_ids deck_ids card_map.

(** *** [compose_grid]

    Pillow images are kept symbolically: where an image comes from and its
    size; a canvas is its size and the [paste] calls made on it, in order. *)

Inductive image :=
| Opened (name : text) (width height : Z)     (* Image.open(path).convert("RGBA") *)
| Resized (src : image) (width height : Z).   (* src.resize((w, h), LANCZOS) *)

(** [image.size] *)
Definition size (im : image) : Z * Z :=
  match im with
  | Opened _ w h => (w, h)
  | Resized _ w h => (w, h)
  end.

Record canvas := {
  cv_size : Z * Z;                         (* Image.new("RGBA", size) *)
  pastes : list (image * (Z * Z))          (* canvas.paste(image, offset) *)
}.

Fixpoint paste_all (base_width base_height : Z) (index : nat)
    (images : list image) (cv : canvas) : canvas :=
  match images with
  | [] => cv
  | image :: images' =>
      let image :=
        if decide (size image ≠ (base_width, base_height))
        then Resized image base_width base_height else image in
      let '(row, col) := (index / 3, index mod 3)%nat in
      let offset := (Z.of_nat col * base_width, Z.of_nat row * base_height) in
      paste_all base_width base_height (S index) images'
        {| cv_size := cv_size cv; pastes := pastes cv ++ [(image, offset)] |}
  end.

Definition compose_grid (images : list image) : result canvas :=
  match images with
  | [] => Raise IndexError
  | first :: _ =>
      let '(base_width, base_height) := size first in
      Ok (paste_all base_width base_height 0 images
            {| cv_size := (base_width * 3, base_height * 3); pastes := [] |})
  end.

(** ** Reference functions for the properties of the normalizer *)

Definition carriage_return : ascii := "013"%char.

(** Every CR LF pair and every other CR becomes one LF. *)
Fixpoint unix_newlines (s : text) : text :=
  match s with
  | [] => []
  | c :: s' =>
      if decide (c = carriage_return) then
        newline ::
        match s' with
        | d :: s'' => if decide (d = newline) then unix_newlines s''
                      else unix_newlines s'
        | [] => []
        end
      else c :: unix_newlines s'
  end.

(** ** Notions the properties are stated with *)

(** What the referring record holds for one field after inheriting. *)
Definition backfill (own base : option pyval) : option pyval :=
  match base, own with
  | None, _ => own
  | Some v, None => Some v
  | Some v, Some o => if is_blank o then Some v else Some o
  end.

(** [j] is the position of the last record of the batch whose id is [k]:
    the object [by_id] maps [k] to. *)
Definition last_with_id (cards : list record) (k : hkey) (j : nat) : Prop :=
  (∃ c, cards !! j = Some c ∧ id_key c = Some k) ∧
  ∀ j' c', (j < j')%nat → cards !! j' = Some c' → id_key c' ≠ Some k.

(** The effect of one turn of the outer loop on the record at position
    [idx]: [before] is the batch at the start of the loop (records not yet
    visited), [after] the batch at its end (records already visited). *)
Definition resolved (by_id : gmap hkey nat) (before after : list record)
    (idx : nat) (card card' : record) : Prop :=
  (dict_get_default card (L "refer_id") PNone = PNone ∧ card' = card) ∨
  ∃ r k j base,
    dict_get_default card (L "refer_id") PNone = r ∧ r ≠ PNone ∧
    to_key r = Some k ∧ by_id !! k = Some j ∧
    (if decide (j < idx)%nat then after else before) !! j = Some base ∧
    card' = inherit base card.

(** The batch of the spec's scenario: a base card, a card that inherits its
    text, and a card that keeps its own text. *)
Definition example_batch : list record :=
  [ [(L "id", PInt 1); (L "text", PStr (L "Base text")); (L "pack", PList [PInt 0])];
    [(L "id", PInt 2); (L "refer_id", PInt 1); (L "text", PStr [])];
    [(L "id", PInt 3); (L "refer_id", PInt 1); (L "text", PStr (L "Own text"))] ].

(** What the loop pastes for the image at position [index]. *)
Definition placed (base_width base_height : Z) (index : nat) (im : image)
  : image * (Z * Z) :=
  (if decide (size im ≠ (base_width, base_height))
   then Resized im base_width base_height else im,
   (Z.of_nat (index mod 3) * base_width, Z.of_nat (index / 3) * base_height)).

(** The lines of the deck file that are left after dropping blank lines. *)
Definition nonblank_lines (content : text) : list text :=
  filter (λ line, line ≠ []) (map strip (splitlines content)).

(** [card.get("type") == TYPE_CHARACTER] (Python's [==]: [False == 0]). *)
Definition is_character (card : record) : Prop :=
  dict_get card (L "type") = Some (PInt 0) ∨
  dict_get card (L "type") = Some (PBool false).

Definition lines_of (ids : list string) : text :=
  concat (map (λ id, L id ++ [newline]) ids).

(** Reading a formatted number back. *)
Definition unformat (t : text) : Z :=
  match t with
  | c :: ds => if decide (c = "-"%char) then - digits_value ds else digits_value t
  | [] => 0
  end.

Definition PLACEHOLDER_URL : text := BASE_URL ++ PLACEHOLDER_IMAGE.

(** A request for the placeholder image, and a successful one. *)
Definition ph_get (e : event) : bool :=
  match e with
  | EGet url _ => bool_decide (url = PLACEHOLDER_URL)
  | _ => false
  end.

Definition ph_hit (e : event) : bool :=
  match e with
  | EGet url (Body _) => bool_decide (url = PLACEHOLDER_URL)
  | _ => false
  end.

(** The path a card's image is written to. *)
Definition target_of (card : Card) : text := IMAGES_DIR ++ L "/" ++ c_image card.

(** Reduce the binds and the record projections of a run in hypothesis [H]. *)
Ltac io_step H :=
  cbv beta iota zeta in H; cbn [net clock files trace] in H.

(** Name the events a run added to the trace. *)
Ltac io_events :=
  cbn [net clock files trace]; rewrite <- ?app_assoc;
  split_and!; [done|done|];
  eexists; split; [cbn [app]; done|]; split; [repeat constructor|];
  split; [done|].

(** In a list of placeholder requests, a successful one is the last. *)
Definition hit_is_last (gets : list event) : Prop :=
  ∀ i e, gets !! i = Some e → ph_hit e = true → S i = length gets.

(** The cache is empty only while no placeholder request has succeeded. *)
Definition cache_inv (cache : option text) (gets : list event) : Prop :=
  hit_is_last gets ∧ (cache = None → Forall (λ e, ph_hit e = false) gets).

(** The number of the next request. *)
Definition requests_made (w : world) : nat := length (filter is_get (trace w)).

(** A network where no card has an image and the placeholder cannot be
    fetched either, over an empty data directory. *)
Definition dead_placeholder_world : world :=
  {| net := λ _ url, if bool_decide (url = PLACEHOLDER_URL)
                     then Failure (L "timed out")
                     else HTTPError 404 (L "HTTP Error 404: Not Found");
     clock := L "2026-01-01T00:00:00+00:00";
     files := ∅;
     trace := [] |}.

Definition card_with_id (z : Z) : Card :=
  match _normalize_card [(L "id", PInt z)] [] with
  | Ok c => c
  | Raise _ =>
      {| c_id := PNone; c_type := PNone; c_name := PNone; c_cost := PNone;
         c_power := PNone; c_rate := PNone; c_packs := PNone; c_text := [];
         c_qa := PNone; c_illustrator := PNone; c_source := PNone;
         c_source_name := PNone; c_kirakira := false; c_image := [];
         c_tags := []; c_refer_id := None; c_abilities := [] |}
  end.

(** A network where no card has an image and the placeholder is served. *)
Definition live_placeholder_world : world :=
  {| net := λ _ url, if bool_decide (url = PLACEHOLDER_URL)
                     then Body (L "PNG-placeholder")
                     else HTTPError 404 (L "HTTP Error 404: Not Found");
     clock := L "2026-01-01T00:00:00+00:00";
     files := ∅;
     trace := [] |}.

(** The four parsing steps of [update_data], in its order. *)
Definition parse_all (raw_js : text) : result (list pyval * record * list Card) :=
  packs ← _parse_pack_list raw_js;
  ability_labels ← _parse_ability_labels raw_js;
  pack_linkage ← _parse_pack_linkage raw_js;
  cards ← _parse_card_list raw_js ability_labels pack_linkage;
  Ok (packs, ability_labels, cards).

(** What [_http_get(BASE_URL + MASTER_JS_PATH).decode("utf-8")] yields in
    the world [w], and the world after that request. *)
Definition script_of (w : world) : result text :=
  match net w (requests_made w) (BASE_URL ++ MASTER_JS_PATH) with
  | Body raw => decode_utf8 raw
  | HTTPError _ message => Raise (NetworkError message)
  | Failure message => Raise (NetworkError message)
  end.

Definition fetched (w : world) : world :=
  log (EGet (BASE_URL ++ MASTER_JS_PATH)
         (net w (requests_made w) (BASE_URL ++ MASTER_JS_PATH)))
      (log (EMkdir DATA_DIR) w).

(** What [update_data] does once parsing has succeeded. *)
Definition finish (skip_images force_images : bool) (packs : list pyval)
    (ability_labels : record) (cards : list Card) : io summary :=
  '(downloaded, errors) ←
    (if negb skip_images then _download_images cards force_images
     else mret (0%nat, []));
  md ← _build_metadata (length cards) downloaded;
  let payload := _build_payload cards packs ability_labels md in
  write CARDS_JSON (Json payload);;
  mret {| cards_path := CARDS_JSON; image_dir := IMAGES_DIR;
          sm_downloaded_images := downloaded; sm_errors := errors |}.

Definition script_without_cards : text :=
  L "const pack = ['P0'];
export const abilityLabel = { FOO: 'Foo Power' };
".

Definition script_with_cards : text :=
  L "const pack = ['P0', 'P1'];
export const abilityLabel = { FOO: 'Foo Power', };
const packLinkage = { A: 'alpha' }
export const cardData = getCardDataList([
  // base card
  { id: 41, type: 0, nm: 'X', tag: 'a, b  c', ability: [abilityLabel.FOO],
    pack: [0], src: packLinkage.A, text: 'Base text' },
  { id: 42, refer_id: 41, kirakira: true },
]);".

(** A site that serves [script] and has no images. *)
Definition site (script : text) : world :=
  {| net := λ _ url, if bool_decide (url = BASE_URL ++ MASTER_JS_PATH)
                     then Body script
                     else HTTPError 500 (L "HTTP Error 500: Internal Server Error");
     clock := L "2026-01-01T00:00:00+00:00";
     files := ∅;
     trace := [] |}.

(** *** What a pattern matches, declaratively: [matches r prev m rest g]
    says that [r] matches the text [m] when [m] comes after the character
    [prev] and before the text [rest], capturing the groups [g]. *)
Fixpoint matches (r : regex) (prev : option ascii) (m rest : text)
    (g : list text) : Prop :=
  match r with
  | RLit l => m = l ∧ g = []
  | RSet p => ∃ c, m = [c] ∧ p c = true ∧ g = []
  | RStar p | RLazy p => forallb p m = true ∧ g = []
  | RPlus p => m ≠ [] ∧ forallb p m = true ∧ g = []
  | RCat r1 r2 =>
      ∃ m1 m2 g1 g2, m = m1 ++ m2 ∧ g = g1 ++ g2 ∧
        matches r1 prev m1 (m2 ++ rest) g1 ∧
        matches r2 (last_or prev m1) m2 rest g2
  | RGroup r1 => ∃ g', g = m :: g' ∧ matches r1 prev m rest g'
  | RBol => m = [] ∧ g = [] ∧ (prev = None ∨ prev = Some newline)
  | REol => m = [] ∧ g = [] ∧ (rest = [] ∨ ∃ t, rest = newline :: t)
  end.

(** A pattern without [^] and [$] matches the same way after any
    character. *)
Fixpoint anchor_free (r : regex) : bool :=
  match r with
  | RBol | REol => false
  | RCat r1 r2 => anchor_free r1 && anchor_free r2
  | RGroup r1 => anchor_free r1
  | _ => true
  end.

(** [sub] continued from the middle of a text, after the character [prev]. *)
Definition re_sub_from (r : regex) (repl : text → list text → text)
    (prev : option ascii) (s : text) : text :=
  sub_go (S (length s)) r repl prev s.

Definition linkage_prefix : text := L "packLinkage.".

(** A reference [packLinkage.<IDENT>] starts the text [s]. *)
Definition linkage_ref (s : text) : Prop :=
  ∃ c rest, s = linkage_prefix ++ c :: rest ∧ ident_char c = true.

(** The content of the string literal a reference to [ident] becomes:
    [pack_linkage.get(ident, ident)], formatted by the f-string. *)
Definition linkage_value (pack_linkage : record) (ident : text) : text :=
  match dict_get pack_linkage ident with
  | Some v => py_str v
  | None => ident
  end.

(** A key site starts the text [s]: one of the characters [{], [,], [[],
    white space, an identifier, white space, a colon. *)
Definition key_site (s prefix key after rest : text) : Prop :=
  s = prefix ++ key ++ after ++ L ":" ++ rest ∧
  (∃ c ws, prefix = c :: ws ∧ one_of "{,[" c = true ∧ forallb is_space ws = true) ∧
  (∃ k0 k, key = k0 :: k ∧ ident_start k0 = true ∧ forallb ident_char k = true) ∧
  forallb is_space after = true.

(** The same, computed. *)
Definition key_at (s : text) : option (text * text * text * text) :=
  match s with
  | c :: s1 =>
      if one_of "{,[" c then
        let '(ws, s2) := span is_space s1 in
        match s2 with
        | k0 :: s3 =>
            if ident_start k0 then
              let '(k, s4) := span ident_char s3 in
              let '(after, s5) := span is_space s4 in
              match s5 with
              | d :: rest =>
                  if decide (d = ":"%char)
                  then Some (c :: ws, k0 :: k, after, rest) else None
              | [] => None
              end
            else None
        | [] => None
        end
      else None
  | [] => None
  end.

(** The maximal runs of characters that are no separators, in order. *)
Fixpoint fields (sep : ascii → bool) (cur s : text) : list text :=
  match s with
  | [] => match cur with [] => [] | _ => [cur] end
  | c :: s' =>
      if sep c then
        match cur with
        | [] => fields sep [] s'
        | _ => cur :: fields sep [] s'
        end
      else fields sep (cur ++ [c]) s'
  end.

(** The text that denotes a value, with the given words for true, false
    and null: strings in single quotes, items separated by a comma. *)
Fixpoint show (kw : text * text * text) (v : pyval) : text :=
  match v with
  | PNone => kw.2
  | PBool true => kw.1.1
  | PBool false => kw.1.2
  | PInt z => str_int z
  | PStr s => L "'" ++ s ++ L "'"
  | PList l => L "[" ++ join (L ",") (map (show kw) l) ++ L "]"
  | PDict d =>
      L "{" ++
      join (L ",")
        (map (λ kv, L "'" ++ kv.1 ++ L "':" ++ show kw kv.2) d) ++
      L "}"
  end.

Definition js_show : pyval → text := show (L "true", L "false", L "null").

Definition py_show : pyval → text := show (L "True", L "False", L "None").

(** A string that can stand between single quotes as it is and holds none
    of the words the evaluator replaces. *)
Definition plain_char (c : ascii) : bool :=
  negb (bool_decide (c = "'"%char) || bool_decide (c = "\"%char)
        || bool_decide (c = newline)).

Definition clean_str (s : text) : bool :=
  forallb plain_char s && negb (is_infix (L "true") s)
  && negb (is_infix (L "false") s) && negb (is_infix (L "null") s).

Fixpoint clean (v : pyval) : bool :=
  match v with
  | PStr s => clean_str s
  | PList l => forallb clean l
  | PDict d =>
      bool_decide (NoDup d.*1) &&
      forallb (λ kv, clean_str kv.1 && clean kv.2) d
  | _ => true
  end.

(** The characters of the syntax: digits, quote, brackets, comma, colon,
    minus. *)
Definition structural (c : ascii) : bool := is_digit c || one_of "'[]{},:-" c.

(** What follows a value in a text: nothing, or a character of the syntax. *)
Definition boundary (rest : text) : Prop :=
  match rest with [] => True | c :: _ => structural c = true end.

(** [P] holds of every string and every key of the value. *)
Fixpoint all_strings (P : text → bool) (v : pyval) : bool :=
  match v with
  | PStr s => P s
  | PList l => forallb (all_strings P) l
  | PDict d => forallb (λ kv, P kv.1 && all_strings P kv.2) d
  | _ => true
  end.

(** The tokens of the text of a value. *)
Fixpoint tokens_of (v : pyval) : list token :=
  match v with
  | PNone => [TName (L "None")]
  | PBool true => [TName (L "True")]
  | PBool false => [TName (L "False")]
  | PInt z => if z <? 0 then [TMinus; TInt (- z)] else [TInt z]
  | PStr s => [TStr s]
  | PList l => TLBrack :: join [TComma] (map tokens_of l) ++ [TRBrack]
  | PDict d =>
      TLBrace ::
      join [TComma] (map (λ kv, TStr kv.1 :: TColon :: tokens_of kv.2) d) ++
      [TRBrace]
  end.

(** What follows a value inside a text: nothing, a comma or a closing
    bracket. *)
Definition delimited (rest : text) : Prop :=
  match rest with [] => True | c :: _ => one_of ",]}" c = true end.

(** ** Notions for the properties of the downloader *)

(** A card as the normalizer produces it. *)
Definition normalized (c : Card) : Prop :=
  ∃ card ability_labels, _normalize_card card ability_labels = Ok c.

(** The remote address of the image file named by the card. *)
Definition image_url (c : Card) : text :=
  BASE_URL ++ L "cardListImageMin/" ++ c_image c.

(** The paths a list of events writes to, in order. *)
Definition written (evs : list event) : list text :=
  omap (λ e, match e with EWrite path _ => Some path | _ => None end) evs.

(** The requests of a list of events that are not for the placeholder. *)
Definition card_gets (evs : list event) : list event :=
  filter (λ e, is_get e && negb (ph_get e)) evs.

(** ** Notions for the references to ability labels *)

Definition ability_prefix : text := L "abilityLabel.".

(** A reference [abilityLabel.<NAME>] starts the text [s]. *)
Definition ability_ref (s : text) : Prop :=
  ∃ c rest, s = ability_prefix ++ c :: rest ∧ ident_start c = true.

(** [AbilityRefPattern.sub(lambda m: f"'{m.group(1)}'", cleaned)] *)
Definition quote_ability_refs (cleaned : text) : text :=
  re_sub AbilityRefPattern quote_group cleaned.

(* ================================================================== *)
(** * Properties *)
(* ================================================================== *)

(** ** Dicts *)

Lemma dict_get_set (d : record) k v k' :
  dict_get (dict_set d k v) k' = if decide (k = k') then Some v else dict_get d k'.
Proof.
  induction d as [|[k0 v0] d IH]; simpl.
  - by destruct (decide (k = k')).
  - destruct (decide (k0 = k)) as [->|Hne]; simpl.
    + by destruct (decide (k = k')).
    + rewrite IH. destruct (decide (k0 = k')) as [->|]; [|done].
      by rewrite decide_False.
Qed.

Lemma dict_set_keys (d : record) k v :
  (dict_set d k v).*1 = if decide (k ∈ d.*1) then d.*1 else d.*1 ++ [k].
Proof.
  induction d as [|[k0 v0] d IH]; [done|].
  change (dict_set ((k0, v0) :: d) k v)
    with (if decide (k0 = k) then (k0, v) :: d else (k0, v0) :: dict_set d k v).
  change (((k0, v0) :: d).*1) with (k0 :: d.*1).
  destruct (decide (k0 = k)) as [->|Hne].
  - rewrite decide_True by (apply elem_of_cons; auto). done.
  - change (((k0, v0) :: dict_set d k v).*1) with (k0 :: (dict_set d k v).*1).
    rewrite IH. destruct (decide (k ∈ d.*1)) as [Hin|Hnin].
    + rewrite decide_True by (apply elem_of_cons; auto). done.
    + rewrite decide_False; [done|].
      intros [?|?]%elem_of_cons; congruence.
Qed.

Lemma dict_set_wf (d : record) k v : wf_record d → wf_record (dict_set d k v).
Proof.
  unfold wf_record. intros Hd. rewrite dict_set_keys.
  destruct (decide (k ∈ d.*1)); [done|].
  apply NoDup_app. split_and!; [done| |apply NoDup_singleton].
  intros x Hx ->%list_elem_of_singleton. done.
Qed.

Lemma dict_get_None (d : record) k : dict_get d k = None ↔ k ∉ d.*1.
Proof.
  induction d as [|[k0 v0] d IH]; simpl.
  - split; [intros _ ?%elem_of_nil; done|done].
  - destruct (decide (k0 = k)) as [->|Hne].
    + split; [done|]. intros []. apply elem_of_cons; auto.
    + rewrite IH. rewrite not_elem_of_cons. naive_solver.
Qed.

Lemma deepcopy_id : ∀ v, deepcopy v = v.
Proof.
  fix IH 1. intros [ | | | |l|d]; simpl; try done.
  - f_equal. induction l as [|a l IHl]; simpl; [done|]. by rewrite IH, IHl.
  - f_equal. induction d as [|[k x] d IHd]; [done|]. by rewrite IH, IHd.
Qed.

Lemma absent_or_blank_spec own :
  absent_or_blank own ↔
  match own with None => True | Some o => is_blank o = true end.
Proof.
  unfold absent_or_blank. destruct own as [[ |b|z|[|]|[|]|[|]]|]; simpl;
    naive_solver.
Qed.

(** ** Reference resolution *)

Lemma inherit_field_get card k v key :
  dict_get (inherit_field card (k, v)) key =
  if decide (k = key ∧ k ≠ L "id")
  then backfill (dict_get card key) (Some v)
  else dict_get card key.
Proof.
  unfold inherit_field, backfill. rewrite deepcopy_id.
  destruct (decide (k = L "id")) as [Hid|Hid].
  { rewrite decide_False by naive_solver. done. }
  destruct (decide (k = key)) as [->|Hne].
  - rewrite decide_True by done.
    destruct (dict_get card key) as [own|] eqn:Hown.
    + destruct (is_blank own); [|done].
      rewrite dict_get_set. by rewrite decide_True.
    + rewrite dict_get_set. by rewrite decide_True.
  - rewrite decide_False by naive_solver.
    destruct (dict_get card k) as [own|]; [destruct (is_blank own)|];
      rewrite ?dict_get_set, ?decide_False by done; done.
Qed.

Lemma inherit_field_wf card kv : wf_record card → wf_record (inherit_field card kv).
Proof.
  destruct kv as [k v]. unfold inherit_field. intros Hwf.
  destruct (decide _); [done|].
  destruct (dict_get card k) as [own|]; [destruct (is_blank own)|];
    auto using dict_set_wf.
Qed.

Lemma inherit_wf base card : wf_record card → wf_record (inherit base card).
Proof.
  unfold inherit. revert card.
  induction base as [|kv base IH]; intros card Hwf; simpl; [done|].
  apply IH. by apply inherit_field_wf.
Qed.

Lemma inherit_get base card key :
  wf_record base →
  dict_get (inherit base card) key =
  if decide (key = L "id") then dict_get card key
  else backfill (dict_get card key) (dict_get base key).
Proof.
  unfold inherit, wf_record. revert card.
  induction base as [|[k v] base IH]; intros card Hwf.
  - simpl. by destruct (decide _).
  - apply NoDup_cons in Hwf as [Hk Hwf]. simpl in Hk.
    change (fold_left inherit_field ((k, v) :: base) card)
      with (fold_left inherit_field base (inherit_field card (k, v))).
    rewrite IH by done. rewrite inherit_field_get.
    change (dict_get ((k, v) :: base) key)
      with (if decide (k = key) then Some v else dict_get base key).
    destruct (decide (key = L "id")) as [->|Hid].
    { rewrite decide_False by naive_solver. done. }
    destruct (decide (k = key)) as [->|Hne].
    + rewrite decide_True by done.
      apply dict_get_None in Hk. rewrite Hk. done.
    + rewrite decide_False by naive_solver. done.
Qed.

Lemma index_by_id_cons card rest i m :
  index_by_id (card :: rest) i m =
  match id_key card with
  | Some k => index_by_id rest (S i) (<[k := i]> m)
  | None => Raise (if dict_get card (L "id") then TypeError else KeyError)
  end.
Proof.
  unfold id_key. simpl. destruct (dict_get card _) as [v|]; simpl; [|done].
  by destruct (to_key v).
Qed.

Lemma index_by_id_lookup cards : ∀ i m m',
  index_by_id cards i m = Ok m' →
  ∀ k, (∀ j, last_with_id cards k j → m' !! k = Some (i + j)%nat) ∧
       ((∀ c, c ∈ cards → id_key c ≠ Some k) → m' !! k = m !! k).
Proof.
  induction cards as [|card rest IH]; intros i m m' Hm k.
  - simpl in Hm. injection Hm as <-. split; [|done].
    intros j [(c & Hc & _) _]. by rewrite lookup_nil in Hc.
  - rewrite index_by_id_cons in Hm.
    destruct (id_key card) as [k0|] eqn:Hk0; [|done].
    destruct (IH _ _ _ Hm k) as [IHa IHb]. split.
    + intros [|j] [(c & Hc & Hck) Hlast].
      * simpl in Hc. injection Hc as <-.
        rewrite IHb.
        { replace k0 with k by congruence.
          rewrite lookup_insert_eq. f_equal. lia. }
        intros c' [n Hn]%list_elem_of_lookup.
        apply (Hlast (S n)); [lia|done].
      * rewrite (IHa j); [f_equal; lia|]. split; [by exists c|].
        intros j' c' Hj' Hc'. apply (Hlast (S j')); [lia|done].
    + intros Hnone. rewrite IHb.
      * rewrite lookup_insert_ne; [done|]. intros ->.
        apply (Hnone card); [apply elem_of_cons; auto|done].
      * intros c Hc. apply Hnone. apply elem_of_cons; auto.
Qed.

Lemma index_by_id_total cards : ∀ i m,
  Forall (λ c, is_Some (id_key c)) cards →
  ∃ m', index_by_id cards i m = Ok m'.
Proof.
  induction cards as [|card rest IH]; intros i m Hall.
  - by eexists.
  - apply Forall_cons in Hall as [[k Hk] Hall].
    rewrite index_by_id_cons, Hk. by apply IH.
Qed.

Lemma last_with_id_exists cards k :
  (∃ c, c ∈ cards ∧ id_key c = Some k) → ∃ j, last_with_id cards k j.
Proof.
  induction cards as [|card rest IH]; intros (c & Hin & Hc).
  - by apply elem_of_nil in Hin.
  - destruct (decide (Exists (λ c, id_key c = Some k) rest)) as [Hex|Hnex].
    + apply Exists_exists in Hex. destruct (IH Hex) as [j [(c' & Hc' & Hk) Hl]].
      exists (S j). split; [by exists c'|].
      intros [|j'] c'' Hj'; [lia|]. simpl. apply Hl. lia.
    + exists 0%nat. split.
      * exists card. split; [done|].
        apply elem_of_cons in Hin as [->|Hin]; [done|].
        destruct Hnex. apply Exists_exists. eauto.
      * intros [|j'] c' Hj' Hc'; [lia|]. simpl in Hc'. intros Hk.
        apply Hnex, Exists_exists. exists c'. split; [|done].
        apply list_elem_of_lookup. eauto.
Qed.

Lemma index_by_id_last cards by_id k j :
  index_by_id cards 0 ∅ = Ok by_id →
  by_id !! k = Some j ↔ last_with_id cards k j.
Proof.
  intros Hm. destruct (index_by_id_lookup _ _ _ _ Hm k) as [Ha Hb]. split.
  - intros Hj.
    destruct (decide (Exists (λ c, id_key c = Some k) cards)) as [Hex|Hnex].
    + apply Exists_exists in Hex. destruct (last_with_id_exists _ _ Hex) as [j0 Hj0].
      rewrite (Ha _ Hj0) in Hj. simpl in Hj. by injection Hj as <-.
    + rewrite Hb in Hj; [by rewrite lookup_empty in Hj|].
      intros c Hc Hk. apply Hnex, Exists_exists. eauto.
  - intros Hl. by rewrite (Ha _ Hl).
Qed.

Lemma resolve_one_ok by_id store i store1 :
  resolve_one by_id store i = Ok store1 →
  ∃ card, store !! i = Some card ∧
    ((dict_get_default card (L "refer_id") PNone = PNone ∧ store1 = store) ∨
     ∃ r k j base,
       dict_get_default card (L "refer_id") PNone = r ∧ r ≠ PNone ∧
       to_key r = Some k ∧ by_id !! k = Some j ∧ store !! j = Some base ∧
       store1 = <[i := inherit base card]> store).
Proof.
  unfold resolve_one. intros H.
  destruct (store !! i) as [card|] eqn:Hcard; [|done].
  exists card. split; [done|].
  destruct (dict_get_default card (L "refer_id") PNone) as [ |b|z|s|l|d] eqn:Hr;
    [left; split; [done|congruence]|right..];
    match type of Hr with _ = ?r =>
      destruct (to_key r) as [k|] eqn:Hk; [|done];
      destruct (by_id !! k) as [j|] eqn:Hj; [|done]; simpl in H;
      destruct (store !! j) as [[|kv base]|] eqn:Hb; [done| |done];
      exists r, k, j, (kv :: base); split_and!; try done; congruence
    end.
Qed.

Lemma resolve_from_ok by_id : ∀ todo store i store',
  resolve_from by_id store i todo = Ok store' →
  (i + todo = length store)%nat →
  Forall wf_record store →
  length store' = length store ∧ Forall wf_record store' ∧
  (∀ idx, (idx < i)%nat → store' !! idx = store !! idx) ∧
  (∀ idx card, (i ≤ idx)%nat → store !! idx = Some card →
     ∃ card', store' !! idx = Some card' ∧
              resolved by_id store store' idx card card').
Proof.
  induction todo as [|todo IH]; intros store i store' Hres Hlen Hwf.
  - simpl in Hres. injection Hres as <-. split_and!; try done.
    intros idx card Hidx Hcard. apply lookup_lt_Some in Hcard. lia.
  - simpl in Hres.
    destruct (resolve_one by_id store i) as [store1|e] eqn:Hone; [|done].
    simpl in Hres.
    apply resolve_one_ok in Hone as (ci & Hci & Hone).
    assert (length store1 = length store ∧ Forall wf_record store1 ∧
            ∀ idx, idx ≠ i → store1 !! idx = store !! idx) as (Hl1 & Hwf1 & Hsame).
    { destruct Hone as [[_ ->]|(r & k & j & base & _ & _ & _ & _ & Hb & ->)];
        [done|].
      split_and!.
      - by rewrite length_insert.
      - apply Forall_insert; [done|]. apply inherit_wf.
        by eapply Forall_lookup_1 in Hci.
      - intros idx Hne. by rewrite list_lookup_insert_ne. }
    destruct (IH store1 (S i) store' Hres) as (Hl & Hwf' & Hlow & Hhigh);
      [lia|done|].
    split_and!; [congruence|done|..].
    + intros idx Hidx. rewrite Hlow by lia. apply Hsame. lia.
    + intros idx card Hidx Hcard.
      destruct (decide (idx = i)) as [->|Hne].
      * rewrite Hlow by lia. rewrite Hci in Hcard. injection Hcard as <-.
        destruct Hone as [[Hr ->]|(r & k & j & base & Hr & Hnn & Hk & Hj & Hb & ->)].
        { exists ci. split; [done|]. by left. }
        exists (inherit base ci). split.
        { apply list_lookup_insert_eq. apply lookup_lt_Some in Hci. done. }
        right. exists r, k, j, base. split_and!; try done.
        case_decide as Hji; [|done].
        rewrite Hlow by lia. rewrite Hsame by lia. done.
      * destruct (Hhigh idx card) as (card' & Hc' & Hres'); [lia| |].
        { by rewrite Hsame. }
        exists card'. split; [done|].
        destruct Hres' as [?|(r & k & j & base & Hr & Hnn & Hk & Hj & Hb & ->)];
          [by left|].
        right. exists r, k, j, base. split_and!; try done.
        case_decide as Hji; [done|]. rewrite <- Hsame by lia. done.
Qed.

Lemma refers_to_default card r :
  refers_to card r ↔ dict_get_default card (L "refer_id") PNone = r ∧ r ≠ PNone.
Proof.
  unfold refers_to, dict_get_default.
  destruct (dict_get card (L "refer_id")) as [v|]; simpl; naive_solver.
Qed.

Lemma resolve_one_found by_id store i card r k j base :
  store !! i = Some card →
  refers_to card r → to_key r = Some k → by_id !! k = Some j →
  store !! j = Some base → base ≠ [] →
  resolve_one by_id store i = Ok (<[i := inherit base card]> store).
Proof.
  intros Hc [Hr Hnn]%refers_to_default Hk Hj Hb Hne. unfold resolve_one.
  rewrite Hc, Hr.
  destruct r; try done; cbn [to_key] in *; injection Hk as <-;
    rewrite Hj; simpl; rewrite Hb; by destruct base.
Qed.

Lemma resolve_one_plain by_id store i card :
  store !! i = Some card → (∀ r, ¬ refers_to card r) →
  resolve_one by_id store i = Ok store.
Proof.
  intros Hc Hno. unfold resolve_one. rewrite Hc.
  destruct (dict_get_default card (L "refer_id") PNone) eqn:Hr; try done;
    edestruct Hno; apply refers_to_default; split; try done; congruence.
Qed.

Lemma resolve_from_missing by_id : ∀ todo store i idx card r,
  (i + todo = length store)%nat → (i ≤ idx)%nat →
  store !! idx = Some card → refers_to card r →
  (∀ k, to_key r = Some k → by_id !! k = None) →
  ∃ e, resolve_from by_id store i todo = Raise e.
Proof.
  induction todo as [|todo IH]; intros store i idx card r Hlen Hidx Hc Hr Hmiss.
  - apply lookup_lt_Some in Hc. lia.
  - simpl. destruct (resolve_one by_id store i) as [store1|e] eqn:Hone;
      [|by exists e].
    simpl. apply resolve_one_ok in Hone as (ci & Hci & Hone).
    apply refers_to_default in Hr as Hr'. destruct Hr' as [Hr' Hnn].
    destruct (decide (idx = i)) as [->|Hne].
    + rewrite Hci in Hc. injection Hc as ->.
      destruct Hone as [[Hr1 _]|(r1 & k & j & base & Hr1 & _ & Hk & Hj & _)].
      * congruence.
      * rewrite Hr' in Hr1. subst r1. rewrite (Hmiss _ Hk) in Hj. done.
    + apply (IH store1 (S i) idx card r); try done; try lia.
      * destruct Hone as [[_ ->]|(? & ? & ? & ? & _ & _ & _ & _ & _ & ->)];
          [lia|]. rewrite length_insert. lia.
      * destruct Hone as [[_ ->]|(? & ? & ? & ? & _ & _ & _ & _ & _ & ->)];
          [done|]. by rewrite list_lookup_insert_ne.
Qed.

Lemma inherit_get_id base : ∀ card,
  dict_get (inherit base card) (L "id") = dict_get card (L "id").
Proof.
  unfold inherit. induction base as [|[k v] base IH]; intros card; [done|].
  change (fold_left inherit_field ((k, v) :: base) card)
    with (fold_left inherit_field base (inherit_field card (k, v))).
  rewrite IH, inherit_field_get.
  rewrite decide_False; [done|]. naive_solver.
Qed.

Lemma resolve_from_total by_id : ∀ todo store i,
  (i + todo = length store)%nat →
  (∀ c, c ∈ store → is_Some (dict_get c (L "id"))) →
  (∀ idx card r, (i ≤ idx)%nat → store !! idx = Some card → refers_to card r →
     ∃ k j, to_key r = Some k ∧ by_id !! k = Some j ∧ (j < length store)%nat) →
  ∃ store', resolve_from by_id store i todo = Ok store'.
Proof.
  induction todo as [|todo IH]; intros store i Hlen Hid Href; [by eexists|].
  simpl. destruct (lookup_lt_is_Some_2 store i) as [card Hc]; [lia|].
  assert (∃ store1, resolve_one by_id store i = Ok store1 ∧
            length store1 = length store ∧
            (∀ c, c ∈ store1 → is_Some (dict_get c (L "id"))) ∧
            ∀ idx, idx ≠ i → store1 !! idx = store !! idx)
    as (store1 & -> & Hl1 & Hid1 & Hsame).
  { destruct (dict_get_default card (L "refer_id") PNone) as [ | | | | | ] eqn:Hr.
    1: { exists store. split_and!; try done. apply resolve_one_plain with card; [done|].
         intros r [? ?]%refers_to_default. congruence. }
    all: match type of Hr with _ = ?r =>
      assert (refers_to card r) as Hrt
        by (apply refers_to_default; split; [done|congruence]);
      destruct (Href i card r) as (k & j & Hk & Hj & Hlt); [lia|done|done|];
      destruct (lookup_lt_is_Some_2 store j Hlt) as [base Hb];
      exists (<[i := inherit base card]> store); split_and!;
      [ apply resolve_one_found with r k j; try done;
        assert (base ∈ store) as Hin by (apply list_elem_of_lookup; eauto);
        apply Hid in Hin as [? Hin]; by destruct base
      | by rewrite length_insert
      | intros c [n Hn]%list_elem_of_lookup;
        destruct (decide (n = i)) as [->|];
        [ rewrite list_lookup_insert_eq in Hn by (by eapply lookup_lt_Some);
          injection Hn as <-; rewrite inherit_get_id;
          apply Hid, list_elem_of_lookup; eauto
        | rewrite list_lookup_insert_ne in Hn by done;
          apply Hid, list_elem_of_lookup; eauto ]
      | intros idx Hne; by rewrite list_lookup_insert_ne ]
    end. }
  simpl. apply IH; [lia|done|].
  intros idx c r Hidx Hcc Hrt. rewrite Hl1.
  apply (Href idx c r); [lia| |done]. rewrite <- Hsame by lia. done.
Qed.

Example resolve_example :
  _resolve_references example_batch = Ok
  [ [(L "id", PInt 1); (L "text", PStr (L "Base text")); (L "pack", PList [PInt 0])];
    [(L "id", PInt 2); (L "refer_id", PInt 1); (L "text", PStr (L "Base text"));
     (L "pack", PList [PInt 0])];
    [(L "id", PInt 3); (L "refer_id", PInt 1); (L "text", PStr (L "Own text"));
     (L "pack", PList [PInt 0])] ].
Proof. vm_compute. reflexivity. Qed.

Example resolve_missing_target :
  _resolve_references [[(L "id", PInt 1); (L "refer_id", PInt 7)]]
  = Raise (RuntimeError (L "refer_id not found")).
Proof. vm_compute. reflexivity. Qed.



(** ** The deck compositor: [compose_grid] *)

Lemma paste_all_spec w h : ∀ images index cv,
  cv_size (paste_all w h index images cv) = cv_size cv ∧
  pastes (paste_all w h index images cv) =
    pastes cv ++ imap (λ i, placed w h (index + i)) images.
Proof.
  induction images as [|im images IH]; intros index cv; simpl.
  - by rewrite app_nil_r.
  - destruct (IH (S index) {| cv_size := cv_size cv;
        pastes := pastes cv ++ [placed w h index im] |}) as [Hs Hp].
    unfold placed in *. simpl in *. rewrite Hs, Hp. split; [done|].
    rewrite <- app_assoc. simpl. do 2 f_equal.
    + by rewrite Nat.add_0_r.
    + apply imap_ext. intros i x _. simpl. by rewrite Nat.add_succ_r.
Qed.

Example compose_grid_first_row :
  compose_grid [Opened (L "a") 10 20; Opened (L "b") 10 20;
                Opened (L "c") 5 5; Opened (L "d") 10 20] =
  Ok {| cv_size := (30, 60);
        pastes := [(Opened (L "a") 10 20, (0, 0));
                   (Opened (L "b") 10 20, (10, 0));
                   (Resized (Opened (L "c") 5 5) 10 20, (20, 0));
                   (Opened (L "d") 10 20, (0, 20))] |}.
Proof. reflexivity. Qed.

(** C10. For a non-empty list of images (of 9 in particular), whatever
    their sizes, [compose_grid] returns a canvas 3 times as wide and 3
    times as high as the first image; it pastes one image per input, in
    order; the image at position [i] is pasted at column [i mod 3], row
    [i div 3] of the grid of cells of the first image's size, as it is when
    it has that size and resized to it otherwise. *)
Theorem compose_grid_layout (images : list image) (first : image) :
  head images = Some first →
  ∃ cv, compose_grid images = Ok cv ∧
    cv_size cv = ((size first).1 * 3, (size first).2 * 3) ∧
    length (pastes cv) = length images ∧
    ∀ i im, images !! i = Some im →
      ∃ im',
        pastes cv !! i =
          Some (im', (Z.of_nat (i mod 3) * (size first).1,
                      Z.of_nat (i / 3) * (size first).2)) ∧
        size im' = size first ∧
        (size im = size first → im' = im) ∧
        (size im ≠ size first →
           im' = Resized im (size first).1 (size first).2).
Proof.
  intros Hhead. destruct images as [|im0 images]; [done|].
  injection Hhead as ->. unfold compose_grid.
  destruct (size first) as [w h] eqn:Hsz. eexists. split; [done|].
  destruct (paste_all_spec w h (first :: images) 0
              {| cv_size := (w * 3, h * 3); pastes := [] |}) as [Hs Hp].
  rewrite Hs, Hp. cbn [pastes cv_size fst snd]. rewrite app_nil_l.
  split_and!; [done|..].
  - by rewrite length_imap.
  - intros i im Him.
    rewrite list_lookup_imap, Him. simpl. unfold placed.
    eexists. split; [done|]. case_decide as Hne; simpl.
    + split_and!; [done|done|]. by intros _.
    + split_and!; [done|done|]. by intros [].
Qed.

Lemma compose_grid_layout_witness :
  ∃ cv, compose_grid (replicate 9 (Opened (L "card") 10 20)) = Ok cv ∧
        cv_size cv = (30, 60) ∧ length (pastes cv) = 9%nat.
Proof.
  destruct (compose_grid_layout (replicate 9 (Opened (L "card") 10 20))
              (Opened (L "card") 10 20) eq_refl) as (cv & H1 & H2 & H3 & _).
  exists cv. split_and!; [exact H1|exact H2|exact H3].
Defined.

(** ** The deck compositor: input validation *)

Lemma is_character_spec card :
  is_character card ↔
  differs_from_int (dict_get_default card (L "type") PNone) TYPE_CHARACTER = false.
Proof.
  unfold is_character, dict_get_default, TYPE_CHARACTER.
  destruct (dict_get card (L "type")) as [[ |[]|z| | | ]|]; simpl;
    try naive_solver.
  destruct (Z.eqb_spec z 0) as [->|Hz]; simpl; naive_solver.
Qed.

Lemma parse_ids_ok lines ids :
  parse_ids lines = Ok ids ↔ Forall2 (λ line n, py_int line = Ok n) lines ids.
Proof.
  revert ids. induction lines as [|line lines IH]; intros ids; simpl.
  - split; [intros [= <-]; constructor|by intros ->%Forall2_nil_inv_l].
  - destruct (py_int line) as [n|e] eqn:Hn; simpl.
    + destruct (parse_ids lines) as [rest|e] eqn:Hrest; simpl.
      * split.
        -- intros [= <-]. constructor; [done|]. by apply IH.
        -- intros (n' & rest' & Hn' & Hrest' & ->)%Forall2_cons_inv_l.
           apply IH in Hrest'. congruence.
      * split; [done|].
        intros (n' & rest' & Hn' & Hrest' & ->)%Forall2_cons_inv_l.
        apply IH in Hrest'. done.
    + split; [done|].
      intros (n' & rest' & Hn' & Hrest' & ->)%Forall2_cons_inv_l. congruence.
Qed.

Lemma py_int_raises s e : py_int s = Raise e → e = ValueError.
Proof.
  unfold py_int. destruct (strip s) as [|c rest]; simpl.
  - intros [= <-]. done.
  - repeat case_match; congruence.
Qed.

Lemma parse_ids_raises lines e : parse_ids lines = Raise e → e = ValueError.
Proof.
  induction lines as [|line lines IH]; simpl; [done|].
  destruct (py_int line) as [n|e'] eqn:Hn; simpl.
  - destruct (parse_ids lines) as [rest|e'']; simpl; [done|].
    intros [= <-]. by apply IH.
  - intros [= <-]. by apply py_int_raises in Hn.
Qed.

Lemma validate_ids_ok card_map ids cards :
  validate_ids ids card_map = Ok cards ↔
  Forall2 (λ id card, card_map !! id = Some card ∧ is_character card) ids cards.
Proof.
  revert cards. induction ids as [|id ids IH]; intros cards; simpl.
  - split; [intros [= <-]; constructor|by intros ->%Forall2_nil_inv_l].
  - destruct (card_map !! id) as [card|] eqn:Hc.
    + destruct (differs_from_int _ _) eqn:Hty.
      * split; [done|].
        intros (c & rest & [Hc' Hch] & _ & ->)%Forall2_cons_inv_l.
        rewrite Hc in Hc'. injection Hc' as <-.
        apply is_character_spec in Hch. congruence.
      * apply is_character_spec in Hty.
        destruct (validate_ids ids card_map) as [rest|e] eqn:Hrest; simpl.
        -- split.
           ++ intros [= <-]. constructor; [done|]. by apply IH.
           ++ intros (c & rest' & [Hc' _] & Hrest' & ->)%Forall2_cons_inv_l.
              apply IH in Hrest'. congruence.
        -- split; [done|].
           intros (c & rest' & _ & Hrest' & ->)%Forall2_cons_inv_l.
           by apply IH in Hrest'.
    + split; [done|].
      intros (c & rest & [Hc' _] & _ & ->)%Forall2_cons_inv_l. congruence.
Qed.

Lemma validate_ids_raises card_map ids e :
  validate_ids ids card_map = Raise e → ∃ msg, e = SystemExit msg.
Proof.
  induction ids as [|id ids IH]; simpl; [done|].
  destruct (card_map !! id) as [card|]; [|intros [= <-]; by eexists].
  destruct (differs_from_int _ _); [intros [= <-]; by eexists|].
  destruct (validate_ids ids card_map) as [rest|e']; simpl; [done|].
  intros [= <-]. by apply IH.
Qed.

Example deck_of_9_accepted :
  read_deck_ids (Some (lines_of ["1"; "2"; ""; "3"; "4"; " 5 "; "6"; "7"; "8"; "9"]))
  = Ok [1; 2; 3; 4; 5; 6; 7; 8; 9].
Proof. vm_compute. reflexivity. Qed.

Example deck_of_8_rejected :
  read_deck_ids (Some (lines_of ["1"; "2"; "3"; "4"; "5"; "6"; "7"; "8"]))
  = abort (L "deck.txt must contain exactly 9 card ids").
Proof. vm_compute. reflexivity. Qed.

Example deck_of_10_rejected :
  read_deck_ids (Some (lines_of ["1"; "2"; "3"; "4"; "5"; "6"; "7"; "8"; "9"; "10"]))
  = abort (L "deck.txt must contain exactly 9 card ids").
Proof. vm_compute. reflexivity. Qed.

Example deck_non_numeric_rejected :
  read_deck_ids (Some (lines_of ["1"; "2"; "3"; "4"; "x5"; "6"; "7"; "8"; "9"]))
  = abort (L "deck.txt contains a non-numeric id").
Proof. vm_compute. reflexivity. Qed.

Example ability_card_rejected :
  validate_ids [7] {[ 7 := [(L "id", PInt 7); (L "type", PInt 1)] ]}
  = abort (L "Card id is not a character card and cannot be used in the deck.").
Proof. vm_compute. reflexivity. Qed.

Lemma main_validation_ok deck_file catalog cards :
  main_validation deck_file catalog = Ok cards ↔
  ∃ ids card_map, read_deck_ids deck_file = Ok ids ∧
    load_cards catalog = Ok card_map ∧ validate_ids ids card_map = Ok cards.
Proof.
  unfold main_validation.
  destruct (read_deck_ids deck_file) as [ids|e]; simpl; [|naive_solver].
  destruct (load_cards catalog) as [card_map|e]; simpl; naive_solver.
Qed.


(** ** Image file names *)

Lemma code_digit_char d : 0 ≤ d < 10 → digit_value (digit_char d) = d.
Proof.
  intros Hd. unfold digit_value, digit_char, code.
  rewrite N_ascii_embedding by lia. lia.
Qed.

Lemma is_digit_digit_char d : 0 ≤ d < 10 → is_digit (digit_char d) = true.
Proof.
  intros Hd. unfold is_digit, in_range, digit_char, code.
  rewrite N_ascii_embedding by lia.
  apply andb_true_iff. split; apply N.leb_le; simpl; lia.
Qed.

Lemma digits_value_app ds1 ds2 :
  digits_value (ds1 ++ ds2) =
  fold_left (λ acc c, 10 * acc + digit_value c) ds2 (digits_value ds1).
Proof. unfold digits_value. by rewrite fold_left_app. Qed.

Lemma digits_value_snoc ds c :
  digits_value (ds ++ [c]) = 10 * digits_value ds + digit_value c.
Proof. by rewrite digits_value_app. Qed.

Lemma digits_value_zeros k ds :
  digits_value (replicate k "0"%char ++ ds) = digits_value ds.
Proof.
  unfold digits_value. rewrite fold_left_app. f_equal.
  induction k as [|k IH]; [done|].
  rewrite replicate_S_end, fold_left_app, IH. done.
Qed.

(** [dec_digits] writes the digits of [n] in front of [acc]. *)
Lemma dec_digits_spec : ∀ fuel n acc,
  0 ≤ n < 10 ^ (Z.of_nat fuel + 1) →
  ∃ ds, dec_digits fuel n acc = ds ++ acc ∧ digits_value ds = n ∧
        forallb is_digit ds = true ∧ ds ≠ [].
Proof.
  induction fuel as [|fuel IH]; intros n acc Hn.
  - change (10 ^ (Z.of_nat 0 + 1)) with 10 in Hn.
    exists [digit_char n]. simpl. rewrite Z.mod_small by lia.
    rewrite is_digit_digit_char by lia.
    unfold digits_value. simpl. rewrite code_digit_char by lia. done.
  - simpl dec_digits. destruct (Z.ltb_spec n 10) as [Hlt|Hge].
    + exists [digit_char n]. simpl. rewrite Z.mod_small by lia.
      rewrite is_digit_digit_char by lia.
      unfold digits_value. simpl. rewrite code_digit_char by lia. done.
    + destruct (IH (n / 10) (digit_char (n mod 10) :: acc))
        as (ds & Hds & Hval & Hdig & Hne).
      { split; [apply Z.div_pos; lia|].
        apply Z.div_lt_upper_bound; [lia|].
        replace (Z.of_nat (S fuel) + 1) with (Z.succ (Z.of_nat fuel + 1)) in Hn
          by lia.
        rewrite Z.pow_succ_r in Hn by lia. lia. }
      exists (ds ++ [digit_char (n mod 10)]). split_and!.
      * rewrite Hds. by rewrite <- app_assoc.
      * rewrite digits_value_snoc, Hval, code_digit_char
          by (apply Z.mod_pos_bound; lia).
        pose proof (Z.div_mod n 10). lia.
      * rewrite forallb_app, Hdig. simpl.
        rewrite is_digit_digit_char by (apply Z.mod_pos_bound; lia). done.
      * by destruct ds.
Qed.

Lemma str_nat_spec n :
  0 ≤ n →
  digits_value (str_nat n) = n ∧ forallb is_digit (str_nat n) = true ∧
  str_nat n ≠ [].
Proof.
  intros Hn. unfold str_nat.
  destruct (dec_digits_spec (Z.to_nat (Z.log2 n)) n []) as (ds & -> & H1 & H2 & H3).
  { split; [done|]. destruct (decide (n = 0)) as [->|Hnz]; [done|].
    rewrite Z2Nat.id by apply Z.log2_nonneg.
    pose proof (Z.log2_spec n ltac:(lia)) as [_ Hup].
    eapply Z.lt_le_trans; [exact Hup|].
    replace (Z.succ (Z.log2 n)) with (Z.log2 n + 1) by lia.
    apply Z.pow_le_mono_l. lia. }
  rewrite app_nil_r. done.
Qed.

Lemma zfill_digits width ds :
  forallb is_digit ds = true → forallb is_digit (zfill width ds) = true.
Proof.
  intros Hds. unfold zfill. rewrite forallb_app, Hds, andb_true_r.
  induction (width - length ds)%nat as [|k IH]; [done|]. simpl. done.
Qed.

Lemma unformat_format width n : unformat (format_0d width n) = n.
Proof.
  unfold format_0d. destruct (Z.ltb_spec n 0) as [Hneg|Hpos].
  - unfold unformat. rewrite decide_True by done. unfold zfill.
    rewrite digits_value_zeros.
    destruct (str_nat_spec (- n)) as [-> _]; lia.
  - destruct (str_nat_spec n Hpos) as (Hval & Hdig & Hne).
    pose proof (zfill_digits width _ Hdig) as Hz.
    assert (digits_value (zfill width (str_nat n)) = n) as Hv.
    { unfold zfill. by rewrite digits_value_zeros. }
    destruct (zfill width (str_nat n)) as [|c ds] eqn:Hf.
    + unfold zfill in Hf. apply app_eq_nil in Hf as [_ ?]. done.
    + unfold unformat. case_decide as Hc; [|done].
      subst c. simpl in Hz. done.
Qed.

Lemma dec_digits_unfold fuel n acc :
  dec_digits fuel n acc =
  if n <? 10 then digit_char (n mod 10) :: acc
  else match fuel with
       | O => digit_char (n mod 10) :: acc
       | S fuel' => dec_digits fuel' (n / 10) (digit_char (n mod 10) :: acc)
       end.
Proof. destruct fuel; simpl; by destruct (n <? 10). Qed.

Lemma str_nat_fuel n k : 2 ^ k ≤ n → 0 ≤ k → (Z.to_nat k ≤ Z.to_nat (Z.log2 n))%nat.
Proof.
  intros Hn Hk. apply Z2Nat.inj_le; [done|apply Z.log2_nonneg|].
  apply Z.log2_le_pow2; lia.
Qed.

(** Up to 9999 the formatted number is its four decimal digits. *)
Lemma format_four_digits n :
  0 ≤ n < 10000 →
  format_0d 4 n =
  map digit_char [n / 1000; n / 100 mod 10; n / 10 mod 10; n mod 10].
Proof.
  intros Hn. unfold format_0d, str_nat.
  destruct (Z.ltb_spec n 0) as [?|_]; [lia|].
  assert (n / 10 / 10 = n / 100) as H100 by (rewrite Z.div_div by lia; done).
  assert (n / 100 / 10 = n / 1000) as H1000
    by (rewrite Z.div_div by lia; done).
  assert (∀ k b, 0 < k → n < k * b → n / k < b) as Hlt
    by (intros k b ? ?; apply Z.div_lt_upper_bound; lia).
  assert (∀ k b, 0 < k → k * b ≤ n → b ≤ n / k) as Hle
    by (intros k b ? ?; apply Z.div_le_lower_bound; lia).
  destruct (decide (n < 10)) as [H1|H1].
  { rewrite dec_digits_unfold. destruct (Z.ltb_spec n 10); [|lia].
    rewrite !(Z.div_small n), (Z.mod_small 0) by lia. done. }
  destruct (decide (n < 100)) as [H2|H2].
  { pose proof (str_nat_fuel n 1 ltac:(simpl; lia) ltac:(lia)) as Hf.
    destruct (Z.to_nat (Z.log2 n)) as [|f]; [simpl in Hf; lia|].
    rewrite dec_digits_unfold. destruct (Z.ltb_spec n 10); [lia|].
    rewrite dec_digits_unfold. pose proof (Hlt 10 10).
    destruct (Z.ltb_spec (n / 10) 10); [|lia].
    rewrite !(Z.div_small n 1000), !(Z.div_small n 100), (Z.mod_small 0) by lia.
    done. }
  destruct (decide (n < 1000)) as [H3|H3].
  { pose proof (str_nat_fuel n 2 ltac:(simpl; lia) ltac:(lia)) as Hf.
    destruct (Z.to_nat (Z.log2 n)) as [|[|f]]; [simpl in Hf; lia..|].
    rewrite dec_digits_unfold. destruct (Z.ltb_spec n 10); [lia|].
    rewrite dec_digits_unfold. pose proof (Hle 10 10).
    destruct (Z.ltb_spec (n / 10) 10); [lia|].
    rewrite dec_digits_unfold, H100. pose proof (Hlt 100 10).
    destruct (Z.ltb_spec (n / 100) 10); [|lia].
    rewrite !(Z.div_small n 1000) by lia. done. }
  pose proof (str_nat_fuel n 3 ltac:(simpl; lia) ltac:(lia)) as Hf.
  destruct (Z.to_nat (Z.log2 n)) as [|[|[|f]]]; [simpl in Hf; lia..|].
  rewrite dec_digits_unfold. destruct (Z.ltb_spec n 10); [lia|].
  rewrite dec_digits_unfold. pose proof (Hle 10 10).
  destruct (Z.ltb_spec (n / 10) 10); [lia|].
  rewrite dec_digits_unfold, H100. pose proof (Hle 100 10).
  destruct (Z.ltb_spec (n / 100) 10); [lia|].
  rewrite dec_digits_unfold, H1000. pose proof (Hlt 1000 10).
  destruct (Z.ltb_spec (n / 1000) 10); [|lia].
  rewrite (Z.mod_small (n / 1000)); [done|].
  split; [apply Z.div_pos; lia|lia].
Qed.

Lemma image_name_int z :
  image_name (PInt z) = Ok (L "sample" ++ format_0d 4 (z + 1) ++ L ".png").
Proof.
  unfold image_name, py_or. simpl.
  destruct (Z.eqb_spec z 0) as [->|Hz]; done.
Qed.

Lemma normalize_card_image card ability_labels c :
  _normalize_card card ability_labels = Ok c →
  image_name (dict_get_default card (L "id") PNone) = Ok (c_image c).
Proof.
  unfold _normalize_card. intros H.
  destruct (normalize_text _) as [t|]; simpl in H; [|done].
  destruct (image_name _) as [im|]; simpl in H; [|done].
  destruct (_normalize_tags _) as [tags|]; simpl in H; [|done].
  destruct (py_list _) as [codes|]; simpl in H; [|done].
  destruct (label_all _ _) as [abilities|]; simpl in H; [|done].
  by injection H as <-.
Qed.

Example image_of_41 :
  image_name (PInt 41) = Ok (L "sample0042.png").
Proof. vm_compute. reflexivity. Qed.

(** C7. For a raw record with an integer id the file name is computed
    (never an error) as [sample], then [id + 1] formatted with [04d], then
    [.png]: that is what the normalized card holds as [image]; up to 9999
    the number is written with exactly four decimal digits, zero padded;
    id 41 gives [sample0042.png]; and two distinct integer ids never give
    the same file name. *)
Theorem image_name_of_id :
  (∀ z, image_name (PInt z) =
          Ok (L "sample" ++ format_0d 4 (z + 1) ++ L ".png")) ∧
  (∀ card ability_labels c z,
     dict_get card (L "id") = Some (PInt z) →
     _normalize_card card ability_labels = Ok c →
     c_image c = L "sample" ++ format_0d 4 (z + 1) ++ L ".png") ∧
  (∀ z, 0 ≤ z + 1 < 10000 →
     format_0d 4 (z + 1) =
     map digit_char [(z + 1) / 1000; (z + 1) / 100 mod 10;
                     (z + 1) / 10 mod 10; (z + 1) mod 10]) ∧
  image_name (PInt 41) = Ok (L "sample0042.png") ∧
  (∀ z1 z2 name,
     image_name (PInt z1) = Ok name → image_name (PInt z2) = Ok name →
     z1 = z2).
Proof.
  split_and!.
  - apply image_name_int.
  - intros card ability_labels c z Hid Hc.
    apply normalize_card_image in Hc. unfold dict_get_default in Hc.
    rewrite Hid in Hc. simpl in Hc. rewrite image_name_int in Hc.
    by injection Hc as <-.
  - intros z Hz. by apply format_four_digits.
  - apply image_of_41.
  - intros z1 z2 name H1 H2. rewrite image_name_int in H1, H2.
    rewrite <- H1 in H2. injection H2 as H2.
    apply app_inv_tail in H2.
    apply (f_equal unformat) in H2. rewrite !unformat_format in H2. lia.
Qed.

Lemma image_name_of_id_witness :
  c_image <$> (match _normalize_card [(L "id", PInt 41)] [] with
               | Ok c => Some c
               | Raise _ => None
               end) = Some (L "sample0042.png").
Proof.
  destruct (_normalize_card [(L "id", PInt 41)] []) as [c|e] eqn:Hc.
  - simpl. f_equal.
    exact (proj1 (proj2 image_name_of_id)
             [(L "id", PInt 41)] [] c 41 eq_refl Hc).
  - vm_compute in Hc. discriminate Hc.
Defined.

(** ** The image downloader *)

Lemma card_url_not_placeholder index :
  BASE_URL ++ IMAGE_TEMPLATE index ≠ PLACEHOLDER_URL.
Proof.
  unfold PLACEHOLDER_URL. intros H. apply app_inv_head in H.
  unfold IMAGE_TEMPLATE, PLACEHOLDER_IMAGE, L in H. simpl in H. congruence.
Qed.

Lemma ph_get_card_url index a : ph_get (EGet (BASE_URL ++ IMAGE_TEMPLATE index) a) = false.
Proof. apply bool_decide_eq_false_2, card_url_not_placeholder. Qed.

Lemma ph_hit_card_url index a : ph_hit (EGet (BASE_URL ++ IMAGE_TEMPLATE index) a) = false.
Proof.
  destruct a; [|done..].
  apply bool_decide_eq_false_2, card_url_not_placeholder.
Qed.

Lemma ph_get_placeholder a : ph_get (EGet (BASE_URL ++ PLACEHOLDER_IMAGE) a) = true.
Proof. by apply bool_decide_eq_true_2. Qed.

(** The events one turn of the loop adds, and what they do to the cache of
    the placeholder image. *)

Lemma download_one_events force st card w r w' :
  download_one force st card w = (r, w') →
  net w' = net w ∧ clock w' = clock w ∧
  ∃ new,
    trace w' = trace w ++ new ∧
    Forall (λ e, match e with
                 | EWrite path (Bytes _) => path = target_of card
                 | EGet _ _ => True
                 | _ => False
                 end) new ∧
    (∀ e, r = Raise e → new = []) ∧
    (∀ st', r = Ok st' →
       (placeholder_bytes st ≠ None →
          filter ph_get new = [] ∧ placeholder_bytes st' = placeholder_bytes st) ∧
       (placeholder_bytes st = None →
          (filter ph_get new = [] ∧ placeholder_bytes st' = None) ∨
          (∃ a, filter ph_get new = [EGet PLACEHOLDER_URL a] ∧
                (placeholder_bytes st' = None ↔
                 ph_hit (EGet PLACEHOLDER_URL a) = false)))).
Proof.
  unfold download_one. intros H.
  cbv [mbind io_bind mret io_ret lift exists_ request store_image write log] in H.
  destruct (py_succ _) as [index|e]; io_step H.
  2: { injection H as <- <-. split_and!; try done. exists [].
       rewrite app_nil_r. split_and!; try done. }
  destruct (bool_decide _ && negb force); io_step H.
  { injection H as <- <-. split_and!; try done. exists [].
    rewrite app_nil_r. split_and!; try done. intros st' [= <-].
    split; [done|]. intros Hn. by left. }
  set (url := BASE_URL ++ IMAGE_TEMPLATE index) in *.
  destruct (net w _ url) as [data|status message|message] eqn:Ha; io_step H.
  - injection H as <- <-. io_events.
    intros st' [= <-]. rewrite !filter_cons, filter_nil.
    unfold url. rewrite ph_get_card_url. simpl.
    split; [done|]. intros Hn. by left.
  - destruct (decide (status = 404)) as [->|Hs]; io_step H.
    + destruct (placeholder_bytes st) as [data|] eqn:Hph; io_step H.
      * injection H as <- <-. io_events.
        intros st' [= <-]. rewrite !filter_cons, filter_nil.
        unfold url. rewrite ph_get_card_url. simpl. done.
      * match type of H with context [net w ?n ?u] =>
          destruct (net w n u) as [data|status' message'|message'] eqn:Hb
        end; io_step H; injection H as <- <-; io_events;
          intros st' [= <-]; rewrite !filter_cons, filter_nil; unfold url;
          rewrite ph_get_card_url, ph_get_placeholder; simpl;
          (split; [done|]); intros _; right; eexists; (split; [done|]);
          cbn [ph_hit placeholder_bytes add_error];
          rewrite ?bool_decide_eq_true_2 by done; done.
    + injection H as <- <-. io_events.
      intros st' [= <-]. rewrite !filter_cons, filter_nil.
      unfold url. rewrite ph_get_card_url. simpl.
      split; [done|]. intros Hn. by left.
  - injection H as <- <-. io_events.
    intros st' [= <-]. rewrite !filter_cons, filter_nil.
    unfold url. rewrite ph_get_card_url. simpl.
    split; [done|]. intros Hn. by left.
Qed.

Lemma cache_inv_step cache cache' gets more :
  cache_inv cache gets →
  (cache ≠ None → more = [] ∧ cache' = cache) →
  (cache = None →
     (more = [] ∧ cache' = None) ∨
     (∃ a, more = [EGet PLACEHOLDER_URL a] ∧
           (cache' = None ↔ ph_hit (EGet PLACEHOLDER_URL a) = false))) →
  cache_inv cache' (gets ++ more).
Proof.
  intros [Hlast Hnone] Hsome Hnew.
  destruct cache as [b|].
  - destruct Hsome as [-> ->]; [done|]. rewrite app_nil_r. by split.
  - specialize (Hnone eq_refl).
    destruct Hnew as [[-> ->]|(a & -> & Hc)]; [done|..].
    + rewrite app_nil_r. by split.
    + split.
      * intros i e Hi Hhit. rewrite length_app. simpl.
        destruct (decide (i < length gets)%nat) as [Hlt|Hge].
        -- rewrite lookup_app_l in Hi by done.
           eapply Forall_lookup_1 in Hnone; [|done]. congruence.
        -- apply lookup_lt_Some in Hi. rewrite length_app in Hi. simpl in Hi. lia.
      * intros Hc'. apply Forall_app. split; [done|].
        constructor; [|done]. by apply Hc.
Qed.

Lemma download_loop_events force : ∀ cards st w r w' gets,
  download_loop force st cards w = (r, w') →
  cache_inv (placeholder_bytes st) gets →
  net w' = net w ∧ clock w' = clock w ∧
  ∃ new,
    trace w' = trace w ++ new ∧
    Forall (λ e, match e with
                 | EWrite path (Bytes _) => ∃ card, card ∈ cards ∧ path = target_of card
                 | EGet _ _ => True
                 | _ => False
                 end) new ∧
    hit_is_last (gets ++ filter ph_get new).
Proof.
  induction cards as [|card cards IH]; intros st w r w' gets Hrun Hinv.
  - injection Hrun as <- <-. split_and!; try done. exists [].
    rewrite !app_nil_r. split_and!; try done. apply Hinv.
  - simpl in Hrun. cbv [mbind io_bind] in Hrun.
    destruct (download_one force st card w) as [r1 w1] eqn:Hone.
    apply download_one_events in Hone
      as (Hnet1 & Hclock1 & new1 & Htr1 & Hw1 & Hraise & Hok).
    destruct r1 as [st1|e].
    + destruct (Hok st1 eq_refl) as [Hsome Hnone].
      pose proof (cache_inv_step _ (placeholder_bytes st1) _ (filter ph_get new1)
                    Hinv Hsome Hnone) as Hinv1.
      destruct (IH st1 w1 r w' _ Hrun Hinv1)
        as (Hnet & Hclock & new2 & Htr & Hw2 & Hlast).
      split_and!; [congruence|congruence|].
      exists (new1 ++ new2). split_and!.
      * by rewrite Htr, Htr1, app_assoc.
      * apply Forall_app. split.
        -- eapply Forall_impl; [exact Hw1|]. intros [|?|? []]; try done.
           intros ->. exists card. split; [apply elem_of_cons; auto|done].
        -- eapply Forall_impl; [exact Hw2|]. intros [|?|? []]; try done.
           intros (c & Hc & ->). exists c. split; [apply elem_of_cons; auto|done].
      * by rewrite filter_app, app_assoc.
    + injection Hrun as <- <-. rewrite (Hraise e eq_refl) in Htr1.
      split_and!; try done. exists []. split_and!; try done.
      rewrite app_nil_r. apply Hinv.
Qed.

Lemma hit_is_last_at_most_one gets :
  hit_is_last gets → (length (filter ph_hit gets) ≤ 1)%nat.
Proof.
  induction gets as [|e gets IH]; intros Hlast; [simpl; lia|].
  rewrite filter_cons. destruct (ph_hit e) eqn:He; simpl.
  - specialize (Hlast 0%nat e eq_refl He). simpl in Hlast.
    destruct gets; [simpl; lia|done].
  - apply IH. intros i e' Hi Hhit.
    specialize (Hlast (S i) e' Hi Hhit). simpl in Hlast. lia.
Qed.

Lemma filter_hit_get (evs : list event) : filter ph_hit (filter ph_get evs) = filter ph_hit evs.
Proof.
  induction evs as [|e evs IH]; [done|].
  rewrite !filter_cons. destruct (ph_get e) eqn:Hg; simpl.
  - rewrite filter_cons, IH. done.
  - rewrite IH. destruct e as [|url [] |]; simpl in *; try done.
    by rewrite Hg.
Qed.

Lemma requests_made_log_get url a w :
  requests_made (log (EGet url a) w) = S (requests_made w).
Proof.
  unfold requests_made, log. cbn [trace]. rewrite filter_app, length_app.
  simpl. lia.
Qed.

(** A card whose image is not found: what one turn of the loop does. *)
Lemma download_one_not_found force st card w index message :
  py_succ (py_or (c_id card) (PInt 0)) = Ok index →
  bool_decide (is_Some (files w !! target_of card)) && negb force = false →
  net w (requests_made w) (BASE_URL ++ IMAGE_TEMPLATE index)
    = HTTPError 404 message →
  let w1 := log (EGet (BASE_URL ++ IMAGE_TEMPLATE index) (HTTPError 404 message)) w in
  download_one force st card w =
  match placeholder_bytes st with
  | Some data => store_image st (target_of card) data w1
  | None =>
      match net w (S (requests_made w)) PLACEHOLDER_URL with
      | Body data =>
          store_image {| downloaded := downloaded st; errors := errors st;
                         placeholder_bytes := Some data |}
            (target_of card) data (log (EGet PLACEHOLDER_URL (Body data)) w1)
      | failed =>
          (Ok (add_error st (L "placeholder download failed: " ++
                             response_str failed)),
           log (EGet PLACEHOLDER_URL failed) w1)
      end
  end.
Proof.
  intros Hidx Hskip Hnet w1. unfold download_one.
  cbv [mbind io_bind mret io_ret lift exists_ request].
  rewrite Hidx. cbv beta iota zeta. fold (target_of card). rewrite Hskip.
  cbv beta iota zeta. fold (requests_made w). rewrite Hnet.
  cbv beta iota zeta. rewrite decide_True by done.
  destruct (placeholder_bytes st) as [data|]; [done|].
  fold w1. change (length (filter is_get (trace w1))) with (requests_made w1).
  assert (requests_made w1 = S (requests_made w)) as ->
    by apply requests_made_log_get.
  change (net w1) with (net w). fold PLACEHOLDER_URL.
  by destruct (net w (S (requests_made w)) PLACEHOLDER_URL).
Qed.


Example download_images_placeholder_shared :
  let '(r, w') :=
    _download_images [card_with_id 0; card_with_id 1] false live_placeholder_world in
  r = Ok (2%nat, []) ∧
  filter ph_get (trace w') = [EGet PLACEHOLDER_URL (Body (L "PNG-placeholder"))] ∧
  files w' !! target_of (card_with_id 0) = Some (Bytes (L "PNG-placeholder")) ∧
  files w' !! target_of (card_with_id 1) = Some (Bytes (L "PNG-placeholder")).
Proof. vm_compute. split_and!; reflexivity. Qed.



(** ** [update_data]: no partial catalog *)

Lemma update_data_unfold skip_images force_images w :
  update_data skip_images force_images w =
  match script_of w with
  | Raise e => (Raise e, fetched w)
  | Ok raw_js =>
      match parse_all raw_js with
      | Raise e => (Raise e, fetched w)
      | Ok (packs, ability_labels, cards) =>
          finish skip_images force_images packs ability_labels cards (fetched w)
      end
  end.
Proof.
  unfold update_data, script_of, parse_all, fetched, finish.
  cbv [mbind io_bind mret io_ret lift mkdir _http_get request].
  change (length (filter is_get (trace (log (EMkdir DATA_DIR) w))))
    with (requests_made (log (EMkdir DATA_DIR) w)).
  assert (requests_made (log (EMkdir DATA_DIR) w) = requests_made w) as ->.
  { unfold requests_made, log. cbn [trace]. rewrite filter_app.
    simpl. by rewrite app_nil_r. }
  change (net (log (EMkdir DATA_DIR) w)) with (net w).
  destruct (net w (requests_made w) (BASE_URL ++ MASTER_JS_PATH))
    as [raw|status message|message]; [|done..].
  cbv beta iota zeta.
  destruct (decode_utf8 raw) as [raw_js|e]; [|done]. cbv beta iota zeta.
  destruct (_parse_pack_list raw_js) as [packs|e]; [|done].
  cbv [result_bind]. cbv beta iota zeta.
  destruct (_parse_ability_labels raw_js) as [ability_labels|e]; [|done].
  cbv beta iota zeta.
  destruct (_parse_pack_linkage raw_js) as [pack_linkage|e]; [|done].
  cbv beta iota zeta.
  destruct (_parse_card_list raw_js ability_labels pack_linkage) as [cards|e];
    [|done].
  done.
Qed.

Lemma target_not_catalog card : target_of card ≠ CARDS_JSON.
Proof.
  unfold target_of, CARDS_JSON, IMAGES_DIR. rewrite <- app_assoc.
  intros H. apply app_inv_head in H. unfold L in H. simpl in H. congruence.
Qed.

Lemma download_images_writes cards force w r w' :
  _download_images cards force w = (r, w') →
  ∃ new, trace w' = trace w ++ new ∧
    ∀ path c, EWrite path c ∈ new →
      ∃ card data, card ∈ cards ∧ path = target_of card ∧ c = Bytes data.
Proof.
  intros Hrun. unfold _download_images in Hrun.
  cbv [mbind io_bind mret io_ret mkdir] in Hrun.
  destruct (download_loop force _ cards (log (EMkdir IMAGES_DIR) w))
    as [r1 w1] eqn:Hloop.
  apply (download_loop_events _ _ _ _ _ _ []) in Hloop
    as (_ & _ & new & Htr & Hw & _); [|by split].
  assert (w' = w1) as -> by (destruct r1; by injection Hrun as <- <-).
  exists (EMkdir IMAGES_DIR :: new). split.
  - rewrite Htr. cbn [log trace]. by rewrite <- app_assoc.
  - intros path c [Hin|Hin]%elem_of_cons; [done|].
    rewrite Forall_forall in Hw. specialize (Hw _ Hin). simpl in Hw.
    destruct c as [data|]; [|done].
    destruct Hw as (card & Hc & ->). by exists card, data.
Qed.

Lemma fetched_trace w :
  files (fetched w) = files w ∧
  trace (fetched w) =
    trace w ++ [EMkdir DATA_DIR;
                EGet (BASE_URL ++ MASTER_JS_PATH)
                  (net w (requests_made w) (BASE_URL ++ MASTER_JS_PATH))].
Proof. unfold fetched, log. cbn [files trace]. by rewrite <- app_assoc. Qed.

Lemma finish_writes skip_images force_images packs ability_labels cards w r w' :
  finish skip_images force_images packs ability_labels cards w = (r, w') →
  ∃ new, trace w' = trace w ++ new ∧
    ∀ c, EWrite CARDS_JSON c ∈ new →
      (∃ s, r = Ok s) ∧
      ∃ md, c = Json (_build_payload cards packs ability_labels md).
Proof.
  unfold finish. cbv [mbind io_bind mret io_ret _build_metadata now write].
  intros Hrun.
  assert (∃ r1 w1 new1,
            (if negb skip_images then _download_images cards force_images
             else λ w0, (Ok (0%nat, []), w0)) w = (r1, w1) ∧
            trace w1 = trace w ++ new1 ∧
            ∀ c, EWrite CARDS_JSON c ∉ new1)
    as (r1 & w1 & new1 & Hdl & Htr1 & Hno).
  { destruct (negb skip_images).
    - destruct (_download_images cards force_images w) as [r1 w1] eqn:Hdl.
      destruct (download_images_writes _ _ _ _ _ Hdl) as (new1 & Htr1 & Hw).
      exists r1, w1, new1. split_and!; try done.
      intros c Hin. destruct (Hw _ _ Hin) as (card & data & _ & Hp & _).
      by apply (target_not_catalog card).
    - exists (Ok (0%nat, [])), w, []. rewrite app_nil_r. split_and!; try done.
      intros c Hin. by apply elem_of_nil in Hin. }
  rewrite Hdl in Hrun. destruct r1 as [[downloaded errors]|e].
  - cbv beta iota zeta in Hrun. injection Hrun as <- <-. cbn [trace].
    exists (new1 ++ [EWrite CARDS_JSON (Json (_build_payload cards packs
      ability_labels
      {| card_count := length cards; downloaded_images := downloaded;
         fetched_at := clock w1; md_source := BASE_URL ++ MASTER_JS_PATH |}))]).
    split; [by rewrite Htr1, app_assoc|].
    intros c [Hin|Hin]%elem_of_app; [by apply Hno in Hin|].
    apply list_elem_of_singleton in Hin. injection Hin as ->.
    split; by eexists.
  - injection Hrun as <- <-. exists new1. split; [done|].
    intros c Hin. by apply Hno in Hin.
Qed.

Example update_without_card_data :
  let '(r, w') := update_data false false (site script_without_cards) in
  r = Raise (RuntimeError (L "Unable to locate card data in source script.")) ∧
  files w' = ∅ ∧
  trace w' = [EMkdir DATA_DIR;
              EGet (BASE_URL ++ MASTER_JS_PATH) (Body script_without_cards)].
Proof. vm_compute. split_and!; reflexivity. Qed.

Example update_with_card_data :
  let '(r, w') := update_data true false (site script_with_cards) in
  is_ok r = true ∧
  is_Some (files w' !! CARDS_JSON) ∧
  length (trace w') = 3%nat.
Proof. vm_compute. split_and!; try reflexivity. by eexists. Qed.

Lemma parse_all_missing_region js :
  re_search PackListPattern js = None ∨
  re_search AbilityLabelPattern js = None ∨
  re_search CardDataPattern js = None →
  ∃ e, parse_all js = Raise e.
Proof.
  unfold parse_all. intros [H|[H|H]].
  - unfold _parse_pack_list. rewrite H. by eexists.
  - destruct (_parse_pack_list js) as [packs|e]; [|by eexists]. simpl.
    unfold _parse_ability_labels. rewrite H. by eexists.
  - destruct (_parse_pack_list js) as [packs|e]; [|by eexists]. simpl.
    destruct (_parse_ability_labels js) as [labels|e]; [|by eexists]. simpl.
    destruct (_parse_pack_linkage js) as [linkage|e]; [|by eexists]. simpl.
    unfold _parse_card_list. rewrite H. by eexists.
Qed.

Lemma parse_all_malformed js e :
  (∃ found, re_search PackListPattern js = Some found ∧
     _literal_eval (_strip_line_comments (L "[" ++ group1 found ++ L "]"))
       = Raise e) ∨
  (∃ found, re_search AbilityLabelPattern js = Some found ∧
     _literal_eval (_quote_object_keys (_strip_line_comments
       (L "{" ++ group1 found ++ L "}"))) = Raise e) ∨
  (∃ found, re_search PackLinkageBlockPattern js = Some found ∧
     _literal_eval (_quote_object_keys (_strip_line_comments
       (L "{" ++ group1 found ++ L "}"))) = Raise e) ∨
  (∃ found, re_search CardDataPattern js = Some found ∧
     ∀ pack_linkage,
       _literal_eval (_quote_object_keys (substitute_pack_linkage pack_linkage
         (re_sub AbilityRefPattern quote_group
            (_strip_line_comments (group1 found))))) = Raise e) →
  ∃ e', parse_all js = Raise e'.
Proof.
  unfold parse_all. intros [H|[H|[H|H]]]; destruct H as (found & Hf & Hbad).
  - unfold _parse_pack_list. rewrite Hf, Hbad. by eexists.
  - destruct (_parse_pack_list js) as [packs|e0]; [|by eexists]. simpl.
    unfold _parse_ability_labels. rewrite Hf, Hbad. by eexists.
  - destruct (_parse_pack_list js) as [packs|e0]; [|by eexists]. simpl.
    destruct (_parse_ability_labels js) as [labels|e0]; [|by eexists]. simpl.
    unfold _parse_pack_linkage. rewrite Hf, Hbad. by eexists.
  - destruct (_parse_pack_list js) as [packs|e0]; [|by eexists]. simpl.
    destruct (_parse_ability_labels js) as [labels|e0]; [|by eexists]. simpl.
    destruct (_parse_pack_linkage js) as [linkage|e0]; [|by eexists]. simpl.
    unfold _parse_card_list. rewrite Hf, Hbad. by eexists.
Qed.



(** ** The regular-expression engine *)

Lemma span_spec p s run rest :
  span p s = (run, rest) →
  s = run ++ rest ∧ forallb p run = true ∧
  match rest with [] => True | c :: _ => p c = false end.
Proof.
  revert run rest. induction s as [|c s IH]; intros run rest; simpl.
  - intros [= <- <-]. done.
  - destruct (p c) eqn:Hc.
    + destruct (span p s) as [run' rest'] eqn:Hs. intros [= <- <-].
      destruct (IH _ _ eq_refl) as (-> & Hall & Hrest). simpl.
      by rewrite Hc, Hall.
    + intros [= <- <-]. simpl. by rewrite Hc.
Qed.

(** The run found by [span] is the longest prefix within the class. *)
Lemma span_longest p s run rest m t :
  span p s = (run, rest) → s = m ++ t → forallb p m = true →
  ∃ m', run = m ++ m' ∧ t = m' ++ rest.
Proof.
  revert run rest m t. induction s as [|c s IH]; intros run rest m t Hsp Hs Hm.
  - injection Hsp as <- <-. symmetry in Hs. apply app_eq_nil in Hs as [-> ->].
    by exists [].
  - destruct m as [|a m].
    + apply span_spec in Hsp as (Hs' & _ & _). exists run.
      simpl in Hs. by rewrite <- Hs, Hs'.
    + simpl in Hs, Hm, Hsp. injection Hs as <- ->.
      apply andb_true_iff in Hm as [Ha Hm]. rewrite Ha in Hsp.
      destruct (span p (m ++ t)) as [run' rest'] eqn:Hs.
      injection Hsp as <- <-.
      destruct (IH _ _ _ _ eq_refl eq_refl Hm) as (m' & -> & ->). by exists m'.
Qed.

Lemma splits_spec run rest m r :
  (m, r) ∈ splits run rest ↔ ∃ m', run = m ++ m' ∧ r = m' ++ rest.
Proof.
  revert m r. induction run as [|c run IH]; intros m r; simpl.
  - rewrite list_elem_of_singleton. split.
    + intros [= -> ->]. by exists [].
    + intros (m' & Hm & ->). symmetry in Hm. apply app_eq_nil in Hm as [-> ->].
      done.
  - rewrite elem_of_cons, list_elem_of_fmap. split.
    + intros [[= -> ->]|([m0 r0] & [= -> ->] & Hin)].
      * by exists (c :: run).
      * apply IH in Hin as (m' & -> & ->). by exists m'.
    + intros (m' & Hm & ->). destruct m as [|a m].
      * left. simpl in Hm. by subst m'.
      * right. injection Hm as <- ->. exists (m, m' ++ rest). split; [done|].
        apply IH. by exists m'.
Qed.

Lemma splits_head run rest : head (splits run rest) = Some ([], run ++ rest).
Proof. by destruct run. Qed.

Lemma splits_last run rest : last (splits run rest) = Some (run, rest).
Proof.
  induction run as [|c run IH]; [done|]. simpl splits.
  rewrite last_cons. rewrite fmap_last, IH. done.
Qed.

Lemma strip_prefix_of_spec l s rest :
  strip_prefix_of l s = Some rest ↔ s = l ++ rest.
Proof.
  revert s. induction l as [|a l IH]; intros s; simpl.
  - naive_solver.
  - destruct s as [|b s]; [naive_solver|].
    destruct (decide (a = b)) as [->|Hne]; [|naive_solver].
    rewrite IH. naive_solver.
Qed.

Lemma strip_prefix_of_app l rest : strip_prefix_of l (l ++ rest) = Some rest.
Proof. by apply strip_prefix_of_spec. Qed.

Lemma rmatch_class_spec p s run rest m r :
  span p s = (run, rest) →
  (m, r) ∈ splits run rest ↔ s = m ++ r ∧ forallb p m = true.
Proof.
  intros Hsp. rewrite splits_spec.
  pose proof (span_spec _ _ _ _ Hsp) as (Hs & Hall & _). split.
  - intros (m' & -> & ->). rewrite Hs, <- app_assoc. split; [done|].
    rewrite forallb_app in Hall. by apply andb_true_iff in Hall as [? _].
  - intros [Hs' Hm]. by eapply span_longest.
Qed.

(** The engine is sound and complete for the declarative reading. *)
Theorem rmatch_spec r : ∀ prev s m rest g,
  (m, rest, g) ∈ rmatch r prev s ↔ s = m ++ rest ∧ matches r prev m rest g.
Proof.
  induction r as [l|p|p|p|p|r1 IH1 r2 IH2|r1 IH1| | ];
    intros prev s m rest g; simpl.
  - destruct (strip_prefix_of l s) as [rest'|] eqn:Hl.
    + apply strip_prefix_of_spec in Hl as ->. rewrite list_elem_of_singleton.
      split; [by intros [= -> -> ->]|].
      intros (Hs & -> & ->). by apply app_inv_head in Hs as ->.
    + split; [by intros ?%elem_of_nil|]. intros (-> & -> & ->).
      by rewrite strip_prefix_of_app in Hl.
  - destruct s as [|c s].
    + split; [by intros ?%elem_of_nil|]. intros (Hs & c & -> & _). done.
    + destruct (p c) eqn:Hc.
      * rewrite list_elem_of_singleton. split.
        -- intros [= -> -> ->]. split; [done|]. by exists c.
        -- intros (Hs & c' & -> & _ & ->). by injection Hs as <- <-.
      * split; [by intros ?%elem_of_nil|].
        intros (Hs & c' & -> & Hp & _). injection Hs as <- _. congruence.
  - destruct (span p s) as [run rest'] eqn:Hsp. rewrite list_elem_of_fmap.
    split.
    + intros ([m0 r0] & [= -> -> ->] & Hin). rewrite elem_of_reverse in Hin.
      by apply (rmatch_class_spec _ _ _ _ _ _ Hsp) in Hin as [-> ?].
    + intros (Hs & Hm & ->). exists (m, rest). split; [done|].
      rewrite elem_of_reverse. by apply (rmatch_class_spec _ _ _ _ _ _ Hsp).
  - destruct (span p s) as [run rest'] eqn:Hsp. rewrite list_elem_of_fmap.
    split.
    + intros ([m0 r0] & [= -> -> ->] & Hin). rewrite elem_of_reverse in Hin.
      assert ((m0, r0) ∈ splits run rest' ∧ m0 ≠ []) as [Hin' Hne].
      { destruct run as [|c run]; simpl in Hin; [by apply elem_of_nil in Hin|].
        split; [simpl; apply elem_of_cons; by right|].
        apply list_elem_of_fmap in Hin as ([? ?] & [= -> ->] & _). done. }
      by apply (rmatch_class_spec _ _ _ _ _ _ Hsp) in Hin' as [-> ?].
    + intros (Hs & Hne & Hm & ->). exists (m, rest). split; [done|].
      rewrite elem_of_reverse.
      assert ((m, rest) ∈ splits run rest') as Hin
        by by apply (rmatch_class_spec _ _ _ _ _ _ Hsp).
      destruct run as [|c run]; simpl in *.
      * apply list_elem_of_singleton in Hin. by injection Hin as -> _.
      * apply elem_of_cons in Hin as [[= -> _]|Hin]; done.
  - destruct (span p s) as [run rest'] eqn:Hsp. rewrite list_elem_of_fmap.
    split.
    + intros ([m0 r0] & [= -> -> ->] & Hin).
      by apply (rmatch_class_spec _ _ _ _ _ _ Hsp) in Hin as [-> ?].
    + intros (Hs & Hm & ->). exists (m, rest). split; [done|].
      by apply (rmatch_class_spec _ _ _ _ _ _ Hsp).
  - rewrite list_elem_of_bind. split.
    + intros ([[m1 s1] g1] & Hin & Hin1). apply list_elem_of_bind in Hin
        as ([[m2 s2] g2] & Hin & Hin2).
      apply list_elem_of_singleton in Hin. injection Hin as -> -> ->.
      apply IH1 in Hin1 as [-> H1]. apply IH2 in Hin2 as [-> H2].
      split; [by rewrite app_assoc|]. by exists m1, m2, g1, g2.
    + intros (-> & m1 & m2 & g1 & g2 & -> & -> & H1 & H2).
      exists (m1, m2 ++ rest, g1). split.
      * apply list_elem_of_bind. exists (m2, rest, g2). split.
        -- by apply list_elem_of_singleton.
        -- by apply IH2.
      * apply IH1. by rewrite app_assoc.
  - rewrite list_elem_of_bind. split.
    + intros ([[m1 s1] g1] & Hin & Hin1).
      apply list_elem_of_singleton in Hin. injection Hin as -> -> ->.
      apply IH1 in Hin1 as [-> H1]. split; [done|]. by exists g1.
    + intros (-> & g' & -> & H1). exists (m, rest, g'). split.
      * by apply list_elem_of_singleton.
      * by apply IH1.
  - destruct prev as [c|].
    + destruct (decide (c = newline)) as [->|Hne].
      * rewrite list_elem_of_singleton. split.
        -- intros [= -> -> ->]. split_and!; try done. by right.
        -- by intros (-> & -> & -> & _).
      * split; [by intros ?%elem_of_nil|].
        intros (_ & _ & _ & [?|[= ?]]); done.
    + rewrite list_elem_of_singleton. split.
      * intros [= -> -> ->]. split_and!; try done. by left.
      * by intros (-> & -> & -> & _).
  - destruct s as [|c s].
    + rewrite list_elem_of_singleton. split.
      * intros [= -> -> ->]. split_and!; try done. by left.
      * intros (Hs & -> & -> & _). simpl in Hs. by subst rest.
    + destruct (decide (c = newline)) as [->|Hne].
      * rewrite list_elem_of_singleton. split.
        -- intros [= -> -> ->]. split_and!; try done. right. by eexists.
        -- intros (Hs & -> & -> & _). simpl in Hs. by subst rest.
      * split; [by intros ?%elem_of_nil|].
        intros (Hs & -> & _ & [->|[t ->]]); [done|].
        simpl in Hs. congruence.
Qed.

Lemma match_at_sound r prev s m rest g :
  match_at r prev s = Some (m, rest, g) →
  s = m ++ rest ∧ matches r prev m rest g.
Proof.
  unfold match_at. intros H. apply rmatch_spec.
  destruct (rmatch r prev s); [done|]. injection H as ->. apply elem_of_cons; auto.
Qed.

Lemma match_at_None r prev s :
  match_at r prev s = None ↔
  ∀ m rest g, s = m ++ rest → ¬ matches r prev m rest g.
Proof.
  unfold match_at. split.
  - intros H m rest g Hs Hm.
    assert ((m, rest, g) ∈ rmatch r prev s) as Hin by by apply rmatch_spec.
    destruct (rmatch r prev s); [by apply elem_of_nil in Hin|done].
  - intros H. destruct (rmatch r prev s) as [|[[m rest] g] l] eqn:Hr; [done|].
    assert ((m, rest, g) ∈ rmatch r prev s) as Hin
      by (rewrite Hr; apply elem_of_cons; auto).
    apply rmatch_spec in Hin as [Hs Hm]. by destruct (H m rest g).
Qed.

Lemma rmatch_anchor_free r : ∀ prev prev' s,
  anchor_free r = true → rmatch r prev s = rmatch r prev' s.
Proof.
  induction r as [l|p|p|p|p|r1 IH1 r2 IH2|r1 IH1| | ];
    intros prev prev' s Hfree; simpl in *; try done.
  - apply andb_true_iff in Hfree as [H1 H2].
    apply list_bind_ext; [|by apply IH1]. intros [[m1 s1] g1].
    apply list_bind_ext; [done|by apply IH2].
  - apply list_bind_ext; [done|by apply IH1].
Qed.

Lemma match_at_anchor_free r prev prev' s :
  anchor_free r = true → match_at r prev s = match_at r prev' s.
Proof. intros H. unfold match_at. by rewrite (rmatch_anchor_free r prev prev'). Qed.

(** *** [pattern.sub] *)

Lemma sub_go_fuel r repl : ∀ fuel1 fuel2 prev s,
  (length s < fuel1)%nat → (length s < fuel2)%nat →
  sub_go fuel1 r repl prev s = sub_go fuel2 r repl prev s.
Proof.
  induction fuel1 as [|fuel1 IH]; intros fuel2 prev s H1 H2; [lia|].
  destruct fuel2 as [|fuel2]; [lia|]. simpl.
  assert (match s with
          | [] => []
          | c :: s' => c :: sub_go fuel1 r repl (Some c) s'
          end =
          match s with
          | [] => []
          | c :: s' => c :: sub_go fuel2 r repl (Some c) s'
          end) as Hcopy.
  { destruct s as [|c s']; [done|]. f_equal. apply IH; simpl in *; lia. }
  destruct (match_at r prev s) as [[[m rest] g]|] eqn:Hm; [|done].
  destruct m as [|a m]; [by rewrite Hcopy|].
  f_equal. apply match_at_sound in Hm as [-> _].
  rewrite length_app in H1, H2. simpl in *. apply IH; lia.
Qed.

Lemma sub_go_S fuel r repl prev s :
  sub_go (S fuel) r repl prev s =
  let copy :=
    match s with
    | [] => []
    | c :: s' => c :: sub_go fuel r repl (Some c) s'
    end in
  match match_at r prev s with
  | Some ([], _, g) => repl [] g ++ copy
  | Some (m, rest, g) => repl m g ++ sub_go fuel r repl (last_or prev m) rest
  | None => copy
  end.
Proof. done. Qed.

Lemma re_sub_from_match r repl prev s a m rest g :
  match_at r prev s = Some (a :: m, rest, g) →
  re_sub_from r repl prev s =
  repl (a :: m) g ++ re_sub_from r repl (last_or prev (a :: m)) rest.
Proof.
  intros Hm. unfold re_sub_from. rewrite (sub_go_S (length s)), Hm.
  cbv beta iota zeta. f_equal.
  apply match_at_sound in Hm as [-> _]. apply sub_go_fuel.
  - rewrite length_app. simpl. lia.
  - lia.
Qed.

Lemma re_sub_from_skip r repl prev c s :
  match_at r prev (c :: s) = None →
  re_sub_from r repl prev (c :: s) = c :: re_sub_from r repl (Some c) s.
Proof.
  intros Hm. unfold re_sub_from. by rewrite (sub_go_S (length (c :: s))), Hm.
Qed.

Lemma re_sub_from_nil r repl prev :
  match_at r prev [] = None → re_sub_from r repl prev [] = [].
Proof. intros Hm. unfold re_sub_from. by rewrite sub_go_S, Hm. Qed.

Lemma sub_go_anchor_free r repl : ∀ fuel prev prev' s,
  anchor_free r = true →
  sub_go fuel r repl prev s = sub_go fuel r repl prev' s.
Proof.
  induction fuel as [|fuel IH]; intros prev prev' s Hfree; [done|].
  rewrite !sub_go_S. rewrite (match_at_anchor_free r prev prev') by done.
  cbv zeta.
  assert (match s with
          | [] => []
          | c :: s' => c :: sub_go fuel r repl (Some c) s'
          end = match s with
                | [] => []
                | c :: s' => c :: sub_go fuel r repl (Some c) s'
                end) as Hcopy by done.
  destruct (match_at r prev' s) as [[[[|a m] rest] g]|]; try done.
  f_equal. by apply IH.
Qed.

Lemma re_sub_from_anchor_free r repl prev s :
  anchor_free r = true → re_sub_from r repl prev s = re_sub r repl s.
Proof. intros Hfree. unfold re_sub, re_sub_from. by apply sub_go_anchor_free. Qed.

(** A part of the text where the pattern matches nowhere is copied. *)
Lemma re_sub_skip_prefix r repl pre s :
  anchor_free r = true →
  (∀ i, (i < length pre)%nat → match_at r None (drop i (pre ++ s)) = None) →
  re_sub r repl (pre ++ s) = pre ++ re_sub r repl s.
Proof.
  intros Hfree. induction pre as [|c pre IH]; intros Hno; [done|].
  rewrite <- (re_sub_from_anchor_free r repl None) by done. simpl.
  rewrite re_sub_from_skip.
  - rewrite re_sub_from_anchor_free by done. f_equal. apply IH.
    intros i Hi. apply (Hno (S i)). simpl. lia.
  - apply (Hno 0%nat). simpl. lia.
Qed.

Lemma re_sub_no_match r repl s :
  anchor_free r = true →
  (∀ i, match_at r None (drop i s) = None) →
  re_sub r repl s = s.
Proof.
  intros Hfree Hno.
  rewrite <- (app_nil_r s) at 1. rewrite re_sub_skip_prefix; try done.
  - rewrite <- (re_sub_from_anchor_free r repl None) by done.
    rewrite re_sub_from_nil; [by rewrite app_nil_r|].
    specialize (Hno (length s)). by rewrite drop_all in Hno.
  - intros i _. rewrite app_nil_r. apply Hno.
Qed.

Lemma re_sub_match r repl s a m rest g :
  anchor_free r = true →
  match_at r None s = Some (a :: m, rest, g) →
  re_sub r repl s = repl (a :: m) g ++ re_sub r repl rest.
Proof.
  intros Hfree Hm.
  rewrite <- (re_sub_from_anchor_free r repl None) by done.
  rewrite (re_sub_from_match _ _ _ _ _ _ _ _ Hm).
  by rewrite re_sub_from_anchor_free.
Qed.

(** *** The first match of some pattern shapes *)

Lemma head_bind_singleton {A B} (f : A → B) (l : list A) :
  head (l ≫= λ x, [f x]) = f <$> head l.
Proof. by destruct l. Qed.

Lemma head_fmap {A B} (f : A → B) (l : list A) : head (f <$> l) = f <$> head l.
Proof. by destruct l. Qed.

Lemma match_at_group r prev s :
  match_at (RGroup r) prev s =
  (λ '(m, rest, g), (m, rest, m :: g)) <$> match_at r prev s.
Proof.
  unfold match_at. simpl. destruct (rmatch r prev s) as [|[[m rest] g] l]; done.
Qed.

Lemma match_at_lit_cat l r prev s :
  match_at (RCat (RLit l) r) prev s =
  match strip_prefix_of l s with
  | Some s1 =>
      (λ '(m, rest, g), (l ++ m, rest, g)) <$> match_at r (last_or prev l) s1
  | None => None
  end.
Proof.
  unfold match_at. simpl. destruct (strip_prefix_of l s) as [s1|]; [|done].
  rewrite bind_singleton.
  destruct (rmatch r (last_or prev l) s1) as [|[[m rest] g] l']; done.
Qed.

Lemma match_at_plus p prev s :
  match_at (RPlus p) prev s =
  match span p s with
  | ([], _) => None
  | (run, rest) => Some (run, rest, [])
  end.
Proof.
  unfold match_at. simpl. destruct (span p s) as [run rest].
  rewrite head_fmap, head_reverse.
  destruct run as [|c run]; [done|]. simpl tail.
  rewrite fmap_last, splits_last. done.
Qed.

Lemma span_app p run c rest :
  forallb p run = true → p c = false → span p (run ++ c :: rest) = (run, c :: rest).
Proof.
  intros Hrun Hc. induction run as [|a run IH]; simpl.
  - by rewrite Hc.
  - simpl in Hrun. apply andb_true_iff in Hrun as [-> Hrun]. by rewrite IH.
Qed.

Lemma span_all p run : forallb p run = true → span p run = (run, []).
Proof.
  intros Hrun. induction run as [|a run IH]; simpl; [done|].
  simpl in Hrun. apply andb_true_iff in Hrun as [-> Hrun]. by rewrite IH.
Qed.

(** *** [PackLinkagePattern] *)

Lemma match_at_pack_linkage prev s :
  match_at PackLinkagePattern prev s =
  match strip_prefix_of linkage_prefix s with
  | Some s1 =>
      match span ident_char s1 with
      | ([], _) => None
      | (ident, rest) => Some (linkage_prefix ++ ident, rest, [ident])
      end
  | None => None
  end.
Proof.
  unfold PackLinkagePattern. rewrite match_at_lit_cat. fold linkage_prefix.
  destruct (strip_prefix_of linkage_prefix s) as [s1|]; [|done].
  rewrite match_at_group, match_at_plus.
  by destruct (span ident_char s1) as [[|c ident] rest].
Qed.

Lemma match_at_pack_linkage_None prev s :
  match_at PackLinkagePattern prev s = None ↔ ¬ linkage_ref s.
Proof.
  rewrite match_at_pack_linkage. unfold linkage_ref. split.
  - intros H (c & rest & -> & Hc). rewrite strip_prefix_of_app in H.
    simpl in H. rewrite Hc in H. by destruct (span ident_char rest).
  - intros H. destruct (strip_prefix_of linkage_prefix s) as [s1|] eqn:Hs; [|done].
    apply strip_prefix_of_spec in Hs as ->.
    destruct s1 as [|c rest]; [done|]. simpl.
    destruct (ident_char c) eqn:Hc; [|done]. destruct H. by exists c, rest.
Qed.

Lemma match_at_pack_linkage_ref prev ident rest :
  ident ≠ [] → forallb ident_char ident = true →
  match rest with [] => True | c :: _ => ident_char c = false end →
  match_at PackLinkagePattern prev (linkage_prefix ++ ident ++ rest) =
  Some (linkage_prefix ++ ident, rest, [ident]).
Proof.
  intros Hne Hid Hrest. rewrite match_at_pack_linkage, strip_prefix_of_app.
  assert (span ident_char (ident ++ rest) = (ident, rest)) as ->.
  { destruct rest as [|c rest]; [rewrite app_nil_r; by apply span_all|].
    by apply span_app. }
  by destruct ident.
Qed.

(** ** The [packLinkage] references *)

Lemma linkage_repl_value pack_linkage m ident :
  linkage_repl pack_linkage m [ident] =
  L "'" ++ linkage_value pack_linkage ident ++ L "'".
Proof.
  unfold linkage_repl, linkage_value, dict_get_default. simpl.
  by destruct (dict_get pack_linkage ident).
Qed.

Example linkage_rewritten :
  substitute_pack_linkage [(L "A", PStr (L "alpha"))]
    (L "[{src: packLinkage.A}, {src: packLinkage.B_2}]")
  = L "[{src: 'alpha'}, {src: 'B_2'}]".
Proof. vm_compute. reflexivity. Qed.




(** ** Key quoting *)

Lemma ident_start_not_space c : ident_start c = true → is_space c = false.
Proof. destruct c as [[] [] [] [] [] [] [] []]; vm_compute; congruence. Qed.

Lemma space_not_ident_char c : is_space c = true → ident_char c = false.
Proof. destruct c as [[] [] [] [] [] [] [] []]; vm_compute; congruence. Qed.

Lemma key_at_spec s prefix key after rest :
  key_at s = Some (prefix, key, after, rest) ↔ key_site s prefix key after rest.
Proof.
  unfold key_site. split.
  - unfold key_at. intros H. destruct s as [|c s1]; [done|].
    destruct (one_of "{,[" c) eqn:Hc; [|done].
    destruct (span is_space s1) as [ws s2] eqn:Hws.
    destruct s2 as [|k0 s3]; [done|].
    destruct (ident_start k0) eqn:Hk0; [|done].
    destruct (span ident_char s3) as [k s4] eqn:Hk.
    destruct (span is_space s4) as [aft s5] eqn:Haft.
    destruct s5 as [|d rest']; [done|].
    destruct (decide (d = ":"%char)) as [->|]; [|done].
    injection H as <- <- <- <-.
    apply span_spec in Hws as (-> & Hws & _).
    apply span_spec in Hk as (-> & Hk & _).
    apply span_spec in Haft as (-> & Haft & _).
    split_and!; [|by exists c, ws|by exists k0, k|done].
    reflexivity.
  - intros (-> & (c & ws & -> & Hc & Hws) & (k0 & k & -> & Hk0 & Hk) & Haft).
    unfold key_at. simpl. rewrite Hc.
    rewrite (span_app is_space ws k0) by auto using ident_start_not_space.
    rewrite Hk0.
    assert (span ident_char (k ++ after ++ ":"%char :: rest) =
            (k, after ++ ":"%char :: rest)) as ->.
    { destruct after as [|a after]; simpl.
      - by apply span_app.
      - simpl in Haft. apply andb_true_iff in Haft as [Ha _].
        apply span_app; [done|]. by apply space_not_ident_char. }
    rewrite (span_app is_space after ":"%char) by done.
    by rewrite decide_True.
Qed.

Lemma matches_key prev m rest g :
  matches KEY_PATTERN prev m rest g ↔
  ∃ prefix key after,
    key_site (m ++ rest) prefix key after rest ∧
    m = prefix ++ key ++ after ++ L ":" ∧ g = [prefix; key].
Proof.
  unfold KEY_PATTERN, key_site. simpl. split.
  - intros (m1 & m234 & g1 & g234 & -> & -> &
            (g1' & -> & (a & b & ga & gb & -> & -> &
               (c & -> & Hc & ->) & (Hws & ->))) &
            (m2 & m34 & g2 & g34 & -> & -> &
               (g2' & -> & (a2 & b2 & ga2 & gb2 & -> & -> &
                  (k0 & -> & Hk0 & ->) & (Hk & ->))) &
               (m3 & m4 & g3 & g4 & -> & -> & (Haft & ->) & (-> & ->)))).
    exists ([c] ++ b), ([k0] ++ b2), m3. split_and!; try done.
    + by rewrite <- !app_assoc.
    + by exists c, b.
    + by exists k0, b2.
  - intros (prefix & key & after & (Hs & (c & ws & -> & Hc & Hws) &
            (k0 & k & -> & Hk0 & Hk) & Haft) & -> & ->).
    exists (c :: ws), ((k0 :: k) ++ after ++ L ":"), [c :: ws], [k0 :: k].
    split_and!; try done.
    + exists []. split; [done|]. exists [c], ws, [], []. split_and!; try done.
      by exists c.
    + exists (k0 :: k), (after ++ L ":"), [k0 :: k], []. split_and!; try done.
      * exists []. split; [done|]. exists [k0], k, [], [].
        split_and!; try done. by exists k0.
      * exists after, (L ":"), [], []. by split_and!.
Qed.

Lemma match_at_key prev s :
  match_at KEY_PATTERN prev s =
  (λ '(prefix, key, after, rest),
     (prefix ++ key ++ after ++ L ":", rest, [prefix; key])) <$> key_at s.
Proof.
  destruct (key_at s) as [[[[prefix key] after] rest]|] eqn:Hk; simpl.
  - apply key_at_spec in Hk.
    assert ((prefix ++ key ++ after ++ L ":", rest, [prefix; key])
              ∈ rmatch KEY_PATTERN prev s) as Hin.
    { apply rmatch_spec. destruct Hk as [Hs Hk]. split.
      - by rewrite Hs, <- !app_assoc.
      - apply matches_key. exists prefix, key, after. split_and!; try done.
        rewrite <- !app_assoc. rewrite <- Hs. by split. }
    unfold match_at.
    destruct (rmatch KEY_PATTERN prev s) as [|[[m r] g] l] eqn:Hr;
      [by apply elem_of_nil in Hin|].
    assert ((m, r, g) ∈ rmatch KEY_PATTERN prev s) as Hx
      by (rewrite Hr; apply elem_of_cons; auto).
    apply rmatch_spec in Hx as [-> Hx].
    apply matches_key in Hx as (p' & k' & a' & Hsite & -> & ->).
    rewrite <- !app_assoc in Hsite. apply key_at_spec in Hsite.
    rewrite <- !app_assoc in Hk. apply key_at_spec in Hk.
    rewrite <- !app_assoc in *. rewrite Hk in Hsite.
    by injection Hsite as <- <- <- <-.
  - apply match_at_None. intros m rest g -> Hm.
    apply matches_key in Hm as (p' & k' & a' & Hsite & _).
    apply key_at_spec in Hsite. congruence.
Qed.

Lemma match_at_key_None prev s :
  match_at KEY_PATTERN prev s = None ↔
  ¬ ∃ prefix key after rest, key_site s prefix key after rest.
Proof.
  rewrite match_at_key. split.
  - intros H (p & k & a & r & Hsite). apply key_at_spec in Hsite.
    by rewrite Hsite in H.
  - intros H. destruct (key_at s) as [[[[p k] a] r]|] eqn:Hk; [|done].
    destruct H. exists p, k, a, r. by apply key_at_spec.
Qed.

Lemma quote_key_groups m prefix key :
  quote_key m [prefix; key] = prefix ++ L "'" ++ key ++ L "':".
Proof. done. Qed.

Example quote_keys_example :
  _quote_object_keys (L "{a: 1, 'b': 2, c : [x, {d_1:3}]}")
  = L "{'a': 1, 'b': 2, 'c': [x, {'d_1':3}]}".
Proof. vm_compute. reflexivity. Qed.

(** An identifier in a string literal value, after a comma and before a
    colon, is quoted like a key. *)
Lemma quote_object_keys_in_string :
  _quote_object_keys (L "{a: 'x, b: y'}") = L "{'a': 'x, 'b': y'}".
Proof. vm_compute. reflexivity. Qed.

(** C6, as amended.  The transform quotes exactly the identifiers at the key
    sites of the text, scanned from the left: (1) a text without key site
    is unchanged; (2) up to the first key site the text is copied, there
    the identifier is wrapped in single quotes (the white space before the
    colon dropped) and the scan goes on after the colon; (3) an identifier
    that is already quoted is at no key site.  What the identifier is part
    of (a key, or the content of a string literal) plays no role. *)
Theorem quote_object_keys_spec :
  (∀ t, (∀ i, ¬ ∃ prefix key after rest,
               key_site (drop i t) prefix key after rest) →
     _quote_object_keys t = t) ∧
  (∀ pre s prefix key after rest,
     key_site s prefix key after rest →
     (∀ i, (i < length pre)%nat →
        ¬ ∃ prefix' key' after' rest',
            key_site (drop i (pre ++ s)) prefix' key' after' rest') →
     _quote_object_keys (pre ++ s) =
     pre ++ prefix ++ L "'" ++ key ++ L "':" ++ _quote_object_keys rest) ∧
  (∀ c ws q t,
     forallb is_space ws = true → q = "'"%char ∨ q = dquote →
     ¬ ∃ prefix key after rest,
         key_site (c :: ws ++ q :: t) prefix key after rest).
Proof.
  unfold _quote_object_keys. split_and!.
  - intros t Hno. apply re_sub_no_match; [done|].
    intros i. by apply match_at_key_None.
  - intros pre s prefix key after rest Hsite Hno.
    rewrite re_sub_skip_prefix; [|done|].
    2: { intros i Hi. by apply match_at_key_None, Hno. }
    f_equal. apply key_at_spec in Hsite as Hk.
    pose proof (match_at_key None s) as Hm. rewrite Hk in Hm. simpl in Hm.
    destruct Hsite as (_ & (c & ws & -> & _) & _).
    rewrite (re_sub_match _ _ _ c (ws ++ key ++ after ++ L ":") rest
               [c :: ws; key]); [|done|done].
    rewrite quote_key_groups. by rewrite <- !app_assoc.
  - intros c ws q t Hws Hq (prefix & key & after & rest & Hsite).
    apply key_at_spec in Hsite. unfold key_at in Hsite.
    destruct (one_of "{,[" c); [|done].
    rewrite (span_app is_space ws q) in Hsite;
      [|done|by destruct Hq as [-> | ->]].
    by destruct Hq as [-> | ->].
Qed.

Lemma quote_object_keys_spec_witness :
  _quote_object_keys (L "x = " ++ L "{ name : 1}") =
  L "x = " ++ L "{ " ++ L "'" ++ L "name" ++ L "':" ++
  _quote_object_keys (L " 1}").
Proof.
  apply (proj1 (proj2 quote_object_keys_spec)
           (L "x = ") (L "{ name : 1}") (L "{ ") (L "name") (L " ") (L " 1}")).
  - apply key_at_spec. vm_compute. reflexivity.
  - intros i Hi. apply (match_at_key_None None).
    assert (i = 0 ∨ i = 1 ∨ i = 2 ∨ i = 3)%nat as [-> | [-> | [-> | ->]]]
      by (simpl in Hi; lia); vm_compute; reflexivity.
Defined.

(** ** Tags, abilities and packs of a normalized card *)

Lemma fields_skip sep run rest :
  forallb sep run = true → fields sep [] (run ++ rest) = fields sep [] rest.
Proof.
  induction run as [|c run IH]; [done|]. simpl.
  intros [-> Hrun]%andb_true_iff. by apply IH.
Qed.

Lemma fields_spec sep : ∀ s cur,
  forallb (λ c, negb (sep c)) cur = true →
  Forall (λ w, w ≠ [] ∧ forallb (λ c, negb (sep c)) w = true) (fields sep cur s) ∧
  concat (fields sep cur s) = cur ++ filter (λ c, negb (sep c)) s.
Proof.
  induction s as [|c s IH]; intros cur Hcur; simpl.
  - destruct cur; simpl; [done|]. rewrite !app_nil_r.
    split; [|done]. by repeat constructor.
  - rewrite filter_cons. destruct (sep c) eqn:Hc; simpl.
    + destruct (IH [] eq_refl) as [Hall Hcat]. destruct cur as [|a cur].
      * done.
      * split; [by constructor|]. simpl. by rewrite Hcat.
    + destruct (IH (cur ++ [c])) as [Hall Hcat].
      { rewrite forallb_app, Hcur. simpl. by rewrite Hc. }
      split; [done|]. rewrite Hcat. by rewrite <- app_assoc.
Qed.

Lemma split_go_fields : ∀ fuel prev piece s,
  (length s < fuel)%nat →
  filter (λ part, part ≠ []) (split_go fuel TagSeparator prev piece s)
  = fields tag_sep piece s.
Proof.
  induction fuel as [|fuel IH]; intros prev piece s Hfuel; [lia|].
  destruct s as [|c s]; simpl.
  - destruct piece; done.
  - unfold TagSeparator at 1. rewrite match_at_plus. simpl span.
    destruct (tag_sep c) eqn:Hc.
    + destruct (span tag_sep s) as [run rest] eqn:Hsp.
      apply span_spec in Hsp as (-> & Hrun & _).
      rewrite filter_cons. simpl app.
      rewrite IH by (simpl in Hfuel; rewrite length_app in Hfuel; lia).
      rewrite fields_skip by done. by destruct piece.
    + apply IH. simpl in Hfuel. lia.
Qed.

Lemma normalize_tags_str s :
  _normalize_tags (PStr s) = Ok (fields tag_sep [] s).
Proof.
  unfold _normalize_tags. destruct s as [|c s]; [done|].
  simpl negb. cbv iota. f_equal. unfold re_split. apply split_go_fields. lia.
Qed.

Lemma label_all_codes ability_labels : ∀ codes abilities,
  label_all ability_labels codes = Ok abilities → abilities.*1 = codes.
Proof.
  induction codes as [|code codes IH]; intros abilities; simpl.
  - by intros [= <-].
  - destruct (label_of ability_labels code) as [label|]; simpl; [|done].
    destruct (label_all ability_labels codes) as [rest|]; simpl; [|done].
    intros [= <-]. simpl. f_equal. by apply IH.
Qed.

Lemma normalize_card_fields card ability_labels c :
  _normalize_card card ability_labels = Ok c →
  _normalize_tags (dict_get_default card (L "tag") PNone) = Ok (c_tags c) ∧
  c_packs c = dict_get_default card (L "pack") (PList []) ∧
  ∃ codes,
    py_list (py_or (dict_get_default card (L "ability") (PList [])) (PList []))
      = Ok codes ∧
    label_all ability_labels codes = Ok (c_abilities c).
Proof.
  unfold _normalize_card. intros H.
  destruct (normalize_text _) as [t|]; simpl in H; [|done].
  destruct (image_name _) as [im|]; simpl in H; [|done].
  destruct (_normalize_tags _) as [tags|]; simpl in H; [|done].
  destruct (py_list _) as [codes|]; simpl in H; [|done].
  destruct (label_all _ _) as [abilities|] eqn:Hl; simpl in H; [|done].
  injection H as <-. simpl. split_and!; try done. by exists codes.
Qed.

Example tags_example :
  _normalize_tags (PStr (L "a, b  c")) = Ok [L "a"; L "b"; L "c"].
Proof. vm_compute. reflexivity. Qed.

(** A null entry of the raw pack list is an entry of [packs]. *)
Lemma packs_keep_null_entries :
  ∃ c, _normalize_card [(L "id", PInt 0); (L "pack", PList [PNone; PInt 2])] []
         = Ok c ∧
       c_packs c = PList [PNone; PInt 2].
Proof. eexists. split; [vm_compute; reflexivity|]. reflexivity. Qed.

(** A raw [pack] that is null is passed on as null, where a null [ability]
    becomes the empty list. *)
Example null_pack_and_null_ability :
  ∃ c, _normalize_card
         [(L "id", PInt 0); (L "pack", PNone); (L "ability", PNone)] [] = Ok c ∧
       c_packs c = PNone ∧ c_abilities c = [].
Proof. eexists. split; [vm_compute; reflexivity|]. by split. Qed.

(** C8, as amended.  [tags]: an absent, null or empty raw tag gives the
    empty list; a raw tag string gives its maximal runs of characters other
    than white space and commas, in order, so every entry is a non-empty
    string without separator and no other character is lost.  [abilities]:
    an absent, null or empty raw ability field gives the empty list; a list
    of codes gives one (code, label) entry per code, in order.  [packs]: the
    empty list when the raw record has no pack field, and the raw list as it
    is, entries untouched, when it has one. *)
Theorem normalized_sequences :
  _normalize_tags PNone = Ok [] ∧
  _normalize_tags (PStr []) = Ok [] ∧
  (∀ s, _normalize_tags (PStr s) = Ok (fields tag_sep [] s) ∧
        Forall (λ w, w ≠ [] ∧ forallb (λ c, negb (tag_sep c)) w = true)
          (fields tag_sep [] s) ∧
        concat (fields tag_sep [] s) = filter (λ c, negb (tag_sep c)) s) ∧
  _normalize_tags (PStr (L "a, b  c")) = Ok [L "a"; L "b"; L "c"] ∧
  (∀ card ability_labels c,
     _normalize_card card ability_labels = Ok c →
     _normalize_tags (dict_get_default card (L "tag") PNone) = Ok (c_tags c) ∧
     (dict_get card (L "ability") = None ∨
      dict_get card (L "ability") = Some PNone ∨
      dict_get card (L "ability") = Some (PList []) → c_abilities c = []) ∧
     (∀ codes, dict_get card (L "ability") = Some (PList codes) →
        (c_abilities c).*1 = codes) ∧
     (dict_get card (L "pack") = None → c_packs c = PList []) ∧
     (∀ l, dict_get card (L "pack") = Some (PList l) → c_packs c = PList l)).
Proof.
  split_and!; try done.
  - intros s. split; [apply normalize_tags_str|]. by apply fields_spec.
  - intros card ability_labels c Hc.
    apply normalize_card_fields in Hc as (Htags & Hpacks & codes & Hcodes & Hl).
    unfold dict_get_default in Hpacks, Hcodes. split_and!; [done|..].
    + intros H.
      assert (codes = []) as ->.
      { destruct H as [H|[H|H]]; rewrite H in Hcodes; simpl in Hcodes;
          by injection Hcodes as <-. }
      simpl in Hl. by injection Hl as <-.
    + intros codes' H. rewrite H in Hcodes. apply label_all_codes in Hl.
      rewrite Hl. destruct codes'; simpl in Hcodes; by injection Hcodes as <-.
    + intros H. by rewrite H in Hpacks.
    + intros l H. by rewrite H in Hpacks.
Qed.

Lemma normalized_sequences_witness :
  ∃ c, _normalize_card
         [(L "id", PInt 0); (L "tag", PStr (L "a, b  c"));
          (L "ability", PList [PStr (L "FOO")])]
         [(L "FOO", PStr (L "Foo Power"))] = Ok c ∧
       (c_abilities c).*1 = [PStr (L "FOO")] ∧ c_packs c = PList [].
Proof.
  destruct (_normalize_card
         [(L "id", PInt 0); (L "tag", PStr (L "a, b  c"));
          (L "ability", PList [PStr (L "FOO")])]
         [(L "FOO", PStr (L "Foo Power"))]) as [c|e] eqn:Hc.
  - exists c. split; [done|].
    destruct (proj2 (proj2 (proj2 (proj2 normalized_sequences))) _ _ _ Hc)
      as (_ & _ & Hab & Hp & _).
    split; [by apply Hab|by apply Hp].
  - vm_compute in Hc. discriminate Hc.
Defined.

(** ** The literal evaluator *)

Lemma pyval_ind' (P : pyval → Prop) :
  P PNone → (∀ b, P (PBool b)) → (∀ z, P (PInt z)) → (∀ s, P (PStr s)) →
  (∀ l, Forall P l → P (PList l)) →
  (∀ d, Forall (λ kv, P kv.2) d → P (PDict d)) →
  ∀ v, P v.
Proof.
  intros HN HB HI HS HL HD. fix IH 1.
  intros [ |b|z|s|l|d];
    [apply HN|apply HB|apply HI|apply HS|apply HL|apply HD].
  - induction l as [|x l IHl]; constructor; [apply IH|apply IHl].
  - induction d as [|[k x] d IHd]; constructor; [apply IH|apply IHd].
Qed.

Example js_show_example :
  js_show (PDict [(L "a", PList [PInt 1; PInt (-2); PBool true; PNone]);
                  (L "b", PStr (L "x y"))])
  = L "{'a':[1,-2,true,null],'b':'x y'}".
Proof. vm_compute. reflexivity. Qed.

Example literal_eval_example :
  _literal_eval (L "{'a': [1, -2, true, null,], 'b': 'x y'}")
  = Ok (PDict [(L "a", PList [PInt 1; PInt (-2); PBool true; PNone]);
               (L "b", PStr (L "x y"))]).
Proof. vm_compute. reflexivity. Qed.


(** *** [str.replace] *)

Lemma strip_prefix_of_length old s rest :
  strip_prefix_of old s = Some rest → length s = (length old + length rest)%nat.
Proof. intros ->%strip_prefix_of_spec. by rewrite length_app. Qed.

Lemma replace_go_fuel old new : ∀ fuel1 fuel2 s,
  old ≠ [] → (length s < fuel1)%nat → (length s < fuel2)%nat →
  replace_go fuel1 old new s = replace_go fuel2 old new s.
Proof.
  induction fuel1 as [|fuel1 IH]; intros fuel2 s Hold H1 H2; [lia|].
  destruct fuel2 as [|fuel2]; [lia|]. simpl.
  destruct (strip_prefix_of old s) as [rest|] eqn:Hs.
  - f_equal. apply strip_prefix_of_length in Hs.
    destruct old; [done|]. simpl in Hs. apply IH; [done|lia..].
  - destruct s as [|c s]; [done|]. f_equal. simpl in *. apply IH; [done|lia..].
Qed.

Lemma replace_go_S fuel old new s :
  replace_go (S fuel) old new s =
  match strip_prefix_of old s with
  | Some rest => new ++ replace_go fuel old new rest
  | None =>
      match s with
      | [] => []
      | c :: s' => c :: replace_go fuel old new s'
      end
  end.
Proof. done. Qed.

Section replace.
Variables old new : text.
Hypothesis old_nonempty : old ≠ [].

Lemma replace_unfold s :
  replace old new s =
  match strip_prefix_of old s with
  | Some rest => new ++ replace old new rest
  | None =>
      match s with
      | [] => []
      | c :: s' => c :: replace old new s'
      end
  end.
Proof using old_nonempty.
  unfold replace. destruct old as [|a old'] eqn:Hold; [done|].
  rewrite <- Hold in *. rewrite (replace_go_S (length s)).
  destruct (strip_prefix_of old s) as [rest|] eqn:Hs.
  - f_equal. apply strip_prefix_of_length in Hs.
    rewrite Hold in Hs. simpl in Hs. apply replace_go_fuel; [done|lia..].
  - destruct s as [|c s]; [done|]. done.
Qed.

Lemma replace_nil : replace old new [] = [].
Proof using old_nonempty.
  rewrite replace_unfold. by destruct old.
Qed.

(** A character that is not in [old] is copied. *)
Lemma strip_prefix_of_foreign c s :
  c ∉ old → strip_prefix_of old (c :: s) = None.
Proof using old_nonempty.
  intros Hc. destruct old as [|a old']; [done|]. simpl.
  rewrite decide_False; [done|]. intros ->. apply Hc. apply elem_of_cons; auto.
Qed.

Lemma replace_foreign_char c s :
  c ∉ old → replace old new (c :: s) = c :: replace old new s.
Proof using old_nonempty.
  intros Hc. by rewrite replace_unfold, strip_prefix_of_foreign.
Qed.

Lemma replace_foreign a b :
  Forall (λ c, c ∉ old) a → replace old new (a ++ b) = a ++ replace old new b.
Proof using old_nonempty.
  induction 1 as [|c a Hc Ha IH]; [done|]. simpl.
  by rewrite replace_foreign_char, IH.
Qed.

(** An occurrence of [old] cannot reach over a character foreign to it. *)
Lemma strip_prefix_of_sep a c b rest :
  c ∉ old → strip_prefix_of old (a ++ c :: b) = Some rest →
  ∃ a', strip_prefix_of old a = Some a' ∧ rest = a' ++ c :: b.
Proof.
  intros Hc. clear old_nonempty. revert a.
  induction old as [|x old' IH]; intros a; simpl.
  - intros [= <-]. by exists a.
  - destruct a as [|y a]; simpl.
    + destruct (decide (x = c)) as [->|]; [|done].
      destruct Hc. apply elem_of_cons; auto.
    + destruct (decide (x = y)); [|done]. apply IH.
      intros Hin. apply Hc. apply elem_of_cons; auto.
Qed.

Lemma strip_prefix_of_app_None a b :
  strip_prefix_of old (a ++ b) = None → strip_prefix_of old a = None.
Proof.
  intros H. destruct (strip_prefix_of old a) as [a'|] eqn:Ha; [|done].
  apply strip_prefix_of_spec in Ha as ->.
  by rewrite <- app_assoc, strip_prefix_of_app in H.
Qed.

Lemma replace_sep_aux c b : c ∉ old → ∀ n a,
  (length a ≤ n)%nat →
  replace old new (a ++ c :: b) =
  replace old new a ++ c :: replace old new b.
Proof using old_nonempty.
  intros Hc. induction n as [|n IH]; intros a Hn.
  - destruct a; [|simpl in Hn; lia]. simpl.
    by rewrite replace_foreign_char, replace_nil.
  - destruct a as [|x a].
    { simpl. by rewrite replace_foreign_char, replace_nil. }
    rewrite (replace_unfold ((x :: a) ++ c :: b)), (replace_unfold (x :: a)).
    destruct (strip_prefix_of old ((x :: a) ++ c :: b)) as [rest|] eqn:Hs.
    + apply strip_prefix_of_sep in Hs as (a' & Ha' & ->); [|done].
      rewrite Ha'. rewrite <- app_assoc. f_equal.
      apply IH. apply strip_prefix_of_length in Ha'.
      destruct old; [done|]. simpl in *. lia.
    + rewrite (strip_prefix_of_app_None _ _ Hs). simpl. f_equal.
      apply IH. simpl in Hn. lia.
Qed.

Lemma replace_sep a c b :
  c ∉ old →
  replace old new (a ++ c :: b) =
  replace old new a ++ c :: replace old new b.
Proof using old_nonempty. intros Hc. by apply (replace_sep_aux c b Hc (length a)). Qed.

(** A text without occurrence of [old] is unchanged. *)
Lemma replace_none s : is_infix old s = false → replace old new s = s.
Proof using old_nonempty.
  induction s as [|c s IH]; intros Hs.
  - apply replace_nil.
  - simpl in Hs. rewrite replace_unfold.
    destruct (strip_prefix_of old (c :: s)); [done|]. f_equal. by apply IH.
Qed.
End replace.

(** *** Replacing a word in the text of a value *)

Lemma str_int_structural z : forallb structural (str_int z) = true.
Proof.
  assert (∀ n, 0 ≤ n → forallb structural (str_nat n) = true) as Hnat.
  { intros n Hn. destruct (str_nat_spec n Hn) as (_ & Hd & _).
    apply forallb_forall. intros c Hc. rewrite forallb_forall in Hd.
    unfold structural. by rewrite (Hd c Hc). }
  unfold str_int. destruct (Z.ltb_spec z 0); simpl; apply Hnat; lia.
Qed.

Lemma L_one c (x : text) : L (String c EmptyString) ++ x = c :: x.
Proof. done. Qed.

Lemma L_two c1 c2 (x : text) :
  L (String c1 (String c2 EmptyString)) ++ x = c1 :: c2 :: x.
Proof. done. Qed.

Section replace_show.
Variables old new : text.
Variable kw : text * text * text.
Hypothesis old_nonempty : old ≠ [].
Hypothesis old_letters : ∀ c, structural c = true → c ∉ old.

Let kw' : text * text * text :=
  (replace old new kw.1.1, replace old new kw.1.2, replace old new kw.2).

Lemma replace_boundary a rest :
  boundary rest →
  replace old new (a ++ rest) = replace old new a ++ replace old new rest.
Proof using old_nonempty old_letters.
  destruct rest as [|c b]; simpl.
  - intros _. by rewrite replace_nil, !app_nil_r.
  - intros Hc. rewrite replace_sep by auto.
    by rewrite replace_foreign_char by auto.
Qed.

Lemma replace_structural a rest :
  forallb structural a = true →
  replace old new (a ++ rest) = a ++ replace old new rest.
Proof using old_nonempty old_letters.
  intros Ha. apply replace_foreign; [done|].
  apply Forall_forall. intros c Hc. apply old_letters.
  rewrite forallb_forall in Ha. apply Ha. by apply list_elem_of_In.
Qed.

(** Items that are rewritten one by one are rewritten in a sequence. *)
Lemma replace_join (items items' : list text) (closer : ascii) rest :
  Forall2 (λ it it', ∀ rest, boundary rest →
             replace old new (it ++ rest) = it' ++ replace old new rest)
    items items' →
  structural closer = true →
  replace old new (join (L ",") items ++ closer :: rest) =
  join (L ",") items' ++ closer :: replace old new rest.
Proof using old_nonempty old_letters.
  intros Hitems Hcl. induction Hitems as [|it it' items items' Hit Hrest IH].
  - simpl. by rewrite replace_foreign_char by auto.
  - destruct Hrest as [|it2 it2' items2 items2' Hit2 Hrest2].
    + simpl. rewrite Hit by done. by rewrite replace_foreign_char by auto.
    + change (join (L ",") (it :: it2 :: items2))
        with (it ++ L "," ++ join (L ",") (it2 :: items2)).
      change (join (L ",") (it' :: it2' :: items2'))
        with (it' ++ L "," ++ join (L ",") (it2' :: items2')).
      rewrite <- !app_assoc, !L_one. rewrite Hit by done.
      rewrite replace_foreign_char by auto. by rewrite IH.
Qed.

Lemma replace_quoted s rest :
  is_infix old s = false →
  replace old new ("'"%char :: s ++ "'"%char :: rest) =
  "'"%char :: s ++ "'"%char :: replace old new rest.
Proof using old_nonempty old_letters.
  intros Hs. rewrite replace_foreign_char by auto.
  rewrite replace_sep by auto. by rewrite replace_none.
Qed.

Lemma replace_show v : ∀ rest,
  all_strings (λ s, negb (is_infix old s)) v = true → boundary rest →
  replace old new (show kw v ++ rest) = show kw' v ++ replace old new rest.
Proof using old_nonempty old_letters.
  induction v as [ |[]|z|s|l IH|d IH] using pyval_ind'; intros rest Hv Hb;
    cbn [show].
  - by apply replace_boundary.
  - by apply replace_boundary.
  - by apply replace_boundary.
  - apply replace_structural, str_int_structural.
  - simpl in Hv. apply negb_true_iff in Hv.
    rewrite <- !app_assoc, !L_one. by apply replace_quoted.
  - rewrite <- !app_assoc, !L_one.
    rewrite replace_foreign_char by auto. f_equal.
    apply replace_join; [|done].
    simpl in Hv. rewrite forallb_forall in Hv.
    apply Forall2_fmap, Forall_Forall2_diag.
    rewrite Forall_forall in IH |- *. intros x Hx rest' Hb'.
    apply IH; [done| |done]. apply Hv. by apply list_elem_of_In.
  - rewrite <- !app_assoc, !L_one.
    rewrite replace_foreign_char by auto. f_equal.
    apply replace_join; [|done].
    simpl in Hv. rewrite forallb_forall in Hv.
    apply Forall2_fmap, Forall_Forall2_diag.
    rewrite Forall_forall in IH |- *. intros [k x] Hx rest' Hb'.
    pose proof Hx as Hkx. apply list_elem_of_In, Hv in Hkx. simpl in Hkx.
    apply andb_true_iff in Hkx as [Hk Hxv]. apply negb_true_iff in Hk.
    cbn [fst snd]. rewrite <- !app_assoc, !L_one, !L_two.
    rewrite replace_quoted by done.
    rewrite replace_foreign_char by auto.
    pose proof (IH _ Hx rest' Hxv Hb') as IHx. cbn [snd] in IHx.
    by rewrite IHx.
Qed.
End replace_show.

Lemma clean_all_strings (P : text → bool) v :
  (∀ s, clean_str s = true → P s = true) →
  clean v = true → all_strings P v = true.
Proof.
  intros HP. induction v as [ |b|z|s|l IH|d IH] using pyval_ind'; simpl;
    try done.
  - apply HP.
  - rewrite !forallb_forall. intros Hl x Hx. rewrite Forall_forall in IH.
    apply IH; [by apply list_elem_of_In|by apply Hl].
  - intros [_ Hd]%andb_true_iff. rewrite forallb_forall in Hd |- *.
    intros [k x] Hx. specialize (Hd _ Hx). simpl in *.
    apply andb_true_iff in Hd as [Hk Hxv]. rewrite HP by done. simpl.
    rewrite Forall_forall in IH. apply (IH (k, x)); [by apply list_elem_of_In|done].
Qed.

Lemma clean_str_spec s :
  clean_str s = true →
  forallb plain_char s = true ∧ is_infix (L "true") s = false ∧
  is_infix (L "false") s = false ∧ is_infix (L "null") s = false.
Proof.
  unfold clean_str. rewrite !andb_true_iff, !negb_true_iff. naive_solver.
Qed.

Lemma letters_not_structural (old : text) :
  forallb is_alpha old = true → ∀ c, structural c = true → c ∉ old.
Proof.
  intros Hold c Hc Hin. rewrite forallb_forall in Hold.
  apply list_elem_of_In, Hold in Hin. revert Hc Hin.
  destruct c as [[] [] [] [] [] [] [] []]; vm_compute; congruence.
Qed.

(** After the three replacements the text of a clean value is the text of
    the same value with Python's words. *)
Lemma js_show_replaced v :
  clean v = true →
  replace (L "null") (L "None")
    (replace (L "false") (L "False")
       (replace (L "true") (L "True") (js_show v))) = py_show v.
Proof.
  intros Hv. unfold js_show, py_show.
  assert (∀ old, old = L "true" ∨ old = L "false" ∨ old = L "null" →
            all_strings (λ s, negb (is_infix old s)) v = true) as Hfree.
  { intros old Hold. apply clean_all_strings; [|done]. intros s Hs.
    apply clean_str_spec in Hs as (_ & Ht & Hf & Hn).
    destruct Hold as [->|[->| ->]]; by rewrite ?Ht, ?Hf, ?Hn. }
  pose proof (replace_show (L "true") (L "True") (L "true", L "false", L "null")
    ltac:(done) (letters_not_structural (L "true") eq_refl) v []
    (Hfree (L "true") ltac:(auto)) I) as H1.
  pose proof (replace_show (L "false") (L "False") (L "True", L "false", L "null")
    ltac:(done) (letters_not_structural (L "false") eq_refl) v []
    (Hfree (L "false") ltac:(auto)) I) as H2.
  pose proof (replace_show (L "null") (L "None") (L "True", L "False", L "null")
    ltac:(done) (letters_not_structural (L "null") eq_refl) v []
    (Hfree (L "null") ltac:(auto)) I) as H3.
  rewrite !app_nil_r in H1, H2, H3.
  etrans; [|exact H3]. f_equal.
  etrans; [|exact H2]. f_equal.
  exact H1.
Qed.

(** *** The lexer *)

Lemma lex_string_length q : ∀ s body rest,
  lex_string q s = Some (body, rest) → (length rest < length s)%nat.
Proof.
  fix IH 1. intros [|c s] body rest; simpl; [done|].
  destruct (decide (c = q)); [intros [= <- <-]; lia|].
  destruct (decide (c = newline)); [done|].
  destruct (decide (c = "\"%char)).
  - destruct s as [|esc s]; [done|].
    destruct (if decide (esc = "n"%char) then _ else _) as [x|]; [|done].
    destruct (lex_string q s) as [[body' rest']|] eqn:Hs; [|done].
    intros [= <- <-]. apply IH in Hs. simpl. lia.
  - destruct (lex_string q s) as [[body' rest']|] eqn:Hs; [|done].
    intros [= <- <-]. apply IH in Hs. lia.
Qed.

Lemma span_length p s run rest :
  span p s = (run, rest) → length s = (length run + length rest)%nat.
Proof. intros (-> & _)%span_spec. by rewrite length_app. Qed.

Lemma lex_go_fuel : ∀ fuel1 fuel2 s,
  (length s < fuel1)%nat → (length s < fuel2)%nat →
  lex_go fuel1 s = lex_go fuel2 s.
Proof.
  induction fuel1 as [|fuel1 IH]; intros fuel2 s H1 H2; [lia|].
  destruct fuel2 as [|fuel2]; [lia|]. destruct s as [|c s]; [done|].
  simpl in H1, H2. simpl.
  assert (lex_go fuel1 s = lex_go fuel2 s) as Hs by (apply IH; lia).
  rewrite Hs.
  destruct (is_space c); [done|].
  repeat (destruct (decide _); [done|]).
  destruct (bool_decide (c = "'"%char) || bool_decide (c = dquote)).
  { destruct (lex_string c s) as [[body rest]|] eqn:Hq; [|done].
    apply lex_string_length in Hq. f_equal. apply IH; lia. }
  destruct (is_digit c) eqn:Hd.
  { assert (ident_char c = true) as ->
      by (unfold ident_char; rewrite Hd; by destruct (is_alpha c)).
    destruct (span ident_char s) as [run rest] eqn:Hsp.
    apply span_length in Hsp.
    destruct (forallb is_digit (c :: run) && _); [|done].
    f_equal. apply IH; lia. }
  destruct (ident_start c) eqn:Hi; [|done].
  assert (ident_char c = true) as ->.
  { unfold ident_char, ident_start in *. apply orb_true_iff in Hi as [->| ->];
      [done|by rewrite orb_true_r]. }
  destruct (span ident_char s) as [run rest] eqn:Hsp.
  apply span_length in Hsp. f_equal. apply IH; lia.
Qed.

Lemma digit_ident_char c : is_digit c = true → ident_char c = true.
Proof. unfold ident_char. intros ->. by destruct (is_alpha c). Qed.

Lemma ident_start_ident_char c : ident_start c = true → ident_char c = true.
Proof.
  unfold ident_char, ident_start. intros [->| ->]%orb_true_iff;
    [done|by rewrite orb_true_r].
Qed.

Lemma span_first p c s run rest :
  p c = true → span p (c :: s) = (run, rest) → (length rest ≤ length s)%nat.
Proof.
  intros Hc. simpl. rewrite Hc. destruct (span p s) as [run' rest'] eqn:Hsp.
  intros [= <- <-]. apply span_length in Hsp. lia.
Qed.

(** One step of the lexer. *)
Lemma lex_cons c s :
  lex (c :: s) =
  let punct (t : token) := cons t <$> lex s in
  if is_space c then lex s
  else if decide (c = "["%char) then punct TLBrack
  else if decide (c = "]"%char) then punct TRBrack
  else if decide (c = "{"%char) then punct TLBrace
  else if decide (c = "}"%char) then punct TRBrace
  else if decide (c = ","%char) then punct TComma
  else if decide (c = ":"%char) then punct TColon
  else if decide (c = "-"%char) then punct TMinus
  else if bool_decide (c = "'"%char) || bool_decide (c = dquote) then
    match lex_string c s with
    | Some (body, rest) => cons (TStr body) <$> lex rest
    | None => None
    end
  else if is_digit c then
    let '(ds, rest) := span ident_char (c :: s) in
    if forallb is_digit ds
       && (bool_decide (c ≠ "0"%char) || bool_decide (ds = [c]))
    then cons (TInt (digits_value ds)) <$> lex rest
    else None
  else if ident_start c then
    let '(name, rest) := span ident_char (c :: s) in
    cons (TName name) <$> lex rest
  else None.
Proof.
  unfold lex at 1. change (lex_go (S (length (c :: s))) (c :: s))
    with (lex_go (S (S (length s))) (c :: s)).
  assert (∀ t, (length t ≤ length s)%nat → lex_go (S (length s)) t = lex t)
    as Hlex by (intros t Ht; apply lex_go_fuel; lia).
  remember (S (length s)) as fuel eqn:Hfuel.
  cbn [lex_go]. cbv zeta. rewrite (Hlex s) by done.
  destruct (is_space c); [done|].
  repeat (destruct (decide _); [done|]).
  destruct (bool_decide (c = "'"%char) || bool_decide (c = dquote)).
  { destruct (lex_string c s) as [[body rest]|] eqn:Hq; [|done].
    apply lex_string_length in Hq. rewrite Hlex by lia. done. }
  destruct (is_digit c) eqn:Hd.
  { destruct (span ident_char (c :: s)) as [run rest] eqn:Hsp.
    apply span_first in Hsp; [|by apply digit_ident_char].
    destruct (forallb is_digit run && _); [|done].
    rewrite Hlex by lia. done. }
  destruct (ident_start c) eqn:Hi; [|done].
  destruct (span ident_char (c :: s)) as [run rest] eqn:Hsp.
  apply span_first in Hsp; [|by apply ident_start_ident_char].
  rewrite Hlex by lia. done.
Qed.

Lemma delimited_boundary rest : delimited rest → boundary rest.
Proof.
  destruct rest as [|c rest]; [done|]. simpl. unfold structural.
  intros Hc. apply orb_true_iff. right. revert Hc.
  destruct c as [[] [] [] [] [] [] [] []]; vm_compute; congruence.
Qed.

Lemma delimited_not_ident rest :
  delimited rest → match rest with [] => True | c :: _ => ident_char c = false end.
Proof.
  destruct rest as [|c rest]; [done|]. simpl.
  destruct c as [[] [] [] [] [] [] [] []]; vm_compute; congruence.
Qed.

Lemma lex_nil : lex [] = Some [].
Proof. done. Qed.

Lemma lex_lbrack s : lex ("["%char :: s) = cons TLBrack <$> lex s.
Proof. by rewrite lex_cons. Qed.
Lemma lex_rbrack s : lex ("]"%char :: s) = cons TRBrack <$> lex s.
Proof. by rewrite lex_cons. Qed.
Lemma lex_lbrace s : lex ("{"%char :: s) = cons TLBrace <$> lex s.
Proof. by rewrite lex_cons. Qed.
Lemma lex_rbrace s : lex ("}"%char :: s) = cons TRBrace <$> lex s.
Proof. by rewrite lex_cons. Qed.
Lemma lex_comma s : lex (","%char :: s) = cons TComma <$> lex s.
Proof. by rewrite lex_cons. Qed.
Lemma lex_colon s : lex (":"%char :: s) = cons TColon <$> lex s.
Proof. by rewrite lex_cons. Qed.
Lemma lex_minus s : lex ("-"%char :: s) = cons TMinus <$> lex s.
Proof. by rewrite lex_cons. Qed.

Lemma lex_string_plain body rest :
  forallb plain_char body = true →
  lex_string "'" (body ++ "'"%char :: rest) = Some (body, rest).
Proof.
  induction body as [|c body IH]; simpl; [done|].
  intros [Hc Hbody]%andb_true_iff. unfold plain_char in Hc.
  apply negb_true_iff, orb_false_iff in Hc as [Hc Hn].
  apply orb_false_iff in Hc as [Hq Hb].
  apply bool_decide_eq_false in Hq, Hb, Hn.
  rewrite !decide_False by done. by rewrite IH.
Qed.

Lemma lex_quoted body rest :
  forallb plain_char body = true →
  lex ("'"%char :: body ++ "'"%char :: rest) = cons (TStr body) <$> lex rest.
Proof.
  intros Hbody. rewrite lex_cons. cbv zeta. simpl.
  by rewrite lex_string_plain.
Qed.

(** A word or a number is one token when what follows is delimited. *)
Lemma span_word word rest :
  forallb ident_char word = true → delimited rest →
  span ident_char (word ++ rest) = (word, rest).
Proof.
  intros Hw Hrest%delimited_not_ident. destruct rest as [|c rest].
  - rewrite app_nil_r. by apply span_all.
  - by apply span_app.
Qed.

Lemma ident_start_class c :
  ident_start c = true →
  is_space c = false ∧ is_digit c = false ∧
  bool_decide (c = "'"%char) || bool_decide (c = dquote) = false ∧
  c ≠ "["%char ∧ c ≠ "]"%char ∧ c ≠ "{"%char ∧ c ≠ "}"%char ∧
  c ≠ ","%char ∧ c ≠ ":"%char ∧ c ≠ "-"%char.
Proof.
  destruct c as [[] [] [] [] [] [] [] []]; vm_compute; intros H;
    try discriminate H; split_and!; congruence.
Qed.

Lemma digit_class c :
  is_digit c = true →
  is_space c = false ∧
  bool_decide (c = "'"%char) || bool_decide (c = dquote) = false ∧
  c ≠ "["%char ∧ c ≠ "]"%char ∧ c ≠ "{"%char ∧ c ≠ "}"%char ∧
  c ≠ ","%char ∧ c ≠ ":"%char ∧ c ≠ "-"%char.
Proof.
  destruct c as [[] [] [] [] [] [] [] []]; vm_compute; intros H;
    try discriminate H; split_and!; congruence.
Qed.

Lemma lex_word c word rest :
  ident_start c = true → forallb ident_char word = true → delimited rest →
  lex ((c :: word) ++ rest) = cons (TName (c :: word)) <$> lex rest.
Proof.
  intros Hc Hw Hrest. simpl app. rewrite lex_cons. cbv zeta.
  destruct (ident_start_class c Hc)
    as (-> & -> & -> & ? & ? & ? & ? & ? & ? & ?).
  rewrite !decide_False by done. rewrite Hc.
  change (c :: word ++ rest) with ((c :: word) ++ rest).
  rewrite span_word; [done| |done]. simpl.
  by rewrite ident_start_ident_char.
Qed.

Lemma lex_digits c ds rest :
  forallb is_digit (c :: ds) = true → c ≠ "0"%char ∨ ds = [] → delimited rest →
  lex ((c :: ds) ++ rest) = cons (TInt (digits_value (c :: ds))) <$> lex rest.
Proof.
  intros Hds Hlead Hrest. simpl app. rewrite lex_cons. cbv zeta.
  pose proof Hds as Hds'. simpl in Hds'. apply andb_true_iff in Hds' as [Hc _].
  destruct (digit_class c Hc) as (-> & -> & ? & ? & ? & ? & ? & ? & ?).
  rewrite !decide_False by done. rewrite Hc.
  change (c :: ds ++ rest) with ((c :: ds) ++ rest).
  rewrite span_word; [|..|done].
  - rewrite Hds.
    assert (bool_decide (c ≠ "0"%char) || bool_decide (c :: ds = [c]) = true)
      as ->; [|done].
    destruct Hlead as [Hne| ->].
    + by rewrite bool_decide_eq_true_2.
    + rewrite (bool_decide_eq_true_2 ([c] = [c])) by done. apply orb_true_r.
  - apply forallb_forall. intros x Hx. apply digit_ident_char.
    rewrite forallb_forall in Hds. by apply Hds.
Qed.

Lemma dec_digits_leading : ∀ fuel n acc,
  0 < n < 10 ^ (Z.of_nat fuel + 1) →
  ∃ d ds, dec_digits fuel n acc = d :: ds ∧ d ≠ "0"%char.
Proof.
  assert (∀ n, 0 < n < 10 → digit_char n ≠ "0"%char) as Hdigit.
  { intros n Hn Heq. apply (f_equal digit_value) in Heq.
    rewrite code_digit_char in Heq by lia. vm_compute in Heq. lia. }
  induction fuel as [|fuel IH]; intros n acc Hn.
  - change (10 ^ (Z.of_nat 0 + 1)) with 10 in Hn. simpl.
    rewrite Z.mod_small by lia. eexists _, _. split; [done|]. apply Hdigit. lia.
  - simpl dec_digits. destruct (Z.ltb_spec n 10) as [Hlt|Hge].
    + rewrite Z.mod_small by lia. eexists _, _. split; [done|]. apply Hdigit. lia.
    + apply IH. split.
      * apply Z.div_str_pos. lia.
      * apply Z.div_lt_upper_bound; [lia|].
        replace (Z.of_nat (S fuel) + 1) with (Z.succ (Z.of_nat fuel + 1)) in Hn
          by lia.
        rewrite Z.pow_succ_r in Hn by lia. lia.
Qed.

Lemma lex_number n rest :
  0 ≤ n → delimited rest →
  lex (str_nat n ++ rest) = cons (TInt n) <$> lex rest.
Proof.
  intros Hn Hrest. destruct (str_nat_spec n Hn) as (Hval & Hdig & Hne).
  destruct (str_nat n) as [|c ds] eqn:Hs; [done|].
  rewrite lex_digits; [by rewrite Hval|done| |done].
  destruct (decide (n = 0)) as [->|Hnz].
  - right. vm_compute in Hs. by injection Hs as _ <-.
  - left. unfold str_nat in Hs.
    destruct (dec_digits_leading (Z.to_nat (Z.log2 n)) n []) as (d & ds' & Hd & Hd0).
    { split; [lia|]. rewrite Z2Nat.id by apply Z.log2_nonneg.
      pose proof (Z.log2_spec n ltac:(lia)) as [_ Hup].
      eapply Z.lt_le_trans; [exact Hup|].
      replace (Z.succ (Z.log2 n)) with (Z.log2 n + 1) by lia.
      apply Z.pow_le_mono_l. lia. }
    rewrite Hs in Hd. by injection Hd as -> _.
Qed.

Lemma lex_join (items : list text) (toks : list (list token))
    (closer : ascii) (T : token) rest :
  Forall2 (λ it ts, ∀ rest, delimited rest →
             lex (it ++ rest) = (ts ++.) <$> lex rest) items toks →
  (∀ s, lex (closer :: s) = cons T <$> lex s) →
  one_of ",]}" closer = true →
  lex (join (L ",") items ++ closer :: rest) =
  ((join [TComma] toks ++ [T]) ++.) <$> lex rest.
Proof.
  intros Hitems Hcl Hd. induction Hitems as [|it ts items toks Hit Hrest IH].
  - simpl. rewrite Hcl. by destruct (lex rest).
  - destruct Hrest as [|it2 ts2 items2 toks2 Hit2 Hrest2].
    + simpl. rewrite Hit by done. rewrite Hcl.
      destruct (lex rest); simpl; [|done]. by rewrite <- app_assoc.
    + change (join (L ",") (it :: it2 :: items2))
        with (it ++ L "," ++ join (L ",") (it2 :: items2)).
      change (join [TComma] (ts :: ts2 :: toks2))
        with (ts ++ [TComma] ++ join [TComma] (ts2 :: toks2)).
      rewrite <- !app_assoc, L_one. rewrite Hit by done.
      rewrite lex_comma, IH.
      destruct (lex rest) as [ts'|]; [|done].
      cbn [fmap option_fmap option_map]. f_equal.
      rewrite <- !app_assoc. reflexivity.
Qed.

Lemma lex_show v : ∀ rest,
  clean v = true → delimited rest →
  lex (py_show v ++ rest) = (tokens_of v ++.) <$> lex rest.
Proof.
  unfold py_show.
  induction v as [ |[]|z|s|l IH|d IH] using pyval_ind'; intros rest Hv Hd;
    cbn [show tokens_of fst snd].
  - change (L "None") with ("N"%char :: L "one"). by rewrite lex_word.
  - change (L "True") with ("T"%char :: L "rue"). by rewrite lex_word.
  - change (L "False") with ("F"%char :: L "alse"). by rewrite lex_word.
  - unfold str_int. destruct (Z.ltb_spec z 0).
    + simpl app. rewrite lex_minus, lex_number by (done || lia).
      by destruct (lex rest).
    + by rewrite lex_number.
  - simpl in Hv. apply clean_str_spec in Hv as (Hp & _).
    rewrite <- !app_assoc, !L_one. by rewrite lex_quoted.
  - rewrite <- !app_assoc, !L_one. rewrite lex_lbrack.
    rewrite (lex_join _ (map tokens_of l) _ TRBrack);
      [by destruct (lex rest)| |apply lex_rbrack|done].
    simpl in Hv. rewrite forallb_forall in Hv.
    apply Forall2_fmap, Forall_Forall2_diag.
    rewrite Forall_forall in IH |- *. intros x Hx rest' Hd'.
    apply IH; [done| |done]. apply Hv. by apply list_elem_of_In.
  - rewrite <- !app_assoc, !L_one. rewrite lex_lbrace.
    rewrite (lex_join _
      (map (λ kv, TStr kv.1 :: TColon :: tokens_of kv.2) d) _ TRBrace);
      [by destruct (lex rest)| |apply lex_rbrace|done].
    simpl in Hv. apply andb_true_iff in Hv as [_ Hv].
    rewrite forallb_forall in Hv.
    apply Forall2_fmap, Forall_Forall2_diag.
    rewrite Forall_forall in IH |- *. intros [k x] Hx rest' Hd'.
    pose proof Hx as Hkx. apply list_elem_of_In, Hv in Hkx. simpl in Hkx.
    apply andb_true_iff in Hkx as [Hk Hxv].
    apply clean_str_spec in Hk as (Hp & _).
    cbn [fst snd]. rewrite <- !app_assoc, !L_one, !L_two.
    rewrite lex_quoted by done. rewrite lex_colon.
    pose proof (IH _ Hx rest' Hxv Hd') as IHx. cbn [snd] in IHx.
    rewrite IHx. by destruct (lex rest').
Qed.

(** *** The parser *)

Lemma tokens_of_head v :
  ∃ t ts, tokens_of v = t :: ts ∧ t ≠ TRBrack ∧ t ≠ TRBrace.
Proof.
  destruct v as [ |[]|z|s|l|d]; simpl; try by eexists _, _.
  destruct (z <? 0); by eexists _, _.
Qed.

Lemma parse_list_S fuel t ts :
  t ≠ TRBrack →
  parse_list (S fuel) (t :: ts) =
  '(v, rest) ← parse_value fuel (t :: ts);
  match rest with
  | TComma :: rest' => '(l, rest'') ← parse_list fuel rest'; Ok (v :: l, rest'')
  | TRBrack :: rest' => Ok ([v], rest')
  | _ => Raise SyntaxError
  end.
Proof. intros Ht. by destruct t. Qed.

Lemma dict_set_fresh (d : record) k v :
  k ∉ d.*1 → dict_set d k v = d ++ [(k, v)].
Proof.
  induction d as [|[k0 v0] d IH]; simpl; [done|].
  intros [Hne Hd]%not_elem_of_cons. rewrite decide_False by done.
  by rewrite IH.
Qed.

Lemma parse_list_tokens fuel x r :
  parse_list (S fuel) (tokens_of x ++ r) =
  '(v, rest) ← parse_value fuel (tokens_of x ++ r);
  match rest with
  | TComma :: rest' => '(l, rest'') ← parse_list fuel rest'; Ok (v :: l, rest'')
  | TRBrack :: rest' => Ok ([v], rest')
  | _ => Raise SyntaxError
  end.
Proof.
  destruct (tokens_of_head x) as (t & ts & -> & Ht & _).
  by apply parse_list_S.
Qed.

Lemma parse_dict_S fuel acc k ts :
  parse_dict (S fuel) acc (TStr k :: TColon :: ts) =
  '(v, rest') ← parse_value fuel ts;
  match rest' with
  | TComma :: rest'' => parse_dict fuel (dict_set acc k v) rest''
  | TRBrace :: rest'' => Ok (dict_set acc k v, rest'')
  | _ => Raise SyntaxError
  end.
Proof. reflexivity. Qed.

Lemma join_cons2 {A} (sep x y : list A) l :
  join sep (x :: y :: l) = x ++ sep ++ join sep (y :: l).
Proof. reflexivity. Qed.

Section parse.
(** The values whose tokens parse back, with any fuel that covers them. *)
Let parses (v : pyval) : Prop :=
  ∀ fuel rest, (length (tokens_of v) ≤ fuel)%nat →
    parse_value fuel (tokens_of v ++ rest) = Ok (v, rest).

Lemma parse_list_join l : Forall parses l → ∀ fuel rest,
  (length (join [TComma] (map tokens_of l)) < fuel)%nat →
  parse_list fuel (join [TComma] (map tokens_of l) ++ TRBrack :: rest)
  = Ok (l, rest).
Proof.
  induction 1 as [|x l Hx Hl IH]; intros fuel rest Hfuel.
  - destruct fuel; [lia|]. done.
  - destruct fuel as [|fuel]; [lia|].
    destruct l as [|y l].
    + change (join [TComma] (map tokens_of [x])) with (tokens_of x) in *.
      rewrite parse_list_tokens, Hx by lia. done.
    + change (map tokens_of (x :: y :: l))
        with (tokens_of x :: tokens_of y :: map tokens_of l) in *.
      rewrite join_cons2 in *.
      change (tokens_of y :: map tokens_of l) with (map tokens_of (y :: l)) in *.
      rewrite !length_app in Hfuel. cbn [length] in Hfuel.
      rewrite <- !app_assoc.
      rewrite parse_list_tokens, Hx by lia.
      cbn [mbind result_bind app]. rewrite IH by (cbn [length]; lia). done.
Qed.

Lemma parse_dict_join d : Forall (λ kv, parses kv.2) d → ∀ fuel acc rest,
  NoDup (acc.*1 ++ d.*1) →
  (length (join [TComma]
     (map (λ kv, TStr kv.1 :: TColon :: tokens_of kv.2) d)) < fuel)%nat →
  parse_dict fuel acc
    (join [TComma] (map (λ kv, TStr kv.1 :: TColon :: tokens_of kv.2) d)
     ++ TRBrace :: rest)
  = Ok (acc ++ d, rest).
Proof.
  induction 1 as [|[k x] d Hx Hd IH]; intros fuel acc rest Hnd Hfuel.
  - destruct fuel; [lia|]. simpl. by rewrite app_nil_r.
  - destruct fuel as [|fuel]; [lia|].
    assert (k ∉ acc.*1 ∧ NoDup ((acc ++ [(k, x)]).*1 ++ d.*1)) as [Hk Hnd'].
    { rewrite fmap_app, <- app_assoc. simpl in *. split; [|done].
      apply NoDup_app in Hnd as (_ & Hdisj & _).
      intros Hin. apply (Hdisj _ Hin). apply elem_of_cons; auto. }
    pose (item := λ kv : text * pyval, TStr kv.1 :: TColon :: tokens_of kv.2).
    fold item in Hfuel, IH |- *.
    destruct d as [|[k2 x2] d].
    + change (join [TComma] (map item [(k, x)]))
        with (TStr k :: TColon :: tokens_of x) in *.
      cbn [length] in Hfuel. cbn [app]. rewrite parse_dict_S.
      cbn [snd] in Hx. rewrite Hx by lia.
      cbn [mbind result_bind]. rewrite dict_set_fresh by done. done.
    + change (map item ((k, x) :: (k2, x2) :: d))
        with (item (k, x) :: item (k2, x2) :: map item d) in *.
      rewrite join_cons2 in *.
      change (item (k2, x2) :: map item d) with (map item ((k2, x2) :: d)) in *.
      change (item (k, x)) with (TStr k :: TColon :: tokens_of x) in *.
      rewrite !length_app in Hfuel. cbn [length] in Hfuel.
      rewrite <- !app_assoc. rewrite <- ?app_comm_cons. rewrite parse_dict_S.
      cbn [snd] in Hx. rewrite Hx by lia.
      cbn [mbind result_bind app]. rewrite dict_set_fresh by done.
      rewrite IH; [by rewrite <- app_assoc|done|cbn [length]; lia].
Qed.

Lemma parse_value_tokens v : clean v = true → parses v.
Proof.
  induction v as [ |[]|z|s|l IH|d IH] using pyval_ind'; intros Hv fuel rest Hfuel;
    cbn [tokens_of] in *.
  - destruct fuel; [simpl in Hfuel; lia|done].
  - destruct fuel; [simpl in Hfuel; lia|done].
  - destruct fuel; [simpl in Hfuel; lia|done].
  - destruct (Z.ltb_spec z 0); (destruct fuel; [simpl in Hfuel; lia|]);
      cbn [app parse_value]; [|done].
    by rewrite Z.opp_involutive.
  - destruct fuel; [simpl in Hfuel; lia|done].
  - destruct fuel as [|fuel]; [simpl in Hfuel; lia|].
    simpl in Hfuel. rewrite length_app in Hfuel. simpl in Hfuel.
    simpl. rewrite <- app_assoc. simpl.
    rewrite parse_list_join; [done| |lia].
    simpl in Hv. rewrite forallb_forall in Hv.
    rewrite Forall_forall in IH |- *. intros x Hx.
    apply IH; [done|]. apply Hv. by apply list_elem_of_In.
  - destruct fuel as [|fuel]; [simpl in Hfuel; lia|].
    simpl in Hfuel. rewrite length_app in Hfuel. simpl in Hfuel.
    simpl in Hv. apply andb_true_iff in Hv as [Hnd Hv].
    apply bool_decide_eq_true in Hnd.
    simpl. rewrite <- app_assoc. simpl.
    rewrite parse_dict_join; [done| |done|lia].
    rewrite forallb_forall in Hv.
    rewrite Forall_forall in IH |- *. intros [k x] Hx.
    apply (IH _ Hx). apply list_elem_of_In, Hv in Hx. simpl in Hx.
    by apply andb_true_iff in Hx as [_ ?].
Qed.
End parse.

Lemma ast_literal_eval_show v :
  clean v = true → ast_literal_eval (py_show v) = Ok v.
Proof.
  intros Hv. unfold ast_literal_eval.
  pose proof (lex_show v [] Hv I) as Hlex.
  rewrite app_nil_r, lex_nil in Hlex. rewrite Hlex.
  cbn [fmap option_fmap option_map]. rewrite app_nil_r.
  pose proof (parse_value_tokens v Hv (S (length (tokens_of v))) []) as Hp.
  rewrite app_nil_r in Hp. rewrite Hp by lia. done.
Qed.



(** ** The text of a normalized card *)

Lemma replace_crlf : ∀ n s, (length s ≤ n)%nat →
  replace [carriage_return] [newline]
    (replace [carriage_return; newline] [newline] s) = unix_newlines s.
Proof.
  induction n as [|n IH]; intros s Hn.
  { destruct s; [done|simpl in Hn; lia]. }
  destruct s as [|c s]; [done|].
  rewrite (replace_unfold [carriage_return; newline]) by done.
  cbn [strip_prefix_of unix_newlines].
  destruct (decide (carriage_return = c)) as [<-|Hc].
  - rewrite decide_True by done.
    destruct s as [|d s].
    + vm_compute. reflexivity.
    + destruct (decide (newline = d)) as [<-|Hd].
      * rewrite decide_True by done. cbn [app].
        rewrite (replace_unfold [carriage_return]) by done.
        cbn [strip_prefix_of]. rewrite decide_False by done.
        f_equal. apply IH. simpl in *. lia.
      * rewrite decide_False by done.
        rewrite (replace_unfold [carriage_return]) by done.
        cbn [strip_prefix_of]. rewrite decide_True by done. cbn [app].
        f_equal. apply IH. simpl in *. lia.
  - rewrite decide_False by done.
    rewrite (replace_unfold [carriage_return]) by done.
    cbn [strip_prefix_of]. rewrite decide_False by done.
    f_equal. apply IH. simpl in *. lia.
Qed.

Lemma unix_newlines_no_cr : ∀ n s, (length s ≤ n)%nat →
  carriage_return ∉ unix_newlines s.
Proof.
  induction n as [|n IH]; intros s Hn.
  { destruct s; [apply not_elem_of_nil|simpl in Hn; lia]. }
  destruct s as [|c s]; [apply not_elem_of_nil|]. simpl in Hn.
  cbn [unix_newlines]. destruct (decide (c = carriage_return)) as [->|Hc].
  - apply not_elem_of_cons. split; [done|].
    destruct s as [|d s]; [apply not_elem_of_nil|].
    destruct (decide (d = newline)); apply IH; simpl in *; lia.
  - apply not_elem_of_cons. split; [done|]. apply IH. lia.
Qed.

Lemma unix_newlines_id s : carriage_return ∉ s → unix_newlines s = s.
Proof.
  induction s as [|c s IH]; [done|].
  intros [Hc Hs]%not_elem_of_cons. cbn [unix_newlines].
  rewrite decide_False by done. by rewrite IH.
Qed.

Lemma unix_newlines_length s : (length (unix_newlines s) ≤ length s)%nat.
Proof.
  assert (∀ n s, (length s ≤ n)%nat →
            (length (unix_newlines s) ≤ length s)%nat) as H.
  { induction n as [|n IH]; intros s' Hn.
    { destruct s'; [done|simpl in Hn; lia]. }
    destruct s' as [|c s']; [done|]. simpl in Hn. cbn [unix_newlines].
    destruct (decide (c = carriage_return)).
    - destruct s' as [|d s']; [simpl; lia|].
      destruct (decide (d = newline)); simpl in *.
      + specialize (IH s'). lia.
      + specialize (IH (d :: s')). simpl in IH. lia.
    - simpl. specialize (IH s'). lia. }
  by apply (H (length s)).
Qed.

Lemma normalize_card_text card ability_labels c :
  _normalize_card card ability_labels = Ok c →
  normalize_text (dict_get_default card (L "text") PNone) = Ok (c_text c).
Proof.
  unfold _normalize_card. intros H.
  destruct (normalize_text _) as [t|]; [|done].
  cbn [mbind result_bind] in H.
  destruct (image_name _); [|done]. cbn [mbind result_bind] in H.
  destruct (_normalize_tags _); [|done]. cbn [mbind result_bind] in H.
  destruct (py_list _); [|done]. cbn [mbind result_bind] in H.
  destruct (label_all _ _); [|done]. cbn [mbind result_bind] in H.
  by injection H as <-.
Qed.

(** The [text] of a normalized card has Unix line breaks only.  A raw text
    that is absent, null or empty gives the empty string; a raw string
    gives the string in which every CR LF pair and every other CR is one
    LF, all other characters kept in order, so the result holds no CR, is
    no longer than the raw text and equals it when that has no CR; a raw
    text that is neither a string nor falsy is an error. *)
Theorem normalize_text_unix_newlines :
  normalize_text PNone = Ok [] ∧
  (∀ s, normalize_text (PStr s) = Ok (unix_newlines s) ∧
        (length (unix_newlines s) ≤ length s)%nat ∧
        (carriage_return ∉ s → unix_newlines s = s)) ∧
  (∀ raw t, normalize_text raw = Ok t → carriage_return ∉ t) ∧
  (∀ raw, truthy raw = true → (∀ s, raw ≠ PStr s) →
     normalize_text raw = Raise AttributeError) ∧
  (∀ card ability_labels c,
     _normalize_card card ability_labels = Ok c →
     carriage_return ∉ c_text c ∧
     (dict_get card (L "text") = None → c_text c = [])).
Proof.
  assert (∀ s, normalize_text (PStr s) = Ok (unix_newlines s)) as Hstr.
  { intros s. unfold normalize_text, py_or.
    destruct s as [|a s]; [vm_compute; reflexivity|].
    cbn [truthy]. f_equal. by apply (replace_crlf (length (a :: s))). }
  assert (∀ raw t, normalize_text raw = Ok t → carriage_return ∉ t) as Hcr.
  { intros raw t H. unfold normalize_text in H.
    destruct (py_or raw (PStr [])) as [ | | |s| | ]; try done.
    assert (Ok (unix_newlines s) = Ok t) as [= <-].
    { rewrite <- H. f_equal. symmetry. by apply (replace_crlf (length s)). }
    by apply (unix_newlines_no_cr (length s)). }
  split_and!.
  - done.
  - intros s. split_and!; [apply Hstr|apply unix_newlines_length|
                           apply unix_newlines_id].
  - exact Hcr.
  - intros raw Ht Hns. unfold normalize_text, py_or. rewrite Ht.
    destruct raw; try done. by destruct (Hns s).
  - intros card ability_labels c Hc. apply normalize_card_text in Hc.
    split; [by eapply Hcr|].
    intros Hnone. unfold dict_get_default in Hc. rewrite Hnone in Hc.
    by injection Hc as <-.
Qed.

Lemma normalize_text_unix_newlines_witness :
  carriage_return ∉ L "a
b".
Proof.
  apply (proj1 (proj2 (proj2 normalize_text_unix_newlines))
           (PStr ("a"%char :: carriage_return :: newline :: L "b"))).
  vm_compute. reflexivity.
Defined.

(** ** The image downloader: names, files and counts *)

Lemma normalize_card_inv card ability_labels c :
  _normalize_card card ability_labels = Ok c →
  c_id c = dict_get_default card (L "id") PNone ∧
  image_name (c_id c) = Ok (c_image c) ∧
  normalize_text (dict_get_default card (L "text") PNone) = Ok (c_text c) ∧
  c_refer_id c = dict_get card (L "refer_id") ∧
  c_qa c = deepcopy (dict_get_default card (L "qa") (PList [])) ∧
  c_kirakira c = truthy (dict_get_default card (L "kirakira") PNone).
Proof.
  unfold _normalize_card. intros H.
  destruct (normalize_text _) as [t|]; [|done].
  cbn [mbind result_bind] in H.
  destruct (image_name _) as [im|] eqn:Him; [|done].
  cbn [mbind result_bind] in H.
  destruct (_normalize_tags _); [|done]. cbn [mbind result_bind] in H.
  destruct (py_list _); [|done]. cbn [mbind result_bind] in H.
  destruct (label_all _ _); [|done]. cbn [mbind result_bind] in H.
  injection H as <-. cbn [c_id c_image c_text c_refer_id c_qa c_kirakira].
  done.
Qed.

(** The address requested for a normalized card ends in its image name. *)
Lemma normalized_index c :
  normalized c →
  ∃ index, py_succ (py_or (c_id c) (PInt 0)) = Ok index ∧
           BASE_URL ++ IMAGE_TEMPLATE index = image_url c.
Proof.
  intros (card & labels & Hc).
  apply normalize_card_inv in Hc as (_ & Him & _).
  unfold image_name in Him.
  destruct (py_succ _) as [index|] eqn:Hi; [|done].
  cbn [mbind result_bind] in Him. injection Him as Him.
  exists index. split; [done|]. unfold image_url, IMAGE_TEMPLATE.
  rewrite <- Him. reflexivity.
Qed.

Lemma card_gets_card index a more :
  card_gets (EGet (BASE_URL ++ IMAGE_TEMPLATE index) a :: more) =
  EGet (BASE_URL ++ IMAGE_TEMPLATE index) a :: card_gets more.
Proof.
  unfold card_gets. rewrite filter_cons. cbn [is_get].
  rewrite ph_get_card_url. done.
Qed.

Lemma card_gets_placeholder a more :
  card_gets (EGet PLACEHOLDER_URL a :: more) = card_gets more.
Proof.
  unfold card_gets. rewrite filter_cons. cbn [is_get].
  unfold PLACEHOLDER_URL. rewrite ph_get_placeholder. done.
Qed.

Lemma card_gets_write path c more :
  card_gets (EWrite path c :: more) = card_gets more.
Proof. unfold card_gets. by rewrite filter_cons. Qed.

(** One turn of the loop, for a card whose index can be computed: the card
    is skipped, or its image is requested and then either one file is
    written or one warning is recorded. *)
Lemma download_one_outcome force st c w index :
  py_succ (py_or (c_id c) (PInt 0)) = Ok index →
  ∃ st' w' new fs,
    download_one force st c w = (Ok st', w') ∧
    net w' = net w ∧ clock w' = clock w ∧ files w' = fs ∧
    trace w' = trace w ++ new ∧
    Forall (λ e, match e with
                 | EGet url _ =>
                     url = BASE_URL ++ IMAGE_TEMPLATE index ∨ url = PLACEHOLDER_URL
                 | EWrite path (Bytes _) => path = target_of c
                 | _ => False
                 end) new ∧
    ((is_Some (files w !! target_of c) ∧ force = false ∧
      new = [] ∧ st' = st ∧ fs = files w) ∨
     (¬ (is_Some (files w !! target_of c) ∧ force = false) ∧
      card_gets new =
        [EGet (BASE_URL ++ IMAGE_TEMPLATE index)
           (net w (requests_made w) (BASE_URL ++ IMAGE_TEMPLATE index))] ∧
      ((written new = [] ∧ fs = files w ∧ downloaded st' = downloaded st ∧
        ∃ msg, errors st' = errors st ++ [msg]) ∨
       (∃ data, written new = [target_of c] ∧
          fs = <[target_of c := Bytes data]> (files w) ∧
          downloaded st' = S (downloaded st) ∧ errors st' = errors st)))).
Proof.
  intros Hidx. unfold download_one.
  cbv [mbind io_bind mret io_ret lift exists_ request store_image write log].
  rewrite Hidx. cbv beta iota zeta. cbn [net clock files trace].
  fold (target_of c). fold (requests_made w).
  set (url := BASE_URL ++ IMAGE_TEMPLATE index).
  destruct (bool_decide (is_Some (files w !! target_of c)) && negb force)
    eqn:Hskip.
  { apply andb_true_iff in Hskip as [Hp Hf].
    apply bool_decide_eq_true in Hp. apply negb_true_iff in Hf.
    exists st, w, [], (files w). rewrite app_nil_r.
    split_and!; [done..|]. left. done. }
  assert (¬ (is_Some (files w !! target_of c) ∧ force = false)) as Hns.
  { intros [Hp ->]. apply andb_false_iff in Hskip as [Hs|Hs]; [|done].
    by apply bool_decide_eq_false in Hs. }
  change (net w (length (filter (λ e : event, is_get e) (trace w))) url)
    with (net w (requests_made w) url).
  destruct (net w (requests_made w) url) as [data|status message|message]
    eqn:Ha; cbv beta iota zeta; cbn [net clock files trace].
  - eexists _, _, [EGet url (Body data); EWrite (target_of c) (Bytes data)], _.
    do 4 (split; [done|]); (split; [by rewrite <- ?app_assoc|]); split.
    + repeat first [apply Forall_nil_2 | apply Forall_cons_2]; auto.
    + right. split_and!; [done| |].
      * unfold url. by rewrite card_gets_card, card_gets_write.
      * right. exists data. done.
  - destruct (decide (status = 404)) as [->|Hs];
      cbv beta iota zeta; cbn [net clock files trace].
    + destruct (placeholder_bytes st) as [data|] eqn:Hph;
        cbv beta iota zeta; cbn [net clock files trace].
      * eexists _, _, [EGet url (HTTPError 404 message);
                    EWrite (target_of c) (Bytes data)], _.
        do 4 (split; [done|]); (split; [by rewrite <- ?app_assoc|]); split.
        -- repeat first [apply Forall_nil_2 | apply Forall_cons_2]; auto.
        -- right. split_and!; [done| |].
           ++ unfold url. by rewrite card_gets_card, card_gets_write.
           ++ right. exists data. done.
      * match goal with |- context [net w ?n ?u] =>
          destruct (net w n u) as [data|status' message'|message'] eqn:Hb
        end; cbv beta iota zeta; cbn [net clock files trace].
        -- eexists _, _, [EGet url (HTTPError 404 message);
                       EGet PLACEHOLDER_URL (Body data);
                       EWrite (target_of c) (Bytes data)], _.
           do 4 (split; [done|]); (split; [by rewrite <- ?app_assoc|]); split.
           ++ repeat first [apply Forall_nil_2 | apply Forall_cons_2]; auto.
           ++ right. split_and!; [done|unfold url;
                by rewrite card_gets_card, card_gets_placeholder, ?card_gets_write|].
              right. exists data. done.
        -- eexists _, _, [EGet url (HTTPError 404 message);
                       EGet PLACEHOLDER_URL (HTTPError status' message')], _.
           do 4 (split; [done|]); (split; [by rewrite <- ?app_assoc|]); split.
           ++ repeat first [apply Forall_nil_2 | apply Forall_cons_2]; auto.
           ++ right. split_and!; [done|unfold url;
                by rewrite card_gets_card, card_gets_placeholder, ?card_gets_write|].
              left. split_and!; [done..|]. by eexists.
        -- eexists _, _, [EGet url (HTTPError 404 message);
                       EGet PLACEHOLDER_URL (Failure message')], _.
           do 4 (split; [done|]); (split; [by rewrite <- ?app_assoc|]); split.
           ++ repeat first [apply Forall_nil_2 | apply Forall_cons_2]; auto.
           ++ right. split_and!; [done|unfold url;
                by rewrite card_gets_card, card_gets_placeholder, ?card_gets_write|].
              left. split_and!; [done..|]. by eexists.
    + eexists _, _, [EGet url (HTTPError status message)], _.
      do 4 (split; [done|]); (split; [by rewrite <- ?app_assoc|]); split.
      * repeat first [apply Forall_nil_2 | apply Forall_cons_2]; auto.
      * right. split_and!; [done|unfold url; by rewrite card_gets_card|].
        left. split_and!; [done..|]. by eexists.
  - eexists _, _, [EGet url (Failure message)], _.
    do 4 (split; [done|]); (split; [by rewrite <- ?app_assoc|]); split.
    + repeat first [apply Forall_nil_2 | apply Forall_cons_2]; auto.
    + right. split_and!; [done|unfold url; by rewrite card_gets_card|].
      left. split_and!; [done..|]. by eexists.
Qed.

Lemma written_app evs1 evs2 : written (evs1 ++ evs2) = written evs1 ++ written evs2.
Proof. unfold written. by rewrite omap_app. Qed.

Lemma card_gets_app evs1 evs2 :
  card_gets (evs1 ++ evs2) = card_gets evs1 ++ card_gets evs2.
Proof. unfold card_gets. by rewrite filter_app. Qed.

(** The whole loop over normalized cards: what it returns, the events it
    adds and the files it leaves. *)
Lemma download_loop_outcome force cards :
  Forall normalized cards → ∀ st w,
  ∃ st' w' new errs,
    download_loop force st cards w = (Ok st', w') ∧
    net w' = net w ∧ clock w' = clock w ∧ trace w' = trace w ++ new ∧
    Forall (λ e, match e with
                 | EGet url _ =>
                     url = PLACEHOLDER_URL ∨ ∃ c, c ∈ cards ∧ url = image_url c
                 | EWrite path (Bytes _) => ∃ c, c ∈ cards ∧ path = target_of c
                 | _ => False
                 end) new ∧
    downloaded st' = (downloaded st + length (written new))%nat ∧
    errors st' = errors st ++ errs ∧
    (length (written new) + length errs ≤ length cards)%nat ∧
    (force = true →
       (length (written new) + length errs = length cards)%nat ∧
       length (card_gets new) = length cards) ∧
    (∀ p, p ∉ written new → files w' !! p = files w !! p) ∧
    (∀ p, p ∈ written new → ∃ data, files w' !! p = Some (Bytes data)) ∧
    (force = false →
       NoDup (written new) ∧ ∀ p, p ∈ written new → files w !! p = None) ∧
    (force = false → (∀ c, c ∈ cards → is_Some (files w !! target_of c)) →
       new = [] ∧ errs = []).
Proof.
  induction 1 as [|c cards Hc Hcards IH]; intros st w.
  { exists st, w, [], []. rewrite !app_nil_r.
    split_and!; try done; try (simpl; lia).
    - intros p Hp. by apply elem_of_nil in Hp.
    - intros _. split; [constructor|]. intros p Hp. by apply elem_of_nil in Hp. }
  destruct (normalized_index c Hc) as (index & Hidx & Hurl).
  destruct (download_one_outcome force st c w index Hidx)
    as (st1 & w1 & new1 & fs & Hone & Hnet1 & Hclock1 & Hfs & Htr1 & Hev1 & Hcase).
  destruct (IH st1 w1)
    as (st' & w' & new2 & errs2 & Hloop & Hnet & Hclock & Htr & Hev2 & Hdl &
        Herr & Hle & Hforce & Hkeep & Hnew & Hfresh & Hidle).
  assert (∃ errs1,
            errors st1 = errors st ++ errs1 ∧
            downloaded st1 = (downloaded st + length (written new1))%nat ∧
            (length (written new1) + length errs1 ≤ 1)%nat ∧
            (force = true →
               (length (written new1) + length errs1 = 1)%nat ∧
               length (card_gets new1) = 1%nat) ∧
            (∀ p, p ∉ written new1 → files w1 !! p = files w !! p) ∧
            (∀ p, p ∈ written new1 →
               p = target_of c ∧ ∃ data, files w1 !! p = Some (Bytes data)) ∧
            (force = false →
               NoDup (written new1) ∧
               ∀ p, p ∈ written new1 → files w !! p = None) ∧
            (force = false → is_Some (files w !! target_of c) →
               new1 = [] ∧ errs1 = []))
    as (errs1 & Herr1 & Hdl1 & Hle1 & Hforce1 & Hkeep1 & Hnew1 & Hfresh1 &
        Hidle1).
  { rewrite Hfs.
    destruct Hcase as [(Hp & Hf & -> & -> & ->)|
                       (Hns & Hgets & [(Hw & -> & Hd & msg & He)|
                                       (data & Hw & -> & Hd & He)])].
    - exists []. rewrite app_nil_r. split_and!; try done.
      + simpl. lia.
      + intros ->. done.
      + intros p Hp'. by apply elem_of_nil in Hp'.
      + intros _. split; [constructor|].
        intros p Hp'. by apply elem_of_nil in Hp'.
    - exists [msg]. rewrite Hw, Hgets. split_and!; try done.
      + simpl. lia.
      + intros p Hp'. by apply elem_of_nil in Hp'.
      + intros _. split; [constructor|].
        intros p Hp'. by apply elem_of_nil in Hp'.
      + intros Hf Hp. by destruct Hns.
    - exists []. rewrite Hw, Hgets, app_nil_r. split_and!; try done.
      + simpl. lia.
      + intros p Hp'. apply not_elem_of_cons in Hp' as [Hp' _].
        by rewrite lookup_insert_ne.
      + intros p ->%list_elem_of_singleton. split; [done|].
        exists data. by rewrite lookup_insert_eq.
      + intros ->. split; [apply NoDup_singleton|].
        intros p ->%list_elem_of_singleton.
        destruct (files w !! target_of c) eqn:Hl; [|done].
        destruct Hns. split; [by eexists|done].
      + intros Hf Hp. by destruct Hns. }
  exists st', w', (new1 ++ new2), (errs1 ++ errs2).
  rewrite written_app, card_gets_app, !length_app.
  split_and!.
  - cbn [download_loop]. cbv [mbind io_bind]. by rewrite Hone.
  - congruence.
  - congruence.
  - by rewrite Htr, Htr1, app_assoc.
  - apply Forall_app. split.
    + eapply Forall_impl; [exact Hev1|]. intros [|url a|path []]; try done.
      * intros [->| ->]; [right|by left].
        exists c. split; [apply elem_of_cons; auto|done].
      * intros ->. exists c. split; [apply elem_of_cons; auto|done].
    + eapply Forall_impl; [exact Hev2|]. intros [|url a|path []]; try done.
      * intros [->|(c' & Hc' & ->)]; [by left|right].
        exists c'. split; [apply elem_of_cons; auto|done].
      * intros (c' & Hc' & ->).
        exists c'. split; [apply elem_of_cons; auto|done].
  - rewrite Hdl, Hdl1. lia.
  - by rewrite Herr, Herr1, app_assoc.
  - simpl. lia.
  - intros Hf. destruct (Hforce Hf) as [? ?]. destruct (Hforce1 Hf) as [? ?].
    simpl. lia.
  - intros p [Hp1 Hp2]%not_elem_of_app. by rewrite Hkeep, Hkeep1.
  - intros p Hp. destruct (decide (p ∈ written new2)) as [Hin|Hnin].
    + by apply Hnew.
    + apply elem_of_app in Hp as [Hp|Hp]; [|done].
      rewrite Hkeep by done. by apply Hnew1.
  - intros Hf. destruct (Hfresh Hf) as [Hnd2 Hnone2].
    destruct (Hfresh1 Hf) as [Hnd1 Hnone1]. split.
    + apply NoDup_app. split_and!; [done| |done].
      intros p Hp1 Hp2. destruct (Hnew1 p Hp1) as (_ & data & Hdata).
      rewrite (Hnone2 p Hp2) in Hdata. done.
    + intros p [Hp|Hp]%elem_of_app; [by apply Hnone1|].
      destruct (decide (p ∈ written new1)) as [Hin|Hnin].
      * destruct (Hnew1 p Hin) as (_ & data & Hdata).
        rewrite (Hnone2 p Hp) in Hdata. done.
      * rewrite <- Hkeep1 by done. by apply Hnone2.
  - intros Hf Hall.
    destruct (Hidle1 Hf) as [-> ->]; [apply Hall, elem_of_cons; auto|].
    destruct (Hidle Hf) as [-> ->]; [|done].
    intros c' Hc'. rewrite Hkeep1 by apply not_elem_of_nil.
    apply Hall, elem_of_cons. auto.
Qed.

Lemma download_images_outcome force cards w :
  Forall normalized cards →
  ∃ errs w' new,
    _download_images cards force w = (Ok (length (written new), errs), w') ∧
    net w' = net w ∧ clock w' = clock w ∧
    trace w' = trace w ++ EMkdir IMAGES_DIR :: new ∧
    Forall (λ e, match e with
                 | EGet url _ =>
                     url = PLACEHOLDER_URL ∨ ∃ c, c ∈ cards ∧ url = image_url c
                 | EWrite path (Bytes _) => ∃ c, c ∈ cards ∧ path = target_of c
                 | _ => False
                 end) new ∧
    (length (written new) + length errs ≤ length cards)%nat ∧
    (force = true →
       (length (written new) + length errs = length cards)%nat ∧
       length (card_gets new) = length cards) ∧
    (∀ p, p ∉ written new → files w' !! p = files w !! p) ∧
    (∀ p, p ∈ written new → ∃ data, files w' !! p = Some (Bytes data)) ∧
    (force = false →
       NoDup (written new) ∧ ∀ p, p ∈ written new → files w !! p = None) ∧
    (force = false → (∀ c, c ∈ cards → is_Some (files w !! target_of c)) →
       new = [] ∧ errs = []).
Proof.
  intros Hcards. unfold _download_images.
  cbv [mbind io_bind mret io_ret mkdir].
  destruct (download_loop_outcome force cards Hcards
              {| downloaded := 0; errors := []; placeholder_bytes := None |}
              (log (EMkdir IMAGES_DIR) w))
    as (st' & w' & new & errs & Hloop & Hnet & Hclock & Htr & Hev & Hdl &
        Herr & Hle & Hforce & Hkeep & Hnew & Hfresh & Hidle).
  rewrite Hloop. cbn [downloaded errors app] in Hdl, Herr.
  rewrite Hdl, Herr. exists errs, w', new.
  split_and!; try done.
  rewrite Htr. cbn [log trace]. by rewrite <- app_assoc.
Qed.



(** Without [force] the downloader never touches a file that is there.
    Over cards that come from the normalizer, a run with [force=False]
    leaves every file that existed before with its content, writes each
    path at most once and only where no file was, and every path it wrote
    holds bytes afterwards; when the image of every card is already there
    it makes no request at all and reports no download and no warning. *)
Theorem download_images_keeps_existing (cards : list Card) (w : world) :
  Forall normalized cards →
  ∃ n errs w' new,
    _download_images cards false w = (Ok (n, errs), w') ∧
    trace w' = trace w ++ EMkdir IMAGES_DIR :: new ∧
    (∀ p, is_Some (files w !! p) →
       files w' !! p = files w !! p ∧ p ∉ written new) ∧
    NoDup (written new) ∧
    (∀ p, p ∈ written new →
       files w !! p = None ∧ ∃ data, files w' !! p = Some (Bytes data)) ∧
    (∀ p, p ∉ written new → files w' !! p = files w !! p) ∧
    ((∀ c, c ∈ cards → is_Some (files w !! target_of c)) →
       new = [] ∧ n = 0%nat ∧ errs = []).
Proof.
  intros Hcards.
  destruct (download_images_outcome false cards w Hcards)
    as (errs & w' & new & Hrun & _ & _ & Htr & _ & _ & _ & Hkeep & Hnew &
        Hfresh & Hidle).
  destruct (Hfresh eq_refl) as [Hnd Hnone].
  exists (length (written new)), errs, w', new.
  split_and!; try done.
  - intros p [x Hx].
    assert (p ∉ written new) as Hp.
    { intros Hin. rewrite (Hnone p Hin) in Hx. done. }
    split; [by apply Hkeep|done].
  - intros p Hp. split; [by apply Hnone|by apply Hnew].
  - intros Hall. destruct (Hidle eq_refl Hall) as [-> ->]. done.
Qed.

Lemma download_images_keeps_existing_witness :
  ∃ n errs w' new,
    _download_images [card_with_id 0] false live_placeholder_world
      = (Ok (n, errs), w') ∧
    trace w' = trace live_placeholder_world ++ EMkdir IMAGES_DIR :: new ∧
    (∀ p, is_Some (files live_placeholder_world !! p) →
       files w' !! p = files live_placeholder_world !! p ∧ p ∉ written new) ∧
    NoDup (written new) ∧
    (∀ p, p ∈ written new →
       files live_placeholder_world !! p = None ∧
       ∃ data, files w' !! p = Some (Bytes data)) ∧
    (∀ p, p ∉ written new → files w' !! p = files live_placeholder_world !! p) ∧
    ((∀ c, c ∈ [card_with_id 0] →
        is_Some (files live_placeholder_world !! target_of c)) →
       new = [] ∧ n = 0%nat ∧ errs = []).
Proof.
  apply (download_images_keeps_existing [card_with_id 0] live_placeholder_world).
  repeat constructor.
  exists [(L "id", PInt 0)], []. vm_compute. reflexivity.
Defined.



(** ** [update_data] once the script is parsed *)

Lemma normalize_all_normalized ability_labels : ∀ raw_cards cards,
  normalize_all raw_cards ability_labels = Ok cards →
  Forall normalized cards ∧ length cards = length raw_cards.
Proof.
  induction raw_cards as [|raw raw_cards IH]; intros cards H.
  - injection H as <-. by split.
  - cbn [normalize_all] in H.
    destruct (_normalize_card raw ability_labels) as [c|] eqn:Hc; [|done].
    cbn [mbind result_bind] in H.
    destruct (normalize_all raw_cards ability_labels) as [cs|]; [|done].
    cbn [mbind result_bind] in H. injection H as <-.
    destruct (IH cs eq_refl) as [Hall Hlen]. split.
    + constructor; [by exists raw, ability_labels|done].
    + simpl. by rewrite Hlen.
Qed.

Lemma parse_card_list_normalized js ability_labels pack_linkage cards :
  _parse_card_list js ability_labels pack_linkage = Ok cards →
  Forall normalized cards.
Proof.
  unfold _parse_card_list. intros H.
  destruct (re_search CardDataPattern js) as [found|]; [|done].
  cbv zeta in H.
  destruct (_literal_eval _) as [v|]; [|done]. cbn [mbind result_bind] in H.
  destruct (py_list v) as [items|]; [|done]. cbn [mbind result_bind] in H.
  destruct (as_records items) as [raw|]; [|done]. cbn [mbind result_bind] in H.
  destruct (_resolve_references raw) as [raw'|]; [|done].
  cbn [mbind result_bind] in H.
  by apply normalize_all_normalized in H as [? _].
Qed.

Lemma parse_all_normalized js packs ability_labels cards :
  parse_all js = Ok (packs, ability_labels, cards) → Forall normalized cards.
Proof.
  unfold parse_all. intros H.
  destruct (_parse_pack_list js); [|done]. cbn [mbind result_bind] in H.
  destruct (_parse_ability_labels js) as [labels|]; [|done].
  cbn [mbind result_bind] in H.
  destruct (_parse_pack_linkage js) as [linkage|]; [|done].
  cbn [mbind result_bind] in H.
  destruct (_parse_card_list js labels linkage) as [cs|] eqn:Hcs; [|done].
  cbn [mbind result_bind] in H. injection H as _ _ <-.
  by eapply parse_card_list_normalized.
Qed.



(** ** The references to ability labels *)

Lemma match_at_ability_ref prev s :
  match_at AbilityRefPattern prev s =
  match strip_prefix_of ability_prefix s with
  | Some s1 =>
      match span ident_start s1 with
      | ([], _) => None
      | (name, rest) => Some (ability_prefix ++ name, rest, [name])
      end
  | None => None
  end.
Proof.
  unfold AbilityRefPattern. rewrite match_at_lit_cat. fold ability_prefix.
  destruct (strip_prefix_of ability_prefix s) as [s1|]; [|done].
  rewrite match_at_group, match_at_plus.
  by destruct (span ident_start s1) as [[|c name] rest].
Qed.

Lemma match_at_ability_ref_None prev s :
  match_at AbilityRefPattern prev s = None ↔ ¬ ability_ref s.
Proof.
  rewrite match_at_ability_ref. unfold ability_ref. split.
  - intros H (c & rest & -> & Hc). rewrite strip_prefix_of_app in H.
    cbn [span] in H. rewrite Hc in H. by destruct (span ident_start rest).
  - intros H. destruct (strip_prefix_of ability_prefix s) as [s1|] eqn:Hs; [|done].
    apply strip_prefix_of_spec in Hs as ->.
    destruct s1 as [|c rest]; [done|]. cbn [span].
    destruct (ident_start c) eqn:Hc; [|done]. destruct H. by exists c, rest.
Qed.

(** Every reference [abilityLabel.<NAME>] becomes the quoted name.  A text
    without reference is unchanged; up to the first reference the text is
    copied, the reference is replaced by its name between single quotes,
    the name being the longest run of letters and underscores after the
    dot (a digit ends it), and the scan goes on behind the name. *)
Theorem quote_ability_refs_spec :
  (∀ t, (∀ i, ¬ ability_ref (drop i t)) → quote_ability_refs t = t) ∧
  (∀ pre name rest,
     name ≠ [] → forallb ident_start name = true →
     match rest with [] => True | c :: _ => ident_start c = false end →
     (∀ i, (i < length pre)%nat →
        ¬ ability_ref (drop i (pre ++ ability_prefix ++ name ++ rest))) →
     quote_ability_refs (pre ++ ability_prefix ++ name ++ rest) =
     pre ++ L "'" ++ name ++ L "'" ++ quote_ability_refs rest).
Proof.
  unfold quote_ability_refs. split.
  - intros t Hno. apply re_sub_no_match; [done|].
    intros i. by apply match_at_ability_ref_None.
  - intros pre name rest Hne Hchars Hrest Hno.
    rewrite re_sub_skip_prefix; [|done|].
    2: { intros i Hi. by apply match_at_ability_ref_None, Hno. }
    f_equal.
    assert (match_at AbilityRefPattern None (ability_prefix ++ name ++ rest)
            = Some (ability_prefix ++ name, rest, [name])) as Hm.
    { rewrite match_at_ability_ref, strip_prefix_of_app.
      assert (span ident_start (name ++ rest) = (name, rest)) as ->.
      { destruct rest as [|c rest]; [rewrite app_nil_r; by apply span_all|].
        by apply span_app. }
      by destruct name. }
    destruct (ability_prefix ++ name) as [|a m] eqn:Hpm; [done|].
    rewrite (re_sub_match _ _ _ a m rest [name]); [|done|done].
    unfold quote_group. cbn [head default]. by rewrite <- !app_assoc.
Qed.

Lemma quote_ability_refs_spec_witness :
  quote_ability_refs (L "[" ++ ability_prefix ++ L "FOO_x" ++ L "1]") =
  L "[" ++ L "'" ++ L "FOO_x" ++ L "'" ++ quote_ability_refs (L "1]").
Proof.
  apply (proj2 quote_ability_refs_spec (L "[") (L "FOO_x") (L "1]")).
  - done.
  - vm_compute. reflexivity.
  - vm_compute. reflexivity.
  - intros i Hi (c & rest & Heq & Hc).
    assert (i = 0%nat) as -> by (simpl in Hi; lia).
    vm_compute in Heq. discriminate Heq.
Defined.
